(** * Data Axle enrichment scripts: a shallow embedding and its properties

    The repository holds three one-shot Node.js scripts that share one
    MongoDB collection ([data_axle.data_axle_users]):

    - [processEmails]   (script.js, first half): calls the Data Axle match
      API for the CSV rows of a 1-based index range and inserts the answers;
    - [verifyStoreInfo] (script.js, second half): a read-only report;
    - [updateStoreInfo] (the store-info update script): merges the store
      columns of the CSV into the records that already exist.

    The scripts are sequential [async] functions.  They are embedded as
    computations in a state-and-exception monad over a [World] that holds
    the collection, the clock, the CSV file, a script of environment
    answers (faults, latencies, API payloads) and the trace of the calls
    made so far.  A computation returns, throws, or ends the process with
    an error that no [try] block of the script sees.

    Modelling limits: JavaScript strings are ASCII strings here
    ([toLowerCase] and [trim] act on ASCII letters and ASCII white space);
    a driver or HTTP call that fails has no effect on the collection, and
    nothing but the running script writes to the collection; console
    output is kept as structured lines with the values they interpolate
    (headings and rules are left out), not as formatted text. *)

From stdpp Require Import gmap strings list fin_maps.
From Stdlib Require Import ZArith Ascii.

Open Scope string_scope.
Open Scope list_scope.
Open Scope Z_scope.

(** ** JavaScript strings *)

Module Js.

Definition isUpper (c : ascii) : bool :=
  let n := nat_of_ascii c in (65 <=? n)%nat && (n <=? 90)%nat.

Definition lowerChar (c : ascii) : ascii :=
  if isUpper c then ascii_of_nat (nat_of_ascii c + 32) else c.

(** [String.prototype.toLowerCase] *)
Fixpoint toLowerCase (s : string) : string :=
  match s with
  | EmptyString => EmptyString
  | String c r => String (lowerChar c) (toLowerCase r)
  end.

(** White space removed by [trim]: TAB, LF, VT, FF, CR and SPACE. *)
Definition isSpace (c : ascii) : bool :=
  let n := nat_of_ascii c in ((9 <=? n)%nat && (n <=? 13)%nat) || (n =? 32)%nat.

Fixpoint trimStart (s : string) : string :=
  match s with
  | EmptyString => EmptyString
  | String c r => if isSpace c then trimStart r else s
  end.

Fixpoint trimEnd (s : string) : string :=
  match s with
  | EmptyString => EmptyString
  | String c r =>
      match trimEnd r with
      | EmptyString => if isSpace c then EmptyString else String c EmptyString
      | r' => String c r'
      end
  end.

(** [String.prototype.trim] *)
Definition trim (s : string) : string := trimEnd (trimStart s).

(** Truthiness of a value that is a string or [undefined]: the string when
    it is truthy, [None] for [undefined] and for the empty string. *)
Definition truthy (o : option string) : option string :=
  match o with
  | Some EmptyString => None
  | Some s => Some s
  | None => None
  end.

(** A thrown value; [message] is its [.message]. *)
Inductive Exn :=
| TypeError (msg : string)
| DriverError (msg : string)
| HttpError (msg : string)
| IoError (msg : string).

Definition message (e : Exn) : string :=
  match e with
  | TypeError m | DriverError m | HttpError m | IoError m => m
  end.

(** The result of a division of two counters, as far as the scripts can tell
    the cases apart: a finite quotient [num/den] (with [den > 0]), [NaN]
    ([0/0]) or [Infinity] ([n/0], [n > 0]). *)
Inductive Num :=
| Fin (num den : Z)
| NaN
| Infinity.

Definition div (a b : nat) : Num :=
  match b, a with
  | O, O => NaN
  | O, S _ => Infinity
  | S _, _ => Fin (Z.of_nat a) (Z.of_nat b)
  end.

Definition times (x : Num) (k : Z) : Num :=
  match x with
  | Fin n d => Fin (n * k) d
  | NaN => NaN
  | Infinity => Infinity
  end.

End Js.

(** ** Documents, rows and the collection *)

(** A field of a stored document. *)
Inductive Value :=
| VStr (s : string)
| VDate (ms : Z)
| VData (payload : string).

#[global] Instance Value_eq_dec : EqDecision Value.
Proof. solve_decision. Defined.

(** A stored document, and a CSV row as csv-parser yields it: an object
    with one string per header column. *)
Abbreviation Doc := (gmap string Value).
Abbreviation Row := (gmap string string).

(** The query filters the scripts use. *)
Inductive Filter :=
| FAll
| FEq (k : string) (v : string)
| FExists (k : string) (present : bool)
| FAnd (f g : Filter)
| FOr (f g : Filter).

Fixpoint matches (f : Filter) (d : Doc) : bool :=
  match f with
  | FAll => true
  | FEq k v => bool_decide (d !! k = Some (VStr v))
  | FExists k b => match d !! k with Some _ => b | None => negb b end
  | FAnd f g => matches f d && matches g d
  | FOr f g => matches f d || matches g d
  end.

(** [{ email: email }] *)
Definition byEmail (email : string) : Filter := FEq "email" email.

(** The first document a filter matches, as [findOne] returns it. *)
Definition firstMatch (f : Filter) (s : list Doc) : option Doc :=
  List.find (matches f) s.

(** [$set]: the fields of [upd] are written over those of [d]; the other
    fields of [d] stay. *)
Definition setFields (upd d : Doc) : Doc := upd ∪ d.

(** [updateOne(f, {$set: upd})] on the collection: the first matching
    document is rewritten; the second component is [modifiedCount]. *)
Fixpoint applyUpdate (f : Filter) (upd : Doc) (s : list Doc) : list Doc * nat :=
  match s with
  | [] => ([], O)
  | d :: rest =>
      if matches f d
      then (setFields upd d :: rest,
            if decide (setFields upd d = d) then O else 1%nat)
      else let '(rest', n) := applyUpdate f upd rest in (d :: rest', n)
  end.

(** ** Console output, calls and the world *)

(** The lines the scripts print, with the values they interpolate. *)
Inductive Line :=
| LConnected
| LClosed
| LFatal (e : Js.Exn)
  (* updateStoreInfo *)
| LLoaded (n : nat)
| LMissingEmail (rowNo : nat)
| LUpdated (email : string) (storeId storeName : option string)
| LNoChanges (email : string)
| LNotFound (email : string)
| LProgress (total len updated notFound errors : nat)
| LRowError (rowNo : nat) (msg : string)
| LSummary (total updated notFound errors : nat) (successRate : Js.Num)
| LSample (idx : nat) (d : Doc)
  (* processEmails *)
| LSkipping (email : string)
| LProcessed (idx : Z) (email : string)
| LEmailError (rowEmail : option string) (msg : string)
  (* verifyStoreInfo *)
| LTotal (n : nat)
| LStatus (withId withName withBoth : nat) (without : Z)
| LCoverage (pct : Js.Num)
| LWithInfo (idx : nat) (d : Doc)
| LUpdatedOn (ms : Z)
| LWithoutInfo (idx : nat) (d : Doc) (hasId hasName : bool)
| LStore (idx : nat) (name id : option Value) (customers : nat).

(** What a script does to the outside world, in order. *)
Inductive Event :=
| EConnect
| EClose
| EReadCsv
| EFindOne (f : Filter)
| EUpdateOne (f : Filter) (upd : Doc)
| EInsertOne (d : Doc)
| ECountDocuments (f : Filter)
| EFind (f : Filter) (limit : nat)
| EAggregate
| EApiPost (email : string)
| ESleep (ms : Z)
| ELog (l : Line).

(** One answer of the environment, consumed by one driver or HTTP call:
    whether the call fails (and with which message), how long it takes and,
    for the match API, the payload it returns. *)
Record Tick := mkTick {
  fault : option string;
  elapsed : Z;
  payload : string
}.

Definition quiet : Tick := mkTick None 0 "".

Record World := mkWorld {
  store : list Doc;            (* the collection, in storage order *)
  clock : Z;                   (* milliseconds, what [new Date()] reads *)
  csvFile : option (list Row); (* customer_emails.csv; [None]: unreadable *)
  answers : list Tick;         (* the environment's answers still to come *)
  trace : list Event           (* the calls made so far, oldest first *)
}.

Definition withStore (s : list Doc) (w : World) : World :=
  mkWorld s (clock w) (csvFile w) (answers w) (trace w).
Definition withClock (t : Z) (w : World) : World :=
  mkWorld (store w) t (csvFile w) (answers w) (trace w).
Definition withAnswers (a : list Tick) (w : World) : World :=
  mkWorld (store w) (clock w) (csvFile w) a (trace w).
Definition withTrace (tr : list Event) (w : World) : World :=
  mkWorld (store w) (clock w) (csvFile w) (answers w) tr.

(** ** The monad: local variables, the world, and exceptions *)

(** [Uncaught e]: [e] was thrown outside the function, by an event emitter
    whose ['error'] event has no listener.  No [catch] and no [finally] of
    the function runs: Node reports the error and the process exits. *)
Inductive Result (A : Type) :=
| Ok (a : A)
| Throw (e : Js.Exn)
| Uncaught (e : Js.Exn).
Arguments Ok {A} a.
Arguments Throw {A} e.
Arguments Uncaught {A} e.

(** A computation over the local variables [L] of the enclosing function. *)
Definition M (L A : Type) : Type := L → World → Result A * L * World.

Section Monad.
Context {L : Type}.

Definition ret {A} (a : A) : M L A := λ l w, (Ok a, l, w).

Definition bind {A B} (m : M L A) (k : A → M L B) : M L B :=
  λ l w, match m l w with
         | (Ok a, l', w') => k a l' w'
         | (Throw e, l', w') => (Throw e, l', w')
         | (Uncaught e, l', w') => (Uncaught e, l', w')
         end.

Definition throw {A} (e : Js.Exn) : M L A := λ l w, (Throw e, l, w).

(** The process ends here. *)
Definition uncaught {A} (e : Js.Exn) : M L A := λ l w, (Uncaught e, l, w).

(** [try { body } catch (error) { handler }] *)
Definition tryCatch {A} (body : M L A) (handler : Js.Exn → M L A) : M L A :=
  λ l w, match body l w with
         | (Ok a, l', w') => (Ok a, l', w')
         | (Throw e, l', w') => handler e l' w'
         | (Uncaught e, l', w') => (Uncaught e, l', w')
         end.

(** [try { body } finally { final }] *)
Definition tryFinally {A} (body : M L A) (final : M L unit) : M L A :=
  λ l w, match body l w with
         | (Uncaught e, l', w') => (Uncaught e, l', w')
         | (r, l', w') =>
             match final l' w' with
             | (Ok _, l'', w'') => (r, l'', w'')
             | (Throw e, l'', w'') => (Throw e, l'', w'')
             | (Uncaught e, l'', w'') => (Uncaught e, l'', w'')
             end
         end.

Definition getLocals : M L L := λ l w, (Ok l, l, w).
Definition setLocals (l' : L) : M L unit := λ _ w, (Ok tt, l', w).
Definition getWorld : M L World := λ l w, (Ok w, l, w).
Definition modifyWorld (f : World → World) : M L unit := λ l w, (Ok tt, l, f w).
End Monad.

Declare Scope js_scope.
Delimit Scope js_scope with js.
Notation "x <- c1 ;; c2" := (bind c1 (λ x, c2))
  (at level 100, c1 at next level, right associativity) : js_scope.
Notation "c1 ;; c2" := (bind c1 (λ _, c2))
  (at level 100, right associativity) : js_scope.
Open Scope js_scope.

(** ** The collaborators *)

(** The error of the read stream when the file cannot be opened. *)
Definition csvMissing : Js.Exn :=
  Js.IoError "ENOENT: no such file or directory, open 'customer_emails.csv'".

Section Effects.
Context {L : Type}.

Definition emit (e : Event) : M L unit :=
  modifyWorld (λ w, withTrace (trace w ++ [e]) w).

(** [console.log] and [console.error] *)
Definition log (l : Line) : M L unit := emit (ELog l).

(** The next answer of the environment; the clock advances by the time
    the call took.  When the answers run out, calls succeed at once. *)
Definition nextTick : M L Tick :=
  w <- getWorld;;
  let t := hd quiet (answers w) in
  modifyWorld (λ w, withClock (clock w + elapsed t) (withAnswers (tl (answers w)) w));;
  ret t.

(** A call to the MongoDB driver: it is issued, takes its time, and
    either fails or goes on to [k]. *)
Definition driver {A} (e : Event) (k : M L A) : M L A :=
  emit e;;
  t <- nextTick;;
  match fault t with
  | Some msg => throw (Js.DriverError msg)
  | None => k
  end.

Definition connect : M L unit := driver EConnect (ret tt).
Definition close : M L unit := driver EClose (ret tt).

Definition findOne (f : Filter) : M L (option Doc) :=
  driver (EFindOne f) (w <- getWorld;; ret (firstMatch f (store w))).

(** Returns [result.modifiedCount]. *)
Definition updateOne (f : Filter) (upd : Doc) : M L nat :=
  driver (EUpdateOne f upd)
    (w <- getWorld;;
     let '(s, n) := applyUpdate f upd (store w) in
     modifyWorld (withStore s);;
     ret n).

Definition insertOne (d : Doc) : M L unit :=
  driver (EInsertOne d) (modifyWorld (λ w, withStore (store w ++ [d]) w)).

Definition countDocuments (f : Filter) : M L nat :=
  driver (ECountDocuments f)
    (w <- getWorld;; ret (length (List.filter (matches f) (store w)))).

(** [collection.find(f).limit(n).toArray()] *)
Definition findLimit (f : Filter) (n : nat) : M L (list Doc) :=
  driver (EFind f n)
    (w <- getWorld;; ret (take n (List.filter (matches f) (store w)))).

(** [new Date()] *)
Definition newDate : M L Value :=
  w <- getWorld;; ret (VDate (clock w)).

(** [await new Promise(resolve => setTimeout(resolve, ms))] *)
Definition sleep (ms : Z) : M L unit :=
  emit (ESleep ms);;
  modifyWorld (λ w, withClock (clock w + ms) w).

(** [fs.createReadStream(file).pipe(csv())], its rows collected into an
    array.  [.on('error', reject)] comes after [pipe] and so listens on the
    parser, not on the read stream: when the file cannot be read, the
    ['error'] event of the stream has no listener, the promise is never
    settled and the process ends.  (Errors of the parser itself, which
    would reject, are outside the model.) *)
Definition readCsv : M L (list Row) :=
  emit EReadCsv;;
  w <- getWorld;;
  match csvFile w with
  | Some rows => ret rows
  | None => uncaught csvMissing
  end.

(** [axios.post(DATA_AXLE_API, {identifiers: {email}, packages}, {headers})];
    a network error or a non-2xx status rejects.  Returns [response.data]. *)
Definition apiPost (email : string) : M L Value :=
  emit (EApiPost email);;
  t <- nextTick;;
  match fault t with
  | Some msg => throw (Js.HttpError msg)
  | None => ret (VData (payload t))
  end.

(** [xs.forEach((x, index) => body(index, x))], for a body that may throw. *)
Fixpoint forEach {A} (body : nat → A → M L unit) (i : nat) (xs : list A) : M L unit :=
  match xs with
  | [] => ret tt
  | x :: rest => body i x;; forEach body (S i) rest
  end.

(** The [finally] block of the three scripts. *)
Definition closing : M L unit := close;; log LClosed.
End Effects.

(** ** updateStoreInfo: merge the store columns into existing records *)

(** The statistics the loop keeps in local variables. *)
Record Stats := mkStats {
  totalProcessed : nat;
  updatedRecords : nat;
  notFoundRecords : nat;
  errorRecords : nat
}.

Definition zeroStats : Stats := mkStats 0 0 0 0.

Definition bumpTotal (s : Stats) : Stats :=
  mkStats (S (totalProcessed s)) (updatedRecords s) (notFoundRecords s) (errorRecords s).
Definition bumpUpdated (s : Stats) : Stats :=
  mkStats (totalProcessed s) (S (updatedRecords s)) (notFoundRecords s) (errorRecords s).
Definition bumpNotFound (s : Stats) : Stats :=
  mkStats (totalProcessed s) (updatedRecords s) (S (notFoundRecords s)) (errorRecords s).
Definition bumpErrors (s : Stats) : Stats :=
  mkStats (totalProcessed s) (updatedRecords s) (notFoundRecords s) (S (errorRecords s)).

Definition bump (f : Stats → Stats) : M Stats unit :=
  s <- getLocals;; setLocals (f s).

(** [row.customer_email?.toLowerCase().trim()] *)
Definition normalizedEmail (row : Row) : option string :=
  (λ s, Js.trim (Js.toLowerCase s)) <$> row !! "customer_email".

(** [row.external_store_id?.trim()] and [row.name?.trim()] *)
Definition trimmedField (k : string) (row : Row) : option string :=
  Js.trim <$> row !! k.

(** The partial-update document of lines 66-77: the store columns that are
    truthy after trimming, and the time stamp. *)
Definition updateData (externalStoreId storeName : option string) (now : Value) : Doc :=
  let d : Doc := ∅ in
  let d := match Js.truthy externalStoreId with
           | Some v => <["external_store_id" := VStr v]> d
           | None => d
           end in
  let d := match Js.truthy storeName with
           | Some v => <["store_name" := VStr v]> d
           | None => d
           end in
  <["store_info_updated_at" := now]> d.

(** The progress indicator of lines 100-103. *)
Definition progress (len : nat) : M Stats unit :=
  s <- getLocals;;
  if (totalProcessed s mod 100 =? 0)%nat
  then log (LProgress (totalProcessed s) len (updatedRecords s)
                      (notFoundRecords s) (errorRecords s))
  else ret tt.

(** The body of the [try] of one row (lines 51-103); [len] is
    [csvRows.length]. *)
Definition updateRowBody (len : nat) (row : Row) : M Stats unit :=
  let email := normalizedEmail row in
  let externalStoreId := trimmedField "external_store_id" row in
  let storeName := trimmedField "name" row in
  match Js.truthy email with
  | None =>
      s <- getLocals;;
      log (LMissingEmail (totalProcessed s));;
      bump bumpErrors
      (* continue *)
  | Some email =>
      existingRecord <- findOne (byEmail email);;
      match existingRecord with
      | Some _ =>
          now <- newDate;;
          let updateData := updateData externalStoreId storeName now in
          modifiedCount <- updateOne (byEmail email) updateData;;
          if (0 <? modifiedCount)%nat
          then bump bumpUpdated;;
               log (LUpdated email externalStoreId storeName)
          else log (LNoChanges email)
      | None =>
          bump bumpNotFound;;
          log (LNotFound email)
      end;;
      progress len
  end.

(** The [catch] of one row (lines 105-108). *)
Definition updateRowCatch (error : Js.Exn) : M Stats unit :=
  bump bumpErrors;;
  s <- getLocals;;
  log (LRowError (totalProcessed s) (Js.message error)).

(** One iteration of the loop of line 47. *)
Definition updateRow (len : nat) (row : Row) : M Stats unit :=
  bump bumpTotal;;
  tryCatch (updateRowBody len row) updateRowCatch.

(** [for (const row of csvRows) { ... }] *)
Fixpoint updateLoop (len : nat) (csvRows : list Row) : M Stats unit :=
  match csvRows with
  | [] => ret tt
  | row :: rest => updateRow len row;; updateLoop len rest
  end.

(** The final summary (lines 112-119) and the sample (lines 122-132). *)
Definition updateSummary : M Stats unit :=
  s <- getLocals;;
  log (LSummary (totalProcessed s) (updatedRecords s) (notFoundRecords s)
                (errorRecords s)
                (Js.times (Js.div (updatedRecords s) (totalProcessed s)) 100));;
  sampleUpdated <- findLimit (FAnd (FExists "external_store_id" true)
                                   (FExists "store_info_updated_at" true)) 5;;
  forEach (λ index record, log (LSample (S index) record)) 0 sampleUpdated.

(** The whole function: the outer [try], its [catch] and its [finally]. *)
Definition updateStoreInfo : M Stats unit :=
  tryFinally
    (tryCatch
       (connect;;
        log LConnected;;
        setLocals zeroStats;;
        csvRows <- readCsv;;
        log (LLoaded (length csvRows));;
        updateLoop (length csvRows) csvRows;;
        updateSummary)
       (λ error, log (LFatal error)))
    closing.

(** A run of the script from the command line. *)
Definition runUpdateStoreInfo (w : World) : Result unit * Stats * World :=
  updateStoreInfo zeroStats w.

(** ** processEmails: enrich the rows of an index range *)

(** The document of lines 69-73: [{email, data: response.data, processedAt}]. *)
Definition newRecord (email : string) (data processedAt : Value) : Doc :=
  <["email" := VStr email]>
    (<["data" := data]> (<["processedAt" := processedAt]> ∅)).

(** [currentIndex >= startRange && currentIndex <= endRange] *)
Definition inRange (startRange endRange currentIndex : Z) : bool :=
  (startRange <=? currentIndex) && (currentIndex <=? endRange).

(** The [TypeError] of [undefined.toLowerCase()]. *)
Definition undefinedEmail : Js.Exn :=
  Js.TypeError "Cannot read properties of undefined (reading 'toLowerCase')".

(** The body of the [try] of one row (lines 46-78).  [row.customer_email]
    is [undefined] when the column is missing, and calling [toLowerCase] on
    it throws. *)
Definition enrichRowBody (row : Row) : M Z unit :=
  match row !! "customer_email" with
  | None => throw undefinedEmail
  | Some customer_email =>
      let email := Js.toLowerCase customer_email in
      existingRecord <- findOne (byEmail email);;
      match existingRecord with
      | Some _ =>
          log (LSkipping email)
          (* continue *)
      | None =>
          data <- apiPost email;;
          processedAt <- newDate;;
          insertOne (newRecord email data processedAt);;
          currentIndex <- getLocals;;
          log (LProcessed currentIndex email);;
          sleep 1000
      end
  end.

(** The [catch] of one row (lines 80-82); it prints [row.email]. *)
Definition enrichRowCatch (row : Row) (error : Js.Exn) : M Z unit :=
  log (LEmailError (row !! "email") (Js.message error)).

(** One iteration of the loop of line 42; the local variable is
    [currentIndex]. *)
Definition enrichRow (startRange endRange : Z) (row : Row) : M Z unit :=
  currentIndex <- getLocals;;
  setLocals (currentIndex + 1);;
  currentIndex <- getLocals;;
  if inRange startRange endRange currentIndex
  then tryCatch (enrichRowBody row) (enrichRowCatch row)
  else ret tt.

Fixpoint enrichLoop (startRange endRange : Z) (rows : list Row) : M Z unit :=
  match rows with
  | [] => ret tt
  | row :: rest =>
      enrichRow startRange endRange row;; enrichLoop startRange endRange rest
  end.

Definition processEmails (startRange endRange : Z) : M Z unit :=
  tryFinally
    (tryCatch
       (connect;;
        log LConnected;;
        setLocals 0;;
        rows <- readCsv;;
        enrichLoop startRange endRange rows)
       (λ error, log (LFatal error)))
    closing.

Definition runProcessEmails (startRange endRange : Z) (w : World)
  : Result unit * Z * World :=
  processEmails startRange endRange 0 w.

(** ** verifyStoreInfo: the read-only report *)

Definition truthyValue (o : option Value) : bool :=
  match o with
  | Some (VStr EmptyString) => false
  | Some _ => true
  | None => false
  end.

Definition hasBoth : Filter :=
  FAnd (FExists "external_store_id" true) (FExists "store_name" true).

Definition lacksOne : Filter :=
  FOr (FExists "external_store_id" false) (FExists "store_name" false).

(** The callback of lines 148-155; [toLocaleDateString] exists on dates
    only. *)
Definition showWithInfo (index : nat) (record : Doc) : M unit unit :=
  log (LWithInfo (S index) record);;
  match record !! "store_info_updated_at" with
  | Some (VDate ms) => log (LUpdatedOn ms)
  | Some v =>
      if truthyValue (Some v)
      then throw (Js.TypeError "record.store_info_updated_at.toLocaleDateString is not a function")
      else ret tt
  | None => ret tt
  end.

Definition showWithoutInfo (index : nat) (record : Doc) : M unit unit :=
  log (LWithoutInfo (S index) record
         (truthyValue (record !! "external_store_id"))
         (truthyValue (record !! "store_name"))).

(** The aggregation of lines 181-194: group the documents that have a
    [store_name] by the pair (store_name, external_store_id), count, sort
    by descending count, keep ten.  Groups are kept in order of first
    occurrence and the sort is stable (the driver promises no order among
    equal counts). *)
Definition GroupKey : Type := Value * option Value.

Fixpoint addToGroup (k : GroupKey) (gs : list (GroupKey * nat)) : list (GroupKey * nat) :=
  match gs with
  | [] => [(k, 1%nat)]
  | (k', n) :: rest =>
      if decide (k = k') then (k', S n) :: rest else (k', n) :: addToGroup k rest
  end.

Definition groupStores (s : list Doc) : list (GroupKey * nat) :=
  foldl (λ gs d, match d !! "store_name" with
                 | Some name => addToGroup (name, d !! "external_store_id") gs
                 | None => gs
                 end) [] s.

Fixpoint insertByCount (g : GroupKey * nat) (gs : list (GroupKey * nat))
  : list (GroupKey * nat) :=
  match gs with
  | [] => [g]
  | h :: rest =>
      if (snd h <? snd g)%nat then g :: h :: rest else h :: insertByCount g rest
  end.

Definition sortByCount (gs : list (GroupKey * nat)) : list (GroupKey * nat) :=
  foldl (λ acc g, insertByCount g acc) [] gs.

Definition aggregateStores : M unit (list (GroupKey * nat)) :=
  driver EAggregate
    (w <- getWorld;; ret (take 10 (sortByCount (groupStores (store w))))).

(** Lines 113-134: the counts and the coverage line. *)
Definition reportCounts : M unit (nat * nat) :=
  totalRecords <- countDocuments FAll;;
  log (LTotal totalRecords);;
  withStoreId <- countDocuments (FExists "external_store_id" true);;
  withStoreName <- countDocuments (FExists "store_name" true);;
  withBothStoreInfo <- countDocuments hasBoth;;
  log (LStatus withStoreId withStoreName withBothStoreInfo
               (Z.of_nat totalRecords - Z.of_nat withBothStoreInfo));;
  (if (0 <? withBothStoreInfo)%nat
   then log (LCoverage (Js.times (Js.div withBothStoreInfo totalRecords) 100))
   else ret tt);;
  ret (withStoreId, withBothStoreInfo).

(** Lines 136-199: the samples and the unique stores. *)
Definition reportSamples (withStoreId withBothStoreInfo : nat) : M unit unit :=
  (if (0 <? withBothStoreInfo)%nat
   then withStoreInfo <- findLimit hasBoth 5;;
        forEach showWithInfo 0 withStoreInfo
   else ret tt);;
  withoutStoreInfo <- findLimit lacksOne 3;;
  (if (0 <? length withoutStoreInfo)%nat
   then forEach showWithoutInfo 0 withoutStoreInfo
   else ret tt);;
  if (0 <? withStoreId)%nat
  then uniqueStores <- aggregateStores;;
       forEach (λ index g, log (LStore (S index) (Some (fst (fst g))) (snd (fst g)) (snd g)))
               0 uniqueStores
  else ret tt.

Definition verifyStoreInfo : M unit unit :=
  tryFinally
    (tryCatch
       (connect;;
        log LConnected;;
        counts <- reportCounts;;
        reportSamples (fst counts) (snd counts))
       (λ error, log (LFatal error)))
    closing.

Definition runVerifyStoreInfo (w : World) : Result unit * unit * World :=
  verifyStoreInfo tt w.

(** * The vocabulary of the statements *)

(** ** Runs and their traces *)

(** The three components of the outcome of a run. *)
Definition resultOf {L A} (x : Result A * L * World) : Result A := x.1.1.
Definition localsOf {L A} (x : Result A * L * World) : L := x.1.2.
Definition worldOf {L A} (x : Result A * L * World) : World := x.2.

(** The world once a driver or HTTP call [e] has been issued and answered:
    the call is in the trace, one answer is consumed and the clock has
    advanced by the time the call took. *)
Definition issued (e : Event) (w : World) : World :=
  mkWorld (store w) (clock w + elapsed (hd quiet (answers w))) (csvFile w)
          (tl (answers w)) (trace w ++ [e]).

(** The world once [e] has been added to the trace and nothing else. *)
Definition noted (e : Event) (w : World) : World :=
  withTrace (trace w ++ [e]) w.

(** The fault of the next call, if the environment makes it fail. *)
Definition nextFault (w : World) : option string := fault (hd quiet (answers w)).

(** The events a run added to the trace. *)
Definition newEvents (w w' : World) : list Event :=
  drop (length (trace w)) (trace w').

(** Observations on traces. *)
Definition lookupOf (e : Event) : option Filter :=
  match e with EFindOne f => Some f | _ => None end.
Definition lookupsOf (tr : list Event) : list Filter := omap lookupOf tr.

(** Kinds of events. *)
Definition isLog (e : Event) : bool :=
  match e with ELog _ => true | _ => false end.
Definition isWrite (e : Event) : bool :=
  match e with EUpdateOne _ _ | EInsertOne _ => true | _ => false end.
Definition isInsert (e : Event) : bool :=
  match e with EInsertOne _ => true | _ => false end.
Definition isApiPost (e : Event) : bool :=
  match e with EApiPost _ => true | _ => false end.
Definition isSleep (e : Event) : bool :=
  match e with ESleep _ => true | _ => false end.
Definition isNoChanges (e : Event) : bool :=
  match e with ELog (LNoChanges _) => true | _ => false end.
Definition isCoverage (e : Event) : bool :=
  match e with ELog (LCoverage _) => true | _ => false end.
Definition isFatal (e : Event) : bool :=
  match e with ELog (LFatal _) => true | _ => false end.

(** The calls to storage and to the match API: everything but console
    output. *)
Definition callsOf (tr : list Event) : list Event :=
  List.filter (λ e, negb (isLog e)) tr.

(** The [email] field of a stored document. *)
Definition docEmail (d : Doc) : option Value := d !! "email".

(** The lines of [xs.forEach((x, index) => console.log(...))]. *)
Fixpoint logLines {A} (f : nat → A → Line) (i : nat) (xs : list A) : list Event :=
  match xs with
  | [] => []
  | x :: rest => ELog (f i x) :: logLines f (S i) rest
  end.

(** ** Relations between the states of a run *)

(** [m] takes every state to a state related to it by [R], whether it
    returns or throws. *)
Definition respects {L} (R : L * World → L * World → Prop) {A} (m : M L A) : Prop :=
  ∀ l w, R (l, w) (localsOf (m l w), worldOf (m l w)).

(** The rows for which the update found its record and changed nothing:
    the script prints a line for them and counts them nowhere. *)
Definition unchangedRows (tr : list Event) : nat :=
  length (List.filter isNoChanges tr).

(** What the three outcome counters add up to. *)
Definition accounted (s : Stats) : nat :=
  (updatedRecords s + notFoundRecords s + errorRecords s)%nat.

(** From one state to a later one, [totalProcessed] grows by what the
    three other counters grow plus the unchanged rows printed meanwhile. *)
Definition balanced (a b : Stats * World) : Prop :=
  ∃ evs, trace b.2 = trace a.2 ++ evs
         ∧ (totalProcessed b.1 + accounted a.1
            = totalProcessed a.1 + accounted b.1 + unchangedRows evs)%nat.

(** From one state to a later one, the emails of the collection are the
    same, record by record, and nothing was inserted. *)
Definition untouched (a b : Stats * World) : Prop :=
  docEmail <$> store b.2 = docEmail <$> store a.2
  ∧ ∃ evs, trace b.2 = trace a.2 ++ evs ∧ List.filter isInsert evs = [].

(** From one state to a later one: an email that was in the collection is
    still there, and no call to the match API was made for it. *)
Definition keptAway (email : string) (a b : Z * World) : Prop :=
  is_Some (firstMatch (byEmail email) (store a.2)) →
  is_Some (firstMatch (byEmail email) (store b.2))
  ∧ ∃ evs, trace b.2 = trace a.2 ++ evs ∧ EApiPost email ∉ evs.

(** What the report may print about coverage, for a collection [st]: a
    finite percentage over the size of [st], which is then not zero. *)
Definition coverageFor (st : list Doc) (e : Event) : Prop :=
  match e with
  | ELog (LCoverage pct) =>
      st ≠ [] ∧ ∃ n : nat, pct = Js.Fin (Z.of_nat n * 100) (Z.of_nat (length st))
  | _ => True
  end.

(** From one state to a later one: the collection is the same and every
    coverage line printed meanwhile is a finite percentage. *)
Definition reported (a b : unit * World) : Prop :=
  store b.2 = store a.2
  ∧ ∃ evs, trace b.2 = trace a.2 ++ evs ∧ Forall (coverageFor (store a.2)) evs.

(** The events these relations let a script add to the trace. *)
Definition notNoChanges (e : Event) : Prop := isNoChanges e = false.
Definition notInsert (e : Event) : Prop := isInsert e = false.
Definition notCoverage (e : Event) : Prop := isCoverage e = false.

(** ** Rows, positions and lines *)

(** The progress line a row prints when the count of processed rows is a
    multiple of 100. *)
Definition progressLines (len : nat) (s : Stats) : list Event :=
  if (totalProcessed s mod 100 =? 0)%nat
  then [ELog (LProgress (totalProcessed s) len (updatedRecords s)
                        (notFoundRecords s) (errorRecords s))]
  else [].

(** The line of the final summary. *)
Definition summaryLine (s : Stats) : Event :=
  ELog (LSummary (totalProcessed s) (updatedRecords s) (notFoundRecords s)
                 (errorRecords s)
                 (Js.times (Js.div (updatedRecords s) (totalProcessed s)) 100)).

(** The lookup a row asks for, when it has a [customer_email] column. *)
Definition rowLookup (row : Row) : option Filter :=
  (λ raw, byEmail (Js.toLowerCase raw)) <$> row !! "customer_email".

(** The rows whose position lies in [[startRange, endRange]], each with its
    position, for a list whose first row has position [position]. *)
Fixpoint rowsInRange (startRange endRange position : Z) (rows : list Row)
  : list (Z * Row) :=
  match rows with
  | [] => []
  | row :: rest =>
      (if inRange startRange endRange position then [(position, row)] else [])
      ++ rowsInRange startRange endRange (position + 1) rest
  end.

(** Processing one row, at its position: the [try] and the [catch] of the
    loop body, and what they leave of the world. *)
Definition processRowAt (w : World) (at_row : Z * Row) : World :=
  worldOf (tryCatch (enrichRowBody at_row.2) (enrichRowCatch at_row.2) at_row.1 w).

(** Processing the rows of a list, once each and in order. *)
Definition processEach (rows : list (Z * Row)) (w : World) : World :=
  foldl processRowAt w rows.

(** The report on an empty collection, when the driver never fails. *)
Definition emptyReport : list Event :=
  [EConnect; ELog LConnected;
   ECountDocuments FAll; ELog (LTotal 0);
   ECountDocuments (FExists "external_store_id" true);
   ECountDocuments (FExists "store_name" true);
   ECountDocuments hasBoth; ELog (LStatus 0 0 0 0);
   EFind lacksOne 3;
   EClose; ELog LClosed].

(** ** Sample data for the concrete runs *)

(** A row with the three columns of customer_emails.csv. *)
Definition csvRow (customer_email external_store_id name : string) : Row :=
  <["customer_email" := customer_email]>
    (<["external_store_id" := external_store_id]> (<["name" := name]> ∅)).

(** A stored record that only has its email. *)
Definition emailOnly (email : string) : Doc := <["email" := VStr email]> ∅.

(** An answer that makes the call fail. *)
Definition failing (msg : string) : Tick := mkTick (Some msg) 0 "".

(** One stored record, one row for it. *)
Definition sampleWorld : World :=
  mkWorld [emailOnly "a@x.com"] 1700000000000
          (Some [csvRow "A@X.com" "S1" "Acme"]) [] [].

(** A row with padding around the email and a blank [name]. *)
Definition partialUpdateRow : Row := csvRow " A@X.com " "S1" "  ".

(** The same row twice, processed within one millisecond. *)
Definition twiceWorld : World :=
  mkWorld [emailOnly "a@x.com"] 1700000000000
          (Some [csvRow "a@x.com" "S1" "Acme"; csvRow "a@x.com" "S1" "Acme"]) [] [].

(** One stored record, one row for another email. *)
Definition strangerWorld : World :=
  mkWorld [emailOnly "a@x.com"] 1700000000000
          (Some [csvRow "b@x.com" "S2" "Bolt"]) [] [].

(** Three rows: the lookup of the second fails, the others are unknown. *)
Definition faultyWorld : World :=
  mkWorld [] 1700000000000
          (Some [csvRow "a@x.com" "S1" "Acme"; csvRow "b@x.com" "S1" "Acme";
                 csvRow "c@x.com" "S1" "Acme"])
          [quiet; quiet; failing "connection reset"] [].

(** One stored record, one row for it, without store columns. *)
Definition knownWorld : World :=
  mkWorld [emailOnly "a@x.com"] 1700000000000
          (Some [csvRow "A@X.com" "" ""]) [] [].

(** Ten rows for ten unknown emails. *)
Definition tenRows : list Row :=
  (λ name, csvRow (name +:+ "@X.com") "" "")
    <$> ["u1"; "u2"; "u3"; "u4"; "u5"; "u6"; "u7"; "u8"; "u9"; "u10"].
Definition tenWorld : World := mkWorld [] 1700000000000 (Some tenRows) [] [].

(** A row of a CSV that has no [customer_email] column. *)
Definition noEmailRow : Row := <["name" := "Acme"]> ∅.

(** Two unknown emails; the match API rejects the first request. *)
Definition rejectedWorld : World :=
  mkWorld [] 1700000000000
          (Some [csvRow "a@x.com" "" ""; csvRow "b@x.com" "" ""])
          [quiet; quiet; failing "Request failed with status code 429"] [].

(** Two stored records, one of them with both store fields. *)
Definition coveredWorld : World :=
  mkWorld [<["external_store_id" := VStr "S1"]>
             (<["store_name" := VStr "Acme"]> (emailOnly "a@x.com"));
           emailOnly "b@x.com"]
          1700000000000 None [] [].

(** An empty collection. *)
Definition emptyWorld : World := mkWorld [] 1700000000000 None [] [].

(** ** Further vocabulary *)

(** An environment that makes no call fail (latencies and payloads are
    free). *)
Definition faultless (w : World) : Prop :=
  Forall (λ t, fault t = None) (answers w).


(** The events that may follow the summary of the update-variant: the
    sample query and its lines, the line of the outer [catch], and the
    [finally] block. *)
Definition isEpilogue (e : Event) : bool :=
  match e with
  | EFind _ _ | EClose | ELog (LSample _ _) | ELog (LFatal _) | ELog LClosed => true
  | _ => false
  end.

(** The filter of the sample of updated records (lines 123-128). *)
Definition sampleUpdatedFilter : Filter :=
  FAnd (FExists "external_store_id" true) (FExists "store_info_updated_at" true).

(** The world in which the loop of the update-variant starts, once the
    script has connected and loaded [rows]. *)
Definition loaded (rows : list Row) (w : World) : World :=
  noted (ELog (LLoaded (length rows)))
        (noted EReadCsv (noted (ELog LConnected) (issued EConnect w))).

(** The classes of rows of the update-variant, with respect to a
    collection. *)
Definition isMissing (row : Row) : bool :=
  match Js.truthy (normalizedEmail row) with Some _ => false | None => true end.
Definition isUnknown (st : list Doc) (row : Row) : bool :=
  match Js.truthy (normalizedEmail row) with
  | Some email => match firstMatch (byEmail email) st with Some _ => false | None => true end
  | None => false
  end.
Definition isKnown (st : list Doc) (row : Row) : bool :=
  match Js.truthy (normalizedEmail row) with
  | Some email => match firstMatch (byEmail email) st with Some _ => true | None => false end
  | None => false
  end.

(** One for [true], nothing for [false]. *)
Definition one (b : bool) : nat := if b then 1%nat else 0%nat.

(** The three fields the update-variant writes. *)
Definition isStoreField (k : string) : bool :=
  bool_decide (k = "external_store_id") || bool_decide (k = "store_name")
  || bool_decide (k = "store_info_updated_at").

(** [d'] is [d] but for the three store fields, none of which was lost. *)
Definition sameBut (d d' : Doc) : Prop :=
  (∀ k, isStoreField k = false → d' !! k = d !! k)
  ∧ (∀ k, is_Some (d !! k) → is_Some (d' !! k)).

(** From one state to a later one: the collection has the same records, in
    the same order, changed in the three store fields at most. *)
Definition framed (a b : Stats * World) : Prop :=
  Forall2 sameBut (store a.2) (store b.2).

(** ** Further sample data *)

(** Three rows: a padded known email, a blank email, an unknown email. *)
Definition mixedRows : list Row :=
  [csvRow " A@X.com " "S1" "Acme"; csvRow "   " "S2" "Bolt"; csvRow "b@x.com" "" ""].


(** No call fails. *)
Definition calmWorld : World :=
  mkWorld [emailOnly "a@x.com"] 1700000000000 (Some mixedRows)
          [mkTick None 3 ""; mkTick None 2 ""] [].

(** The world in which the loop of the enrichment-variant starts, once the
    script has connected and read the CSV. *)
Definition opened (w : World) : World :=
  noted EReadCsv (noted (ELog LConnected) (issued EConnect w)).

(** A record as the enrichment-variant inserts it. *)
Definition isNewRecord (d : Doc) : Prop :=
  ∃ email data t, d = newRecord email (VData data) (VDate t).

(** Numbers of calls in a trace. *)
Definition lookups (evs : list Event) : nat := length (lookupsOf evs).
Definition posts (evs : list Event) : nat := length (List.filter isApiPost evs).
Definition inserts (evs : list Event) : nat := length (List.filter isInsert evs).

(** From one state to a later one: the collection was only appended to,
    with records of the enrichment-variant, at most one per [insertOne],
    and there was at most one [insertOne] per call to the match API and one
    such call per lookup. *)
Definition grown (a b : Z * World) : Prop :=
  ∃ docs evs,
    store b.2 = store a.2 ++ docs
    ∧ Forall isNewRecord docs
    ∧ trace b.2 = trace a.2 ++ evs
    ∧ (length docs ≤ inserts evs ≤ posts evs)%nat
    ∧ (posts evs ≤ lookups evs)%nat.

(** An empty collection and one row. *)
Definition oneNewWorld : World :=
  mkWorld [] 1700000000000 (Some [csvRow "New@X.com" "" ""]) [] [].

Definition noRowsWorld : World := mkWorld [emailOnly "a@x.com"] 0 (Some []) [] [].

Definition freshWorld : World :=
  mkWorld [emailOnly "a@x.com"] 1700000000000 None
          [mkTick None 2 ""; mkTick None 250 "{person}"; mkTick None 3 ""] [].

Definition allStored (st : list Doc) (rows : list (Z * Row)) : Prop :=
  ∀ at_row raw,
    at_row ∈ rows → at_row.2 !! "customer_email" = Some raw →
    is_Some (firstMatch (byEmail (Js.toLowerCase raw)) st).

Definition enrichedWorld : World :=
  mkWorld [newRecord "new@x.com" (VData "") (VDate 1700000000000)] 1700000500000
          (Some [csvRow "New@X.com" "" ""]) [mkTick None 5 ""; failing "timeout"] [].

(** Opening and closing the connection. *)
Definition isSession (e : Event) : bool :=
  match e with EConnect | EClose => true | _ => false end.

(** From one state to a later one: the connection was neither opened nor
    closed. *)
Definition sessionFree {L} (a b : L * World) : Prop :=
  ∃ evs, trace b.2 = trace a.2 ++ evs ∧ List.filter isSession evs = [].

(** The events of a run that opens the connection first and closes it last,
    once each. *)
Definition oneSession (evs : list Event) : Prop :=
  ∃ mid, List.filter isSession mid = []
         ∧ (evs = EConnect :: mid ++ [EClose]
            ∨ evs = EConnect :: mid ++ [EClose; ELog LClosed]).

(** A computation that returns or throws: it never ends the process. *)
Definition settles {L A} (m : M L A) : Prop :=
  ∀ l w e, resultOf (m l w) ≠ Uncaught e.

(** The connection is opened and the CSV cannot be read. *)
Definition unreadable (w : World) : Prop := nextFault w = None ∧ csvFile w = None.

(** The events of a run that ends when it cannot read the CSV: the
    connection stays open. *)
Definition leftOpen : list Event := [EConnect; ELog LConnected; EReadCsv].

(** The events of the samples of the report. *)
Definition isSampleEvent (e : Event) : bool :=
  match e with
  | EFind _ _ | EAggregate
  | ELog (LWithInfo _ _) | ELog (LUpdatedOn _) | ELog (LWithoutInfo _ _ _ _)
  | ELog (LStore _ _ _ _) => true
  | _ => false
  end.


(** ** The report *)

(** [countDocuments(f)] on a collection. *)
Definition count (f : Filter) (st : list Doc) : nat :=
  length (List.filter (matches f) st).

(** The documents of one store: those with this [store_name] and this
    [external_store_id] (or without one). *)
Definition ofStore (k : GroupKey) (d : Doc) : bool :=
  bool_decide (d !! "store_name" = Some k.1 ∧ d !! "external_store_id" = k.2).

(** The stores the report lists. *)
Definition topStores (st : list Doc) : list (GroupKey * nat) :=
  take 10 (sortByCount (groupStores st)).

(** The number of customers a list of groups gives for a store. *)
Fixpoint tally (k : GroupKey) (gs : list (GroupKey * nat)) : nat :=
  match gs with
  | [] => O
  | (k', n) :: rest => if decide (k = k') then n else tally k rest
  end.

(** A list of groups in the order of the report: no group has fewer
    customers than a later one. *)
Fixpoint descending (gs : list (GroupKey * nat)) : Prop :=
  match gs with
  | [] => True
  | g :: rest => Forall (λ h, (h.2 ≤ g.2)%nat) rest ∧ descending rest
  end.

(** What a line of the report says about the collection [st] it is printed
    for: where its numbers and its records come from. *)
Definition describes (st : list Doc) (e : Event) : Prop :=
  match e with
  | ELog (LTotal n) => n = length st
  | ELog (LStatus withId withName withBoth without) =>
      withId = count (FExists "external_store_id" true) st
      ∧ withName = count (FExists "store_name" true) st
      ∧ withBoth = count hasBoth st
      ∧ without = Z.of_nat (length st) - Z.of_nat withBoth
  | ELog (LWithInfo idx d) =>
      (1 ≤ idx)%nat ∧ take 5 (List.filter (matches hasBoth) st) !! (idx - 1)%nat = Some d
  | ELog (LWithoutInfo idx d hasId hasName) =>
      (1 ≤ idx)%nat
      ∧ take 3 (List.filter (matches lacksOne) st) !! (idx - 1)%nat = Some d
      ∧ hasId = truthyValue (d !! "external_store_id")
      ∧ hasName = truthyValue (d !! "store_name")
  | ELog (LStore idx name id customers) =>
      (1 ≤ idx)%nat
      ∧ ∃ storeName, name = Some storeName
                     ∧ topStores st !! (idx - 1)%nat = Some ((storeName, id), customers)
  | _ => True
  end.

(** A computation that, run on the collection [st], leaves it as it is,
    adds to the trace only events that [P st] accepts, and returns only
    values that satisfy [Q]. *)
Definition reports (P : list Doc → Event → Prop) (st : list Doc)
    {A} (m : M unit A) (Q : A → Prop) : Prop :=
  ∀ l w, store w = st →
    store (worldOf (m l w)) = st
    ∧ (∃ evs, trace (worldOf (m l w)) = trace w ++ evs ∧ Forall (P st) evs)
    ∧ ∀ a, resultOf (m l w) = Ok a → Q a.

(** Three stores, the second with two customers; one record without store. *)
Definition storeDoc (email storeId storeName : string) : Doc :=
  <["external_store_id" := VStr storeId]>
    (<["store_name" := VStr storeName]> (emailOnly email)).

Definition storesWorld : World :=
  mkWorld [storeDoc "a@x.com" "S1" "Acme"; storeDoc "b@x.com" "S2" "Bolt";
           emailOnly "c@x.com"; storeDoc "d@x.com" "S2" "Bolt"]
          1700000000000 None [] [].

(** ** From one script to the next *)

(** A row whose email, when it has one, has no white space around it. *)
Definition cleanEmail (row : Row) : bool :=
  match row !! "customer_email" with
  | Some raw => bool_decide (Js.trim raw = raw)
  | None => true
  end.

(** The collection of [oneNewWorld] once enriched, and a quiet
    environment. *)
Definition enrichedCalmWorld : World :=
  mkWorld [newRecord "new@x.com" (VData "") (VDate 1700000000000)] 1700000500000
          (Some [csvRow "New@X.com" "" ""]) [] [].

(** ** The progress indicator *)

(** What a progress line says, in a run over [rows]: it is printed for a row
    with a usable email at a position that is a multiple of 100, with the
    counters as they are after this row. *)
Definition progressAt (rows : list Row) (e : Event) : Prop :=
  match e with
  | ELog (LProgress total len updated notFound errors) =>
      len = length rows
      ∧ (1 ≤ total)%nat
      ∧ (total mod 100 = 0)%nat
      ∧ (updated + notFound + errors ≤ total)%nat
      ∧ ∃ row, rows !! (total - 1)%nat = Some row ∧ isMissing row = false
  | _ => True
  end.

(** A hundred rows for an email that is not stored. *)
Definition hundredWorld : World :=
  mkWorld [] 1700000000000 (Some (replicate 100 (csvRow "a@x.com" "S1" "Acme"))) [] [].

(** ** One record per email *)

(** From one state to a later one: the number of records with this email is
    the same, or went from none to one. *)
Definition unique (email : string) (a b : Z * World) : Prop :=
  count (byEmail email) (store b.2) = count (byEmail email) (store a.2)
  ∨ (count (byEmail email) (store a.2) = O ∧ count (byEmail email) (store b.2) = 1%nat).

(** ** The delay *)

(** An environment in which no call takes a negative time. *)
Definition forward (w : World) : Prop := Forall (λ t, 0 ≤ elapsed t) (answers w).

(** From one state to a later one, when time goes forward: at least a second
    has passed for every record that was added. *)
Definition delayed (a b : Z * World) : Prop :=
  forward a.2 →
  forward b.2
  ∧ clock a.2 + 1000 * (Z.of_nat (length (store b.2)) - Z.of_nat (length (store a.2)))
    ≤ clock b.2.

(** Two rows to enrich, and an environment that answers every call after a
    few milliseconds. *)
Definition twoNewWorld : World :=
  mkWorld [] 1700000000000
          (Some [csvRow "New@X.com" "" ""; csvRow "Other@X.com" "" ""])
          [mkTick None 2 ""; mkTick None 3 ""; mkTick None 250 "{person}";
           mkTick None 4 ""; mkTick None 3 ""; mkTick None 180 "{other}";
           mkTick None 5 ""; mkTick None 1 ""] [].

(** ** The sample of updated records *)



(** * The model at work *)

Example toLowerCase_mixed : Js.toLowerCase "Ann.Lee@X.COM" = "ann.lee@x.com".
Proof. reflexivity. Qed.

Example trim_padded : Js.trim "  a b  " = "a b".
Proof. reflexivity. Qed.

Example trim_blank : Js.trim "   " = "".
Proof. reflexivity. Qed.

(** The update scenario of the spec: the row [A@X.com, S1, Acme] and the
    stored record [a@x.com]. *)
Example update_scenario :
  let out := runUpdateStoreInfo sampleWorld in
  resultOf out = Ok tt
  ∧ localsOf out = mkStats 1 1 0 0
  ∧ store (worldOf out)
    = [<["external_store_id" := VStr "S1"]>
         (<["store_name" := VStr "Acme"]>
            (<["store_info_updated_at" := VDate 1700000000000]>
               (emailOnly "a@x.com")))].
Proof. by vm_compute. Qed.

(** A row with an empty [customer_email]: one error, no call to storage
    between reading the CSV and closing the connection. *)
Example update_empty_email :
  let out := runUpdateStoreInfo
               (mkWorld [emailOnly "a@x.com"] 0 (Some [csvRow "" "S1" "Acme"]) [] []) in
  localsOf out = mkStats 1 0 0 1
  ∧ lookupsOf (trace (worldOf out)) = []
  ∧ List.filter isWrite (trace (worldOf out)) = [].
Proof. by vm_compute. Qed.

(** A row for an email that is not stored: one "not found", no write. *)
Example update_unknown_email :
  let out := runUpdateStoreInfo strangerWorld in
  localsOf out = mkStats 1 0 1 0
  ∧ lookupsOf (trace (worldOf out)) = [byEmail "b@x.com"]
  ∧ List.filter isWrite (trace (worldOf out)) = []
  ∧ store (worldOf out) = store strangerWorld.
Proof. by vm_compute. Qed.

(** The enrichment of one unknown email: lookup, call, insert, delay. *)
Example enrich_unknown_email :
  let w := mkWorld [] 1700000000000 (Some [csvRow "New@X.com" "" ""])
                   [quiet; quiet; mkTick None 250 "{person}"] [] in
  let out := runProcessEmails 1 400 w in
  callsOf (trace (worldOf out))
  = [EConnect; EReadCsv; EFindOne (byEmail "new@x.com"); EApiPost "new@x.com";
     EInsertOne (newRecord "new@x.com" (VData "{person}") (VDate 1700000000250));
     ESleep 1000; EClose]
  ∧ store (worldOf out)
    = [newRecord "new@x.com" (VData "{person}") (VDate 1700000000250)]
  ∧ clock (worldOf out) = 1700000001250.
Proof. by vm_compute. Qed.

(** The report on two records, one of them with both store fields. *)
Example report_coverage :
  List.filter isCoverage (trace (worldOf (runVerifyStoreInfo coveredWorld)))
  = [ELog (LCoverage (Js.Fin 100 2))].
Proof. by vm_compute. Qed.

(** * Reasoning about runs *)

Section RunEquations.
Context {L : Type}.
Implicit Types (l : L) (w : World).

Lemma emit_eq e l w : emit e l w = (Ok tt, l, noted e w).
Proof. reflexivity. Qed.

Lemma log_eq x l w : log x l w = (Ok tt, l, noted (ELog x) w).
Proof. reflexivity. Qed.

Lemma driver_eq {A} e (k : M L A) l w :
  driver e k l w =
  match nextFault w with
  | Some msg => (Throw (Js.DriverError msg), l, issued e w)
  | None => k l (issued e w)
  end.
Proof.
  unfold driver, nextFault, emit, nextTick, bind, getWorld, modifyWorld, ret, throw.
  cbn. destruct (fault (hd quiet (answers w))); reflexivity.
Qed.

Lemma findOne_eq f l w :
  findOne f l w =
  match nextFault w with
  | Some msg => (Throw (Js.DriverError msg), l, issued (EFindOne f) w)
  | None => (Ok (firstMatch f (store w)), l, issued (EFindOne f) w)
  end.
Proof. unfold findOne. rewrite driver_eq. reflexivity. Qed.

Lemma updateOne_eq f upd l w :
  updateOne f upd l w =
  match nextFault w with
  | Some msg => (Throw (Js.DriverError msg), l, issued (EUpdateOne f upd) w)
  | None => (Ok (applyUpdate f upd (store w)).2, l,
             withStore (applyUpdate f upd (store w)).1 (issued (EUpdateOne f upd) w))
  end.
Proof.
  unfold updateOne. rewrite driver_eq. destruct (nextFault w); [reflexivity|].
  unfold bind, getWorld, modifyWorld, ret. cbn.
  destruct (applyUpdate f upd (store w)); reflexivity.
Qed.

Lemma insertOne_eq d l w :
  insertOne d l w =
  match nextFault w with
  | Some msg => (Throw (Js.DriverError msg), l, issued (EInsertOne d) w)
  | None => (Ok tt, l, withStore (store w ++ [d]) (issued (EInsertOne d) w))
  end.
Proof. unfold insertOne. rewrite driver_eq. reflexivity. Qed.

Lemma countDocuments_eq f l w :
  countDocuments f l w =
  match nextFault w with
  | Some msg => (Throw (Js.DriverError msg), l, issued (ECountDocuments f) w)
  | None => (Ok (length (List.filter (matches f) (store w))), l,
             issued (ECountDocuments f) w)
  end.
Proof. unfold countDocuments. rewrite driver_eq. reflexivity. Qed.

Lemma findLimit_eq f n l w :
  findLimit f n l w =
  match nextFault w with
  | Some msg => (Throw (Js.DriverError msg), l, issued (EFind f n) w)
  | None => (Ok (take n (List.filter (matches f) (store w))), l,
             issued (EFind f n) w)
  end.
Proof. unfold findLimit. rewrite driver_eq. reflexivity. Qed.

Lemma connect_eq l w :
  connect l w =
  match nextFault w with
  | Some msg => (Throw (Js.DriverError msg), l, issued EConnect w)
  | None => (Ok tt, l, issued EConnect w)
  end.
Proof. unfold connect. rewrite driver_eq. reflexivity. Qed.

Lemma close_eq l w :
  close l w =
  match nextFault w with
  | Some msg => (Throw (Js.DriverError msg), l, issued EClose w)
  | None => (Ok tt, l, issued EClose w)
  end.
Proof. unfold close. rewrite driver_eq. reflexivity. Qed.

Lemma apiPost_eq email l w :
  apiPost email l w =
  match nextFault w with
  | Some msg => (Throw (Js.HttpError msg), l, issued (EApiPost email) w)
  | None => (Ok (VData (payload (hd quiet (answers w)))), l,
             issued (EApiPost email) w)
  end.
Proof.
  unfold apiPost, nextFault, emit, nextTick, bind, getWorld, modifyWorld, ret, throw.
  cbn. destruct (fault (hd quiet (answers w))); reflexivity.
Qed.

Lemma sleep_eq ms l w :
  sleep ms l w = (Ok tt, l, withClock (clock w + ms) (noted (ESleep ms) w)).
Proof. reflexivity. Qed.

Lemma newDate_eq l w : newDate l w = (Ok (VDate (clock w)), l, w).
Proof. reflexivity. Qed.

Lemma readCsv_eq l w :
  readCsv l w =
  match csvFile w with
  | Some rows => (Ok rows, l, noted EReadCsv w)
  | None => (Uncaught csvMissing, l, noted EReadCsv w)
  end.
Proof.
  unfold readCsv, emit, bind, getWorld, modifyWorld, ret, uncaught. cbn.
  destruct (csvFile w); reflexivity.
Qed.
Lemma closing_eq l w :
  closing l w =
  match nextFault w with
  | Some msg => (Throw (Js.DriverError msg), l, issued EClose w)
  | None => (Ok tt, l, noted (ELog LClosed) (issued EClose w))
  end.
Proof.
  unfold closing, bind. rewrite close_eq. destruct (nextFault w); [done|].
  by rewrite log_eq.
Qed.
End RunEquations.

#[global] Opaque findOne updateOne insertOne countDocuments findLimit connect
  close apiPost sleep newDate readCsv log emit driver closing.

(** Tactics: open the monad, replace each call by its equation, and split on
    what the environment answers. *)
Ltac js_open :=
  unfold bump, bind, tryCatch, tryFinally, ret, throw, uncaught, getLocals, setLocals,
    getWorld, modifyWorld, resultOf, localsOf, worldOf in *.

Ltac js_call :=
  first [ rewrite findOne_eq | rewrite updateOne_eq | rewrite insertOne_eq
        | rewrite countDocuments_eq | rewrite findLimit_eq | rewrite connect_eq
        | rewrite close_eq | rewrite apiPost_eq | rewrite sleep_eq
        | rewrite newDate_eq | rewrite readCsv_eq | rewrite log_eq
        | rewrite emit_eq | rewrite closing_eq ].

Ltac js_split :=
  match goal with
  | |- context [match nextFault ?w with _ => _ end] => destruct (nextFault w) eqn:?
  | |- context [match firstMatch ?f ?s with _ => _ end] => destruct (firstMatch f s) eqn:?
  | |- context [match csvFile ?w with _ => _ end] => destruct (csvFile w) eqn:?
  | |- context [if ?b then _ else _] => destruct b eqn:?
  end.

Ltac js_run := js_open; cbn; repeat (first [js_call | js_split]; cbn).

Ltac js_trace :=
  cbn; unfold lookupsOf, callsOf; rewrite ?omap_app, ?List.filter_app; cbn;
  rewrite ?app_nil_r, <- ?app_assoc; cbn.

(** ** Relations that every step of a computation respects *)

Section Respects.
Context {L : Type} (R : L * World → L * World → Prop).
Context {R_refl : Reflexive R} {R_trans : Transitive R}.

Lemma respects_ret {A} (a : A) : respects R (ret a).
Proof. intros l w. apply R_refl. Qed.

Lemma respects_throw {A} e : respects R (throw (A:=A) e).
Proof. intros l w. apply R_refl. Qed.

Lemma respects_getLocals : respects R getLocals.
Proof. intros l w. apply R_refl. Qed.

Lemma respects_getWorld : respects R getWorld.
Proof. intros l w. apply R_refl. Qed.

Lemma respects_bind {A B} (m : M L A) (k : A → M L B) :
  respects R m → (∀ a, respects R (k a)) → respects R (bind m k).
Proof.
  intros Hm Hk l w. specialize (Hm l w). unfold bind, localsOf, worldOf in *.
  destruct (m l w) as [[[a|e|e] l'] w']; cbn in *; [|done..].
  etrans; [exact Hm|]. apply (Hk a l' w').
Qed.

Lemma respects_tryCatch {A} (m : M L A) (h : Js.Exn → M L A) :
  respects R m → (∀ e, respects R (h e)) → respects R (tryCatch m h).
Proof.
  intros Hm Hh l w. specialize (Hm l w). unfold tryCatch, localsOf, worldOf in *.
  destruct (m l w) as [[[a|e|e] l'] w']; cbn in *; [done| |done].
  etrans; [exact Hm|]. apply (Hh e l' w').
Qed.

Lemma respects_tryFinally {A} (m : M L A) (f : M L unit) :
  respects R m → respects R f → respects R (tryFinally m f).
Proof.
  intros Hm Hf l w. specialize (Hm l w). unfold tryFinally, localsOf, worldOf in *.
  destruct (m l w) as [[r l'] w']; cbn in *.
  specialize (Hf l' w').
  destruct r as [a|e|e]; [| |done];
    destruct (f l' w') as [[[[]|e'|e'] l''] w'']; cbn in *; by etrans.
Qed.

Lemma respects_forEach {A} (body : nat → A → M L unit) xs :
  (∀ i x, respects R (body i x)) → ∀ i, respects R (forEach body i xs).
Proof.
  intros Hb. induction xs as [|x xs IH]; intros i; cbn.
  - apply respects_ret.
  - apply respects_bind; [apply Hb | intros _; apply IH].
Qed.

Lemma respects_if {A} (b : bool) (m1 m2 : M L A) :
  respects R m1 → respects R m2 → respects R (if b then m1 else m2).
Proof. by destruct b. Qed.

End Respects.

(** The calls that leave the collection alone respect [R] as soon as [R]
    lets their events be added to the trace. *)
Section RespectsCalls.
Context {L : Type} (R : L * World → L * World → Prop) (allowed : Event → Prop).
Context {R_refl : Reflexive R} {R_trans : Transitive R}.
Hypothesis R_noted : ∀ e l w, allowed e → R (l, w) (l, noted e w).
Hypothesis R_issued : ∀ e l w, allowed e → R (l, w) (l, issued e w).

Lemma respects_log x : allowed (ELog x) → respects R (log x).
Proof. intros H l w. rewrite log_eq. by apply R_noted. Qed.

Lemma respects_driver {A} e (k : M L A) :
  allowed e → respects R k → respects R (driver e k).
Proof.
  intros He Hk l w. rewrite driver_eq. destruct (nextFault w); cbn; [by apply R_issued|].
  etrans; [by apply R_issued|]. apply Hk.
Qed.

Lemma respects_connect : allowed EConnect → respects R connect.
Proof. intros H l w. rewrite connect_eq. destruct (nextFault w); by apply R_issued. Qed.

Lemma respects_close : allowed EClose → respects R close.
Proof. intros H l w. rewrite close_eq. destruct (nextFault w); by apply R_issued. Qed.

Lemma respects_readCsv : allowed EReadCsv → respects R readCsv.
Proof. intros H l w. rewrite readCsv_eq. destruct (csvFile w); by apply R_noted. Qed.

Lemma respects_findOne f : allowed (EFindOne f) → respects R (findOne f).
Proof. intros H l w. rewrite findOne_eq. destruct (nextFault w); by apply R_issued. Qed.

Lemma respects_countDocuments f :
  allowed (ECountDocuments f) → respects R (countDocuments f).
Proof.
  intros H l w. rewrite countDocuments_eq. destruct (nextFault w); by apply R_issued.
Qed.

Lemma respects_findLimit f n : allowed (EFind f n) → respects R (findLimit f n).
Proof.
  intros H l w. rewrite findLimit_eq. destruct (nextFault w); by apply R_issued.
Qed.

Lemma respects_newDate : respects R newDate.
Proof. intros l w. rewrite newDate_eq. apply R_refl. Qed.

(** The [finally] block of the three scripts. *)
Lemma respects_closing :
  allowed EClose → allowed (ELog LClosed) → respects R closing.
Proof.
  intros H1 H2 l w. rewrite closing_eq. destruct (nextFault w); cbn.
  - by apply R_issued.
  - etrans; [by apply (R_issued EClose)|]. by apply R_noted.
Qed.
End RespectsCalls.

Lemma newEvents_app w w' evs : trace w' = trace w ++ evs → newEvents w w' = evs.
Proof. intros H. unfold newEvents. rewrite H. apply drop_app_length. Qed.

(** * updateStoreInfo *)

(** ** The lookup of a row *)

Lemma truthy_normalizedEmail row email :
  Js.truthy (normalizedEmail row) = Some email ↔
  ∃ raw, row !! "customer_email" = Some raw
         ∧ email = Js.trim (Js.toLowerCase raw) ∧ email ≠ "".
Proof.
  unfold normalizedEmail. destruct (row !! "customer_email") as [raw|]; cbn.
  - destruct (Js.trim (Js.toLowerCase raw)) eqn:E; cbn.
    + split; [done|]. intros (raw' & [= <-] & -> & H). by rewrite E in H.
    + split.
      * intros [= <-]. exists raw. by rewrite E.
      * intros (raw' & [= <-] & -> & _). by rewrite E.
  - split; [done|]. by intros (raw & ? & _).
Qed.

(** What one iteration does for a row without a usable email. *)
Lemma updateRow_missing len row s w :
  Js.truthy (normalizedEmail row) = None →
  updateRow len row s w =
  (Ok tt, bumpErrors (bumpTotal s),
   noted (ELog (LMissingEmail (S (totalProcessed s)))) w).
Proof.
  intros He. unfold updateRow, updateRowBody. rewrite He. by js_run.
Qed.

(** What one iteration does for a row with a usable email, case by case on
    the answers of the environment and on the collection. *)
Lemma updateRow_cases len row s w email :
  Js.truthy (normalizedEmail row) = Some email →
  let out := updateRow len row s w in
  let find := EFindOne (byEmail email) in
  let w1 := issued find w in
  let upd := updateData (trimmedField "external_store_id" row)
                        (trimmedField "name" row) (VDate (clock w1)) in
  let update := EUpdateOne (byEmail email) upd in
  let failed msg := ELog (LRowError (S (totalProcessed s)) msg) in
  resultOf out = Ok tt ∧
  match nextFault w with
  | Some msg =>
      localsOf out = bumpErrors (bumpTotal s)
      ∧ store (worldOf out) = store w
      ∧ trace (worldOf out) = trace w ++ [find; failed msg]
  | None =>
      match firstMatch (byEmail email) (store w) with
      | None =>
          localsOf out = bumpNotFound (bumpTotal s)
          ∧ store (worldOf out) = store w
          ∧ trace (worldOf out) =
              trace w ++ find :: ELog (LNotFound email)
                      :: progressLines len (localsOf out)
      | Some _ =>
          match nextFault w1 with
          | Some msg =>
              localsOf out = bumpErrors (bumpTotal s)
              ∧ store (worldOf out) = store w
              ∧ trace (worldOf out) = trace w ++ [find; update; failed msg]
          | None =>
              let res := applyUpdate (byEmail email) upd (store w) in
              store (worldOf out) = res.1
              ∧ localsOf out =
                  (if (0 <? res.2)%nat then bumpUpdated (bumpTotal s) else bumpTotal s)
              ∧ trace (worldOf out) =
                  trace w ++ find :: update
                    :: ELog (if (0 <? res.2)%nat
                             then LUpdated email (trimmedField "external_store_id" row)
                                           (trimmedField "name" row)
                             else LNoChanges email)
                    :: progressLines len (localsOf out)
          end
      end
  end.
Proof.
  intros He. cbn zeta. unfold updateRow, updateRowBody, updateRowCatch, progress, progressLines.
  rewrite He.
  js_run; js_trace; try done;
    unfold nextFault in *; cbn in *; simplify_eq; done.
Qed.

Lemma lookupsOf_app tr tr' : lookupsOf (tr ++ tr') = lookupsOf tr ++ lookupsOf tr'.
Proof. apply omap_app. Qed.

Lemma lookupsOf_progressLines len s : lookupsOf (progressLines len s) = [].
Proof. unfold progressLines. by case_match. Qed.

(** C6. For every row of the update-variant: when [customer_email] is
    missing, or empty once lower-cased and trimmed, [errorRecords] is
    incremented ([totalProcessed] too, the two other counters are as they
    were) and the world only gains the log line: no call to storage is
    issued, no answer of the environment is consumed, the collection and
    the clock are as they were.  Otherwise the row first issues a [findOne]
    whose filter is [{email: e}] for [e] the lower-cased, trimmed email,
    and this is the only lookup of the row. *)
Theorem updateRow_one_lookup (len : nat) (row : Row) (s : Stats) (w : World) :
  let out := updateRow len row s w in
  let evs := newEvents w (worldOf out) in
  let skipped :=
    localsOf out = mkStats (S (totalProcessed s)) (updatedRecords s)
                           (notFoundRecords s) (S (errorRecords s))
    ∧ worldOf out = noted (ELog (LMissingEmail (S (totalProcessed s)))) w
    ∧ evs = [ELog (LMissingEmail (S (totalProcessed s)))]
    ∧ store (worldOf out) = store w
    ∧ answers (worldOf out) = answers w
    ∧ clock (worldOf out) = clock w in
  match row !! "customer_email" with
  | None => skipped
  | Some raw =>
      let email := Js.trim (Js.toLowerCase raw) in
      if decide (email = "")
      then skipped
      else lookupsOf evs = [FEq "email" email]
           ∧ ∃ rest, evs = EFindOne (FEq "email" email) :: rest
  end.
Proof.
  cbn zeta.
  assert (Hskipped : Js.truthy (normalizedEmail row) = None →
    localsOf (updateRow len row s w)
    = mkStats (S (totalProcessed s)) (updatedRecords s)
              (notFoundRecords s) (S (errorRecords s))
    ∧ worldOf (updateRow len row s w)
      = noted (ELog (LMissingEmail (S (totalProcessed s)))) w
    ∧ newEvents w (worldOf (updateRow len row s w))
      = [ELog (LMissingEmail (S (totalProcessed s)))]
    ∧ store (worldOf (updateRow len row s w)) = store w
    ∧ answers (worldOf (updateRow len row s w)) = answers w
    ∧ clock (worldOf (updateRow len row s w)) = clock w).
  { intros He. rewrite (updateRow_missing _ _ _ _ He).
    split; [done|]. split; [done|]. split; [by apply newEvents_app|done]. }
  destruct (row !! "customer_email") as [raw|] eqn:Hraw.
  - case_decide as Hemail.
    + apply Hskipped. unfold normalizedEmail. rewrite Hraw. cbn. by rewrite Hemail.
    + assert (He : Js.truthy (normalizedEmail row) = Some (Js.trim (Js.toLowerCase raw))).
      { apply truthy_normalizedEmail. by exists raw. }
      destruct (updateRow_cases len row s w _ He) as [_ H]. cbn zeta in H.
      repeat case_match; destruct H as (_ & _ & Htr);
        rewrite (newEvents_app _ _ _ Htr); cbn;
        (split; [|by eexists]);
        by rewrite ?(lookupsOf_app [_]), ?(lookupsOf_app [_; _]), ?lookupsOf_progressLines.
  - apply Hskipped. unfold normalizedEmail. by rewrite Hraw.
Qed.

Lemma updateRow_one_lookup_witness :
  (let out := updateRow 1 (csvRow "   " "S1" "Acme") zeroStats sampleWorld in
   localsOf out = mkStats 1 0 0 1
   ∧ newEvents sampleWorld (worldOf out) = [ELog (LMissingEmail 1)]
   ∧ answers (worldOf out) = answers sampleWorld)
  ∧ (let out := updateRow 1 (csvRow " A@X.com " "S1" "Acme") zeroStats sampleWorld in
     lookupsOf (newEvents sampleWorld (worldOf out)) = [FEq "email" "a@x.com"]).
Proof.
  split.
  - destruct (updateRow_one_lookup 1 (csvRow "   " "S1" "Acme") zeroStats sampleWorld)
      as (Hl & _ & Hevs & _ & Hans & _).
    exact (conj Hl (conj Hevs Hans)).
  - exact (proj1 (updateRow_one_lookup 1 (csvRow " A@X.com " "S1" "Acme")
                    zeroStats sampleWorld)).
Defined.

(** ** The whole script, unfolded up to the loop *)

Lemma updateStoreInfo_unfold s w :
  updateStoreInfo s w =
  match nextFault w with
  | Some msg =>
      tryFinally (log (LFatal (Js.DriverError msg))) closing s (issued EConnect w)
  | None =>
      let w2 := noted EReadCsv (noted (ELog LConnected) (issued EConnect w)) in
      match csvFile w with
      | None => (Uncaught csvMissing, zeroStats, w2)
      | Some rows =>
          tryFinally
            (tryCatch (updateLoop (length rows) rows;; updateSummary)
                      (λ error, log (LFatal error)))
            closing zeroStats (noted (ELog (LLoaded (length rows))) w2)
      end
  end.
Proof.
  unfold updateStoreInfo. js_open. rewrite connect_eq.
  destruct (nextFault w); cbn; [done|].
  rewrite log_eq. cbn. rewrite readCsv_eq. cbn.
  destruct (csvFile w); cbn; [|done].
  rewrite log_eq. done.
Qed.

(** ** The counters *)

#[local] Instance balanced_refl : Reflexive balanced.
Proof. intros [s w]. exists []. cbn. rewrite app_nil_r. split; [done|lia]. Qed.

Lemma unchangedRows_app tr tr' :
  unchangedRows (tr ++ tr') = (unchangedRows tr + unchangedRows tr')%nat.
Proof. unfold unchangedRows. by rewrite List.filter_app, length_app. Qed.

#[local] Instance balanced_trans : Transitive balanced.
Proof.
  intros [s1 w1] [s2 w2] [s3 w3] (evs & Htr & H) (evs' & Htr' & H'). cbn in *.
  exists (evs ++ evs'). cbn. rewrite Htr', Htr, app_assoc, unchangedRows_app.
  split; [done|lia].
Qed.

Lemma balanced_noted e (s : Stats) w : notNoChanges e → balanced (s, w) (s, noted e w).
Proof.
  intros He. exists [e]. cbn. split; [done|]. unfold unchangedRows. cbn.
  rewrite He. cbn. lia.
Qed.

Lemma balanced_issued e (s : Stats) w : notNoChanges e → balanced (s, w) (s, issued e w).
Proof.
  intros He. exists [e]. cbn. split; [done|]. unfold unchangedRows. cbn.
  rewrite He. cbn. lia.
Qed.

Lemma unchangedRows_progressLines len s : unchangedRows (progressLines len s) = O.
Proof. unfold progressLines. by case_match. Qed.

Lemma updateRow_balanced len row : respects balanced (updateRow len row).
Proof.
  intros s w. destruct (Js.truthy (normalizedEmail row)) as [email|] eqn:He.
  - destruct (updateRow_cases len row s w _ He) as [_ H]. cbn zeta in H.
    unfold balanced. cbn [fst snd].
    repeat case_match; destruct H as (Ha & Hb & Htr);
      eexists; (split; [exact Htr|]);
      rewrite ?Ha, ?Hb, ?(unchangedRows_app [_]), ?(unchangedRows_app [_; _]);
      change (?a :: ?b :: ?c :: ?l) with ([a; b; c] ++ l);
      change (?a :: ?b :: ?l) with ([a; b] ++ l);
      rewrite ?unchangedRows_app, ?unchangedRows_progressLines;
      unfold accounted, unchangedRows; cbn; lia.
  - rewrite (updateRow_missing _ _ _ _ He). eexists. split; [done|].
    unfold accounted, unchangedRows. cbn. lia.
Qed.

Lemma updateLoop_balanced len rows : respects balanced (updateLoop len rows).
Proof.
  induction rows as [|row rows IH]; cbn.
  - apply respects_ret. apply _.
  - apply respects_bind; [apply _| |done]. apply updateRow_balanced.
Qed.

(** A relation that the loop respects is respected by the whole script,
    provided it lets the script's other events (no write, no "no changes"
    line) be added to the trace. *)
Section UpdateScript.
Context (R : Stats * World → Stats * World → Prop) (allowed : Event → Prop).
Context {R_refl : Reflexive R} {R_trans : Transitive R}.
Hypothesis R_noted : ∀ e l w, allowed e → R (l, w) (l, noted e w).
Hypothesis R_issued : ∀ e l w, allowed e → R (l, w) (l, issued e w).
Hypothesis allowed_quiet : ∀ e, isWrite e = false → isNoChanges e = false → allowed e.
Hypothesis R_loop : ∀ len rows, respects R (updateLoop len rows).

Lemma respects_updateSummary : respects R updateSummary.
Proof.
  unfold updateSummary.
  apply respects_bind; [done..|apply respects_getLocals; done|]. intros s.
  apply respects_bind; [done..| |].
  { apply (respects_log R allowed); auto. }
  intros _. apply respects_bind; [done..| |].
  { apply (respects_findLimit R allowed); auto. }
  intros docs. apply respects_forEach; [done..|].
  intros i d. apply (respects_log R allowed); auto.
Qed.

Lemma respects_fatal e : respects R (log (LFatal e)).
Proof. apply (respects_log R allowed); auto. Qed.

Lemma respects_updateStoreInfo w :
  R (zeroStats, w) (localsOf (runUpdateStoreInfo w), worldOf (runUpdateStoreInfo w)).
Proof.
  unfold runUpdateStoreInfo. rewrite updateStoreInfo_unfold.
  assert (Hclosing : respects R closing).
  { apply (respects_closing R allowed); auto. }
  destruct (nextFault w).
  { etrans; [apply (R_issued EConnect); auto|].
    apply respects_tryFinally; [done..|apply respects_fatal|done]. }
  cbn zeta.
  etrans; [apply (R_issued EConnect); auto|].
  etrans; [apply (R_noted (ELog LConnected)); auto|].
  etrans; [apply (R_noted EReadCsv); auto|].
  destruct (csvFile w) as [rows|].
  - etrans; [apply (R_noted (ELog (LLoaded (length rows)))); auto|].
    apply respects_tryFinally; [done..| |done].
    apply respects_tryCatch; [done..| |apply respects_fatal].
    apply respects_bind; [done..|apply R_loop|].
    intros _. apply respects_updateSummary.
  - reflexivity.
Qed.
End UpdateScript.

(** C1 (as amended). At the end of every run of the update-variant, from
    every world, [totalProcessed] equals [updated + notFound + errors] plus
    the number of rows whose record was found and left unmodified by the
    update: the script prints "No changes needed" for them and counts them
    in none of the three counters. *)
Theorem updateStoreInfo_counters (w : World) :
  let out := runUpdateStoreInfo w in
  let st := localsOf out in
  totalProcessed st =
  (updatedRecords st + notFoundRecords st + errorRecords st
   + unchangedRows (newEvents w (worldOf out)))%nat.
Proof.
  cbn zeta.
  destruct (respects_updateStoreInfo balanced notNoChanges) with (w := w)
    as (evs & Htr & H); auto using balanced_noted, balanced_issued, updateLoop_balanced.
  cbn in Htr, H. rewrite (newEvents_app _ _ _ Htr).
  unfold accounted in H. cbn in H. lia.
Qed.

Lemma updateStoreInfo_counters_witness :
  let st := localsOf (runUpdateStoreInfo sampleWorld) in
  totalProcessed st = 1%nat ∧ updatedRecords st = 1%nat.
Proof.
  pose proof (updateStoreInfo_counters sampleWorld) as H. cbn zeta in H.
  split; [|by vm_compute]. rewrite H. by vm_compute.
Defined.

(** C1 (as claimed) fails: two rows for the same stored email, the second
    processed within the millisecond of the first, leave
    [totalProcessed = 2] and [updated + notFound + errors = 1]. *)
Lemma updateStoreInfo_counters_unbalanced :
  let st := localsOf (runUpdateStoreInfo twiceWorld) in
  totalProcessed st ≠ (updatedRecords st + notFoundRecords st + errorRecords st)%nat.
Proof. vm_compute. discriminate. Qed.

(** ** The partial update *)

Lemma truthy_Some o v : Js.truthy o = Some v ↔ o = Some v ∧ v ≠ "".
Proof.
  destruct o as [[|c r]|]; cbn.
  - split; [done|]. by intros [[= <-] ?].
  - split; [by intros [= <-]|]. by intros [[= <-] _].
  - split; [done|]. by intros [? _].
Qed.

Lemma truthy_trimmedField k row v :
  Js.truthy (trimmedField k row) = Some v ↔
  ∃ raw, row !! k = Some raw ∧ raw ≠ "" ∧ Js.trim raw ≠ "" ∧ v = Js.trim raw.
Proof.
  rewrite truthy_Some. unfold trimmedField. split.
  - intros [H Hv]. destruct (row !! k) as [raw|]; cbn in H; [|done].
    injection H as <-. exists raw. repeat split; try done. by intros ->.
  - intros (raw & -> & _ & Hne & ->). done.
Qed.

Lemma truthy_trimmedField_value k row v :
  VStr <$> Js.truthy (trimmedField k row) = Some v ↔
  ∃ raw, row !! k = Some raw ∧ raw ≠ "" ∧ Js.trim raw ≠ "" ∧ v = VStr (Js.trim raw).
Proof.
  split.
  - destruct (Js.truthy (trimmedField k row)) as [t|] eqn:E; cbn; [|done].
    intros [= <-]. apply truthy_trimmedField in E as (raw & ? & ? & ? & ->).
    by exists raw.
  - intros (raw & Hraw & Hne & Ht & ->).
    assert (E : Js.truthy (trimmedField k row) = Some (Js.trim raw)).
    { apply truthy_trimmedField. by exists raw. }
    by rewrite E.
Qed.

(** The fields of the partial-update document. *)
Lemma updateData_lookup sid name now k :
  updateData sid name now !! k =
  if decide (k = "store_info_updated_at") then Some now
  else if decide (k = "store_name") then VStr <$> Js.truthy name
  else if decide (k = "external_store_id") then VStr <$> Js.truthy sid
  else None.
Proof.
  unfold updateData.
  destruct (Js.truthy sid), (Js.truthy name); cbn;
    repeat case_decide; simplify_map_eq; done.
Qed.

(** [$set] on one document. *)
Lemma setFields_set upd d k v : upd !! k = Some v → setFields upd d !! k = Some v.
Proof. intros H. unfold setFields. by apply lookup_union_Some_l. Qed.

Lemma setFields_keep upd d k : upd !! k = None → setFields upd d !! k = d !! k.
Proof. intros H. unfold setFields. by apply lookup_union_r. Qed.

(** [updateOne] rewrites the document that [findOne] returns, in place. *)
Lemma applyUpdate_found f upd s d :
  firstMatch f s = Some d →
  ∃ pre post,
    s = pre ++ d :: post
    ∧ Forall (λ x, matches f x = false) pre
    ∧ (applyUpdate f upd s).1 = pre ++ setFields upd d :: post
    ∧ (applyUpdate f upd s).2 = (if decide (setFields upd d = d) then 0 else 1)%nat.
Proof.
  unfold firstMatch. induction s as [|x s IH]; cbn; [done|].
  destruct (matches f x) eqn:Hx.
  - intros [= ->]. by exists [], s.
  - intros H. destruct (IH H) as (pre & post & -> & Hpre & H1 & H2).
    destruct (applyUpdate f upd (pre ++ d :: post)) as [s' n]. cbn in *.
    exists (x :: pre), post. subst. repeat split; try done. by constructor.
Qed.

Lemma applyUpdate_missing f upd s :
  firstMatch f s = None → applyUpdate f upd s = (s, O).
Proof.
  unfold firstMatch. induction s as [|x s IH]; cbn; [done|].
  destruct (matches f x); [done|]. intros H. by rewrite (IH H).
Qed.

Lemma filter_isWrite_progressLines len s : List.filter isWrite (progressLines len s) = [].
Proof. unfold progressLines. by case_match. Qed.

(** C2. In the update-variant, for every row whose normalized email is
    found in the collection: the row issues one write, [updateOne] with
    [{email}] and a [$set] document that holds [external_store_id] exactly
    when the row's column is non-empty (after trimming; the value is the
    trimmed column), [store_name] exactly when the row's [name] is
    non-empty (likewise), always [store_info_updated_at] with the time read
    after the lookup, and no other field; when the write goes through, the
    first record with that email gets the fields of the document and keeps
    its other fields, and no other record changes. *)
Theorem updateRow_partial_update
    (len : nat) (row : Row) (s : Stats) (w : World) (email : string) (d : Doc) :
  Js.truthy (normalizedEmail row) = Some email →
  nextFault w = None →
  firstMatch (byEmail email) (store w) = Some d →
  let out := updateRow len row s w in
  let w1 := issued (EFindOne (byEmail email)) w in
  ∃ upd : Doc,
    List.filter isWrite (newEvents w (worldOf out)) = [EUpdateOne (byEmail email) upd]
    ∧ (∀ v, upd !! "external_store_id" = Some v ↔
            ∃ raw, row !! "external_store_id" = Some raw ∧ raw ≠ ""
                   ∧ Js.trim raw ≠ "" ∧ v = VStr (Js.trim raw))
    ∧ (∀ v, upd !! "store_name" = Some v ↔
            ∃ raw, row !! "name" = Some raw ∧ raw ≠ ""
                   ∧ Js.trim raw ≠ "" ∧ v = VStr (Js.trim raw))
    ∧ upd !! "store_info_updated_at" = Some (VDate (clock w1))
    ∧ (∀ k, k ≠ "external_store_id" → k ≠ "store_name" →
            k ≠ "store_info_updated_at" → upd !! k = None)
    ∧ match nextFault w1 with
      | Some _ => store (worldOf out) = store w
      | None =>
          ∃ pre post,
            store w = pre ++ d :: post
            ∧ Forall (λ x, matches (byEmail email) x = false) pre
            ∧ store (worldOf out) = pre ++ setFields upd d :: post
            ∧ (∀ k v, upd !! k = Some v → setFields upd d !! k = Some v)
            ∧ (∀ k, upd !! k = None → setFields upd d !! k = d !! k)
      end.
Proof.
  intros He Hfault Hfound. cbn zeta.
  destruct (updateRow_cases len row s w _ He) as [_ H]. cbn zeta in H.
  rewrite Hfault, Hfound in H.
  set (w1 := issued (EFindOne (byEmail email)) w) in *.
  set (upd := updateData _ _ _) in *.
  exists upd. split; [|split; [|split; [|split; [|split]]]].
  - destruct (nextFault w1); destruct H as (_ & _ & Htr);
      rewrite (newEvents_app _ _ _ Htr); cbn; [done|].
    by rewrite filter_isWrite_progressLines.
  - intros v. unfold upd. rewrite updateData_lookup. cbn.
    apply truthy_trimmedField_value.
  - intros v. unfold upd. rewrite updateData_lookup. cbn.
    apply truthy_trimmedField_value.
  - unfold upd. by rewrite updateData_lookup.
  - intros k H1 H2 H3. unfold upd. rewrite updateData_lookup.
    by repeat case_decide.
  - destruct (nextFault w1); [by destruct H as (_ & ? & _)|].
    destruct H as (Hst & _ & _).
    destruct (applyUpdate_found _ upd _ _ Hfound) as (pre & post & Hs & Hpre & Hres & _).
    exists pre, post. rewrite Hst, Hres.
    repeat split; auto using setFields_set, setFields_keep.
Qed.

Lemma updateRow_partial_update_witness :
  ∃ upd : Doc,
    List.filter isWrite
      (newEvents sampleWorld (worldOf (updateRow 1 partialUpdateRow zeroStats sampleWorld)))
    = [EUpdateOne (byEmail "a@x.com") upd]
    ∧ upd !! "external_store_id" = Some (VStr "S1")
    ∧ upd !! "store_name" = None
    ∧ upd !! "store_info_updated_at" = Some (VDate 1700000000000).
Proof.
  destruct (updateRow_partial_update 1 partialUpdateRow zeroStats sampleWorld
              "a@x.com" (emailOnly "a@x.com"))
    as (upd & Hw & Hid & Hname & Hat & _); [reflexivity..|].
  exists upd. split; [exact Hw|]. split; [|split; [|exact Hat]].
  - apply Hid. exists "S1". by vm_compute.
  - destruct (upd !! "store_name") as [v|] eqn:E; [|reflexivity].
    destruct (proj1 (Hname v) eq_refl) as (raw & Hraw & _ & Htrim & _).
    vm_compute in Hraw. injection Hraw as <-. by vm_compute in Htrim.
Defined.

(** ** No record is ever created *)

#[local] Instance untouched_refl : Reflexive untouched.
Proof. intros [s w]. split; [done|]. exists []. by rewrite app_nil_r. Qed.

#[local] Instance untouched_trans : Transitive untouched.
Proof.
  intros [s1 w1] [s2 w2] [s3 w3] (He & evs & Htr & H) (He' & evs' & Htr' & H').
  unfold untouched. cbn [fst snd] in *. split; [by rewrite He', He|].
  exists (evs ++ evs').
  by rewrite Htr', Htr, app_assoc, List.filter_app, H, H'.
Qed.

Lemma untouched_noted e (s s' : Stats) w : notInsert e → untouched (s, w) (s', noted e w).
Proof. intros He. split; [done|]. exists [e]. cbn. by rewrite He. Qed.

Lemma untouched_issued e (s s' : Stats) w : notInsert e → untouched (s, w) (s', issued e w).
Proof. intros He. split; [done|]. exists [e]. cbn. by rewrite He. Qed.

Lemma updateData_no_email sid name now : updateData sid name now !! "email" = None.
Proof. by rewrite updateData_lookup. Qed.

(** A [$set] without [email] leaves the emails of the collection alone. *)
Lemma applyUpdate_emails f upd s :
  upd !! "email" = None → docEmail <$> (applyUpdate f upd s).1 = docEmail <$> s.
Proof.
  intros Hupd. induction s as [|d s IH]; cbn; [done|].
  destruct (matches f d).
  - cbn. f_equal. unfold docEmail. by apply setFields_keep.
  - destruct (applyUpdate f upd s) as [s' n]. cbn in *. by rewrite IH.
Qed.

Lemma filter_isInsert_progressLines len s : List.filter isInsert (progressLines len s) = [].
Proof. unfold progressLines. by case_match. Qed.

Lemma updateRow_untouched len row : respects untouched (updateRow len row).
Proof.
  intros s w. destruct (Js.truthy (normalizedEmail row)) as [email|] eqn:He.
  - destruct (updateRow_cases len row s w _ He) as [_ H]. cbn zeta in H.
    unfold untouched. cbn [fst snd].
    repeat case_match; destruct H as (Ha & Hb & Htr);
      (split; [|eexists; split; [exact Htr|]; cbn;
                by rewrite ?filter_isInsert_progressLines]);
      rewrite ?Ha, ?Hb; try done.
    all: apply applyUpdate_emails, updateData_no_email.
  - rewrite (updateRow_missing _ _ _ _ He). by apply untouched_noted.
Qed.

Lemma updateLoop_untouched len rows : respects untouched (updateLoop len rows).
Proof.
  induction rows as [|row rows IH]; cbn.
  - apply respects_ret. apply _.
  - apply respects_bind; [apply _| |done]. apply updateRow_untouched.
Qed.

(** C3. The update-variant never creates a record.  For every row whose
    normalized email matches no stored record, the iteration leaves the
    collection as it is and issues no write ([updateOne] or [insertOne]),
    whatever the environment answers; when the lookup answers,
    [notFoundRecords] is incremented.  And a whole run, from every world,
    issues no [insertOne] and leaves the emails of the collection as they
    were, record by record. *)
Theorem updateStoreInfo_never_creates :
  (∀ (len : nat) (row : Row) (s : Stats) (w : World),
     (∀ email, Js.truthy (normalizedEmail row) = Some email →
               firstMatch (byEmail email) (store w) = None) →
     let out := updateRow len row s w in
     store (worldOf out) = store w
     ∧ List.filter isWrite (newEvents w (worldOf out)) = [])
  ∧ (∀ (len : nat) (row : Row) (s : Stats) (w : World) (email : string),
       Js.truthy (normalizedEmail row) = Some email →
       nextFault w = None →
       firstMatch (byEmail email) (store w) = None →
       localsOf (updateRow len row s w) = bumpNotFound (bumpTotal s))
  ∧ (∀ w : World,
       let out := runUpdateStoreInfo w in
       docEmail <$> store (worldOf out) = docEmail <$> store w
       ∧ List.filter isInsert (newEvents w (worldOf out)) = []).
Proof.
  split; [|split].
  - intros len row s w Hnone. cbn zeta.
    destruct (Js.truthy (normalizedEmail row)) as [email|] eqn:He.
    + destruct (updateRow_cases len row s w _ He) as [_ H]. cbn zeta in H.
      rewrite (Hnone _ eq_refl) in H.
      destruct (nextFault w); destruct H as (_ & Hst & Htr);
        (split; [done|]); rewrite (newEvents_app _ _ _ Htr); cbn; [done|].
      apply filter_isWrite_progressLines.
    + rewrite (updateRow_missing _ _ _ _ He). split; [done|].
      by rewrite (newEvents_app _ _ [ELog (LMissingEmail (S (totalProcessed s)))]).
  - intros len row s w email He Hfault Hnone.
    destruct (updateRow_cases len row s w _ He) as [_ H]. cbn zeta in H.
    rewrite Hfault, Hnone in H. by destruct H as (Ha & _ & _).
  - intros w. cbn zeta.
    destruct (respects_updateStoreInfo untouched notInsert) with (w := w)
      as (Hemails & evs & Htr & H);
      auto using untouched_noted, untouched_issued, updateLoop_untouched.
    { intros e Hw _. unfold notInsert. by destruct e. }
    cbn in Htr, Hemails. by rewrite (newEvents_app _ _ _ Htr).
Qed.

Lemma updateStoreInfo_never_creates_witness :
  let out := updateRow 1 (csvRow "b@x.com" "S2" "Bolt") zeroStats strangerWorld in
  notFoundRecords (localsOf out) = 1%nat
  ∧ store (worldOf out) = [emailOnly "a@x.com"]
  ∧ List.filter isWrite (newEvents strangerWorld (worldOf out)) = []
  ∧ docEmail <$> store (worldOf (runUpdateStoreInfo strangerWorld))
    = [Some (VStr "a@x.com")].
Proof.
  destruct updateStoreInfo_never_creates as (Hrow & Hcount & Hrun).
  destruct (Hrow 1%nat (csvRow "b@x.com" "S2" "Bolt") zeroStats strangerWorld)
    as (Hb & Hc); [by intros email [= <-]|].
  pose proof (Hcount 1%nat (csvRow "b@x.com" "S2" "Bolt") zeroStats strangerWorld
                "b@x.com" eq_refl eq_refl eq_refl) as Ha.
  destruct (Hrun strangerWorld) as [Hd _].
  cbn zeta. rewrite Ha, Hb, Hc, Hd. repeat split.
Defined.

(** * processEmails *)

(** What one iteration does, case by case on the row, on the answers of
    the environment and on the collection. *)
Lemma enrichRow_cases startRange endRange row idx w :
  let out := enrichRow startRange endRange row idx w in
  let failed msg := ELog (LEmailError (row !! "email") msg) in
  resultOf out = Ok tt ∧ localsOf out = idx + 1 ∧
  if inRange startRange endRange (idx + 1)
  then
    match row !! "customer_email" with
    | None => worldOf out = noted (failed (Js.message undefinedEmail)) w
    | Some raw =>
        let email := Js.toLowerCase raw in
        let w1 := issued (EFindOne (byEmail email)) w in
        let w2 := issued (EApiPost email) w1 in
        let doc := newRecord email (VData (payload (hd quiet (answers w1))))
                             (VDate (clock w2)) in
        let w3 := issued (EInsertOne doc) w2 in
        match nextFault w with
        | Some msg => worldOf out = noted (failed msg) w1
        | None =>
            match firstMatch (byEmail email) (store w) with
            | Some _ => worldOf out = noted (ELog (LSkipping email)) w1
            | None =>
                match nextFault w1 with
                | Some msg => worldOf out = noted (failed msg) w2
                | None =>
                    match nextFault w2 with
                    | Some msg => worldOf out = noted (failed msg) w3
                    | None =>
                        let w4 := noted (ELog (LProcessed (idx + 1) email))
                                        (withStore (store w ++ [doc]) w3) in
                        worldOf out = withClock (clock w4 + 1000) (noted (ESleep 1000) w4)
                    end
                end
            end
        end
    end
  else worldOf out = w.
Proof.
  cbn zeta. unfold enrichRow, enrichRowBody, enrichRowCatch, undefinedEmail.
  js_open. cbn.
  destruct (inRange startRange endRange (idx + 1)); cbn; [|done].
  destruct (row !! "customer_email") as [raw|]; cbn.
  - js_run; try done; unfold nextFault in *; cbn in *; simplify_eq; done.
  - js_run. done.
Qed.

Lemma rowsInRange_from startRange endRange position rows :
  startRange ≤ position →
  (rowsInRange startRange endRange position rows).*2
  = take (Z.to_nat (endRange - position + 1)) rows.
Proof.
  revert position. induction rows as [|row rows IH]; intros p Hp; cbn.
  - by rewrite take_nil.
  - rewrite fmap_app, IH by lia. unfold inRange.
    destruct (Z.leb_spec startRange p); [|lia].
    destruct (Z.leb_spec p endRange); cbn.
    + replace (Z.to_nat (endRange - p + 1)) with (S (Z.to_nat (endRange - (p + 1) + 1))) by lia.
      done.
    + replace (Z.to_nat (endRange - p + 1)) with O by lia.
      replace (Z.to_nat (endRange - (p + 1) + 1)) with O by lia.
      by rewrite take_0.
Qed.

(** With 1-based positions, the rows in range are the slice of the input
    from [startRange] to [endRange]. *)
Lemma rowsInRange_slice startRange endRange position rows :
  position ≤ startRange →
  (rowsInRange startRange endRange position rows).*2
  = take (Z.to_nat (endRange - startRange + 1))
         (drop (Z.to_nat (startRange - position)) rows).
Proof.
  revert position. induction rows as [|row rows IH]; intros p Hp.
  - cbn. by rewrite drop_nil, take_nil.
  - destruct (decide (p = startRange)) as [->|Hne].
    + rewrite Z.sub_diag. cbn [Z.to_nat drop].
      by rewrite rowsInRange_from.
    + cbn. unfold inRange. destruct (Z.leb_spec startRange p); [lia|]. cbn.
      rewrite IH by lia.
      replace (Z.to_nat (startRange - p)) with (S (Z.to_nat (startRange - (p + 1)))) by lia.
      done.
Qed.

Lemma rowsInRange_all endRange rows :
  Z.of_nat (length rows) ≤ endRange → (rowsInRange 1 endRange 1 rows).*2 = rows.
Proof.
  intros H. rewrite rowsInRange_from by lia. apply take_ge. lia.
Qed.

(** The events of one iteration: the lookup of the row when it is in range
    and has an email column, and never the line of the outer [catch]. *)
Lemma enrichRow_events startRange endRange row idx w :
  let out := enrichRow startRange endRange row idx w in
  ∃ evs,
    trace (worldOf out) = trace w ++ evs
    ∧ lookupsOf evs = omap rowLookup (if inRange startRange endRange (idx + 1)
                                     then [row] else [])
    ∧ List.filter isFatal evs = [].
Proof.
  cbn zeta. destruct (enrichRow_cases startRange endRange row idx w) as (_ & _ & H).
  cbn zeta in H. unfold rowLookup.
  destruct (inRange _ _ _); [|rewrite H; exists []; by rewrite app_nil_r].
  destruct (row !! "customer_email") as [raw|] eqn:Hraw;
    repeat case_match; rewrite H; cbn; rewrite <- ?app_assoc; cbn;
    eexists; (split; [reflexivity|]); by rewrite Hraw.
Qed.

Lemma enrichLoop_events startRange endRange rows idx w :
  let out := enrichLoop startRange endRange rows idx w in
  resultOf out = Ok tt
  ∧ localsOf out = idx + Z.of_nat (length rows)
  ∧ ∃ evs,
      trace (worldOf out) = trace w ++ evs
      ∧ lookupsOf evs
        = omap rowLookup (rowsInRange startRange endRange (idx + 1) rows).*2
      ∧ List.filter isFatal evs = [].
Proof.
  cbn zeta. revert idx w. induction rows as [|row rows IH]; intros idx w.
  - cbn. split; [done|]. split; [lia|]. exists []. by rewrite app_nil_r.
  - cbn [enrichLoop length rowsInRange]. unfold bind.
    assert (Hrow : ((if inRange startRange endRange (idx + 1)
                     then [(idx + 1, row)] else []) : list (Z * Row)).*2
                   = if inRange startRange endRange (idx + 1) then [row] else []).
    { by destruct (inRange _ _ _). }
    rewrite fmap_app, Hrow. clear Hrow.
    destruct (enrichRow_cases startRange endRange row idx w) as (Hr & Hl & _).
    destruct (enrichRow_events startRange endRange row idx w) as (evs & Htr & Hlk & Hf).
    cbn zeta in *. unfold resultOf, localsOf, worldOf in Hr, Hl, Htr.
    destruct (enrichRow startRange endRange row idx w) as [[r l'] w']. cbn in Hr, Hl, Htr.
    subst r l'.
    destruct (IH (idx + 1) w') as (Hr' & Hl' & evs' & Htr' & Hlk' & Hf').
    split; [done|]. split; [lia|].
    exists (evs ++ evs'). rewrite Htr', Htr, app_assoc.
    split; [done|]. rewrite lookupsOf_app, omap_app, List.filter_app, Hlk, Hlk', Hf, Hf'.
    done.
Qed.

Lemma processEmails_unfold startRange endRange idx w :
  processEmails startRange endRange idx w =
  match nextFault w with
  | Some msg =>
      tryFinally (log (LFatal (Js.DriverError msg))) closing idx (issued EConnect w)
  | None =>
      let w2 := noted EReadCsv (noted (ELog LConnected) (issued EConnect w)) in
      match csvFile w with
      | None => (Uncaught csvMissing, 0, w2)
      | Some rows =>
          tryFinally
            (tryCatch (enrichLoop startRange endRange rows) (λ error, log (LFatal error)))
            closing 0 w2
      end
  end.
Proof.
  unfold processEmails. js_open. rewrite connect_eq.
  destruct (nextFault w); cbn; [done|].
  rewrite log_eq. cbn. rewrite readCsv_eq. cbn.
  by destruct (csvFile w).
Qed.

(** A relation that the loop respects is respected by the whole script,
    provided it lets the script's other events (no call to the match API,
    no insert) be added to the trace. *)
Section ProcessScript.
Context (R : Z * World → Z * World → Prop) (allowed : Event → Prop).
Context {R_refl : Reflexive R} {R_trans : Transitive R}.
Hypothesis R_noted : ∀ e l l' w, allowed e → R (l, w) (l', noted e w).
Hypothesis R_issued : ∀ e l l' w, allowed e → R (l, w) (l', issued e w).
Hypothesis allowed_quiet : ∀ e, isApiPost e = false → isInsert e = false → allowed e.
Hypothesis R_loop : ∀ startRange endRange rows, respects R (enrichLoop startRange endRange rows).

Lemma respects_processEmails startRange endRange w :
  let out := runProcessEmails startRange endRange w in
  R (0, w) (localsOf out, worldOf out).
Proof.
  cbn zeta. unfold runProcessEmails. rewrite processEmails_unfold.
  assert (Hclosing : respects R closing).
  { apply (respects_closing R allowed); auto. }
  assert (Hfatal : ∀ e, respects R (log (LFatal e))).
  { intros e. apply (respects_log R allowed); auto. }
  destruct (nextFault w).
  { etrans; [apply (R_issued EConnect _ 0); auto|].
    apply respects_tryFinally; [done..|apply Hfatal|done]. }
  cbn zeta.
  etrans; [apply (R_issued EConnect _ 0); auto|].
  etrans; [apply (R_noted (ELog LConnected) _ 0); auto|].
  etrans; [apply (R_noted EReadCsv _ 0); auto|].
  destruct (csvFile w) as [rows|].
  - apply respects_tryFinally; [done..| |done].
    apply respects_tryCatch; [done..|apply R_loop|apply Hfatal].
  - reflexivity.
Qed.
End ProcessScript.

(** ** Skip if exists *)

Lemma firstMatch_app f s s' :
  is_Some (firstMatch f s) → is_Some (firstMatch f (s ++ s')).
Proof.
  unfold firstMatch. induction s as [|d s IH]; cbn; [by intros [? ?]|].
  by destruct (matches f d).
Qed.

(** The calls of one iteration to the match API: only for the email of the
    row, and only after a lookup that answered and found nothing. *)
Lemma enrichRow_calls startRange endRange row idx w :
  let out := enrichRow startRange endRange row idx w in
  ∃ evs,
    trace (worldOf out) = trace w ++ evs
    ∧ (∀ email, EApiPost email ∈ evs →
         rowLookup row = Some (byEmail email)
         ∧ nextFault w = None
         ∧ firstMatch (byEmail email) (store w) = None)
    ∧ ∃ docs, store (worldOf out) = store w ++ docs.
Proof.
  cbn zeta. destruct (enrichRow_cases startRange endRange row idx w) as (_ & _ & H).
  cbn zeta in H. unfold rowLookup.
  destruct (inRange _ _ _).
  2:{ rewrite H. exists []. rewrite app_nil_r. split; [done|].
      split; [by intros ? ?%elem_of_nil|]. exists []. by rewrite app_nil_r. }
  destruct (row !! "customer_email") as [raw|] eqn:Hraw;
    repeat case_match; rewrite H; cbn; rewrite <- ?app_assoc; cbn;
    eexists; (split; [reflexivity|]);
    (split; [|first [by exists []; rewrite app_nil_r | by eexists]]);
    intros email Hin; rewrite ?Hraw;
    repeat (apply elem_of_cons in Hin as [Hin|Hin]; [by simplify_eq|]);
    by apply elem_of_nil in Hin.
Qed.

#[local] Instance keptAway_refl email : Reflexive (keptAway email).
Proof.
  intros [i w] H. split; [done|]. exists []. rewrite app_nil_r.
  split; [done|]. apply not_elem_of_nil.
Qed.

#[local] Instance keptAway_trans email : Transitive (keptAway email).
Proof.
  intros [i1 w1] [i2 w2] [i3 w3] H12 H23 H1. cbn [fst snd] in *.
  destruct (H12 H1) as (H2 & evs & Htr & Hev).
  destruct (H23 H2) as (H3 & evs' & Htr' & Hev').
  cbn [fst snd] in *.
  split; [done|]. exists (evs ++ evs'). rewrite Htr', Htr, app_assoc.
  split; [done|]. rewrite elem_of_app. tauto.
Qed.

Lemma keptAway_noted email e (i i' : Z) w :
  e ≠ EApiPost email → keptAway email (i, w) (i', noted e w).
Proof.
  intros He H. split; [done|]. exists [e]. split; [done|].
  rewrite list_elem_of_singleton. congruence.
Qed.

Lemma keptAway_issued email e (i i' : Z) w :
  e ≠ EApiPost email → keptAway email (i, w) (i', issued e w).
Proof.
  intros He H. split; [done|]. exists [e]. split; [done|].
  rewrite list_elem_of_singleton. congruence.
Qed.

Lemma enrichRow_keptAway email startRange endRange row :
  respects (keptAway email) (enrichRow startRange endRange row).
Proof.
  intros idx w Hin. cbn [fst snd] in *.
  destruct (enrichRow_calls startRange endRange row idx w)
    as (evs & Htr & Hcalls & docs & Hst). cbn zeta in *.
  split.
  - rewrite Hst. by apply firstMatch_app.
  - exists evs. split; [done|]. intros Hev.
    destruct (Hcalls _ Hev) as (_ & _ & Hnone). rewrite Hnone in Hin.
    by destruct Hin.
Qed.

Lemma enrichLoop_keptAway email startRange endRange rows :
  respects (keptAway email) (enrichLoop startRange endRange rows).
Proof.
  induction rows as [|row rows IH]; cbn.
  - apply respects_ret. apply _.
  - apply respects_bind; [apply _| |done]. apply enrichRow_keptAway.
Qed.

(** C4. The enrichment-variant never calls the match API for an email that
    is in the collection when the row is looked up.  For every iteration,
    from every state: a call to the API is issued only for an email that
    the collection does not hold at that time; when the lookup of the row
    finds a record, the iteration makes no call and no insert and leaves
    the collection as it is.  And over a whole run, no call is ever made
    for an email that the collection held when the run started. *)
Theorem processEmails_skips_existing :
  (∀ (startRange endRange : Z) (row : Row) (idx : Z) (w : World) (email : string),
     let out := enrichRow startRange endRange row idx w in
     EApiPost email ∈ newEvents w (worldOf out) →
     firstMatch (byEmail email) (store w) = None)
  ∧ (∀ (startRange endRange : Z) (row : Row) (idx : Z) (w : World)
       (raw : string) (d : Doc),
       let out := enrichRow startRange endRange row idx w in
       row !! "customer_email" = Some raw →
       nextFault w = None →
       firstMatch (byEmail (Js.toLowerCase raw)) (store w) = Some d →
       resultOf out = Ok tt
       ∧ store (worldOf out) = store w
       ∧ List.filter (λ e, isApiPost e || isInsert e) (newEvents w (worldOf out)) = [])
  ∧ (∀ (startRange endRange : Z) (w : World) (email : string),
       let out := runProcessEmails startRange endRange w in
       is_Some (firstMatch (byEmail email) (store w)) →
       EApiPost email ∉ newEvents w (worldOf out)).
Proof.
  split; [|split].
  - intros startRange endRange row idx w email. cbn zeta.
    destruct (enrichRow_calls startRange endRange row idx w)
      as (evs & Htr & Hcalls & _). cbn zeta in *.
    rewrite (newEvents_app _ _ _ Htr). intros Hin. by apply Hcalls.
  - intros startRange endRange row idx w raw d. cbn zeta. intros Hraw Hfault Hfound.
    destruct (enrichRow_cases startRange endRange row idx w) as (Hr & _ & H).
    cbn zeta in H. rewrite Hraw, Hfault, Hfound in H.
    split; [done|].
    destruct (inRange _ _ _); rewrite H; [|by rewrite (newEvents_app _ _ [])
                                               by (by rewrite app_nil_r)].
    split; [done|]. erewrite newEvents_app; [|cbn; by rewrite <- app_assoc]. done.
  - intros startRange endRange w email. cbn zeta. intros Hin.
    destruct (respects_processEmails (keptAway email) (λ e, e ≠ EApiPost email))
      with (startRange := startRange) (endRange := endRange) (w := w)
      as (_ & evs & Htr & Hev);
      auto using keptAway_noted, keptAway_issued, enrichLoop_keptAway.
    { intros e He _ ->. done. }
    cbn in Htr. by rewrite (newEvents_app _ _ _ Htr).
Qed.

Lemma processEmails_skips_existing_witness :
  let out := enrichRow 1 400 (csvRow "A@X.com" "" "") 0 knownWorld in
  store (worldOf out) = [emailOnly "a@x.com"]
  ∧ List.filter (λ e, isApiPost e || isInsert e) (newEvents knownWorld (worldOf out)) = []
  ∧ EApiPost "a@x.com" ∉ newEvents knownWorld (worldOf (runProcessEmails 1 400 knownWorld)).
Proof.
  destruct processEmails_skips_existing as (_ & Hrow & Hrun).
  destruct (Hrow 1 400 (csvRow "A@X.com" "" "") 0 knownWorld "A@X.com" (emailOnly "a@x.com"))
    as (_ & Hst & Hev); [reflexivity..|].
  cbn zeta. rewrite Hst, Hev. repeat split.
  apply (Hrun 1 400 knownWorld "a@x.com"). by eexists.
Defined.

(** ** The index range *)

Lemma enrichRow_inside startRange endRange row idx w :
  inRange startRange endRange (idx + 1) = true →
  enrichRow startRange endRange row idx w
  = (Ok tt, idx + 1, processRowAt w (idx + 1, row)).
Proof.
  intros H.
  destruct (enrichRow_cases startRange endRange row idx w) as (Hr & Hl & _).
  cbn zeta in *. unfold processRowAt. cbn [fst snd].
  assert (Hw : worldOf (enrichRow startRange endRange row idx w)
               = worldOf (tryCatch (enrichRowBody row) (enrichRowCatch row) (idx + 1) w)).
  { unfold enrichRow. js_open. cbn. by rewrite H. }
  rewrite <- Hw. unfold resultOf, localsOf, worldOf in *.
  destruct (enrichRow startRange endRange row idx w) as [[r l'] w']. cbn in *.
  by subst.
Qed.

Lemma enrichRow_outside startRange endRange row idx w :
  inRange startRange endRange (idx + 1) = false →
  enrichRow startRange endRange row idx w = (Ok tt, idx + 1, w).
Proof.
  intros H. unfold enrichRow. js_open. cbn. by rewrite H.
Qed.

Lemma enrichLoop_world startRange endRange rows idx w :
  worldOf (enrichLoop startRange endRange rows idx w)
  = processEach (rowsInRange startRange endRange (idx + 1) rows) w.
Proof.
  revert idx w. induction rows as [|row rows IH]; intros idx w; [done|].
  cbn [enrichLoop rowsInRange]. unfold bind, processEach. rewrite foldl_app.
  destruct (inRange startRange endRange (idx + 1)) eqn:Hin.
  - rewrite enrichRow_inside by done. cbn [foldl]. apply IH.
  - rewrite enrichRow_outside by done. cbn [foldl]. apply IH.
Qed.

(** A run that connects and reads the CSV visits every row and looks up
    those in range. *)
Lemma processEmails_completes startRange endRange w rows :
  nextFault w = None →
  csvFile w = Some rows →
  let out := runProcessEmails startRange endRange w in
  lookupsOf (newEvents w (worldOf out))
  = omap rowLookup (rowsInRange startRange endRange 1 rows).*2
  ∧ List.filter isFatal (newEvents w (worldOf out)) = []
  ∧ localsOf out = Z.of_nat (length rows).
Proof.
  intros Hfault Hcsv. cbn zeta.
  unfold runProcessEmails. rewrite processEmails_unfold, Hfault, Hcsv. cbn zeta.
  set (w2 := noted EReadCsv _).
  destruct (enrichLoop_events startRange endRange rows 0 w2)
    as (Hr & Hl & evs & Htr & Hlk & Hf). cbn zeta in *.
  unfold tryFinally, tryCatch, resultOf, localsOf, worldOf in *.
  destruct (enrichLoop startRange endRange rows 0 w2) as [[r l'] w'].
  cbn in Hr, Hl, Htr. subst r l'. rewrite closing_eq.
  assert (Hw' : trace w' = trace w ++ [EConnect; ELog LConnected; EReadCsv] ++ evs).
  { rewrite Htr. unfold w2. cbn. by rewrite <- !app_assoc. }
  destruct (nextFault w'); cbn [fst snd].
  + erewrite newEvents_app; [|cbn; rewrite Hw', <- app_assoc; reflexivity].
    rewrite !lookupsOf_app, !List.filter_app, Hlk, Hf. cbn.
    by rewrite app_nil_r.
  + erewrite newEvents_app; [|cbn; rewrite Hw', <- !app_assoc; reflexivity].
    rewrite !lookupsOf_app, !List.filter_app, Hlk, Hf. cbn.
    by rewrite app_nil_r.
Qed.

(** C5. The enrichment-variant processes exactly the rows whose 1-based
    position lies in [[startRange, endRange]].  An iteration for a position
    outside the range only advances [currentIndex]: the world is left as it
    is (no lookup, no call, no insert, no output).  A run that connects and
    reads the CSV issues exactly the lookups of the rows in range, one per
    row that has an email column, in order; it visits every row and raises
    no error to the outer [catch], also when [endRange] exceeds the number
    of rows.  The loop leaves the world as processing the rows in range,
    once each and in order, leaves it.  The rows in range are the slice of
    the input from position [startRange] to position [endRange], and all
    the rows when [startRange = 1] and [endRange] is at least their
    number. *)
Theorem processEmails_range :
  (∀ (startRange endRange : Z) (row : Row) (idx : Z) (w : World),
     inRange startRange endRange (idx + 1) = false →
     enrichRow startRange endRange row idx w = (Ok tt, idx + 1, w))
  ∧ (∀ (startRange endRange : Z) (w : World) (rows : list Row),
       nextFault w = None →
       csvFile w = Some rows →
       let out := runProcessEmails startRange endRange w in
       lookupsOf (newEvents w (worldOf out))
       = omap rowLookup (rowsInRange startRange endRange 1 rows).*2
       ∧ List.filter isFatal (newEvents w (worldOf out)) = []
       ∧ localsOf out = Z.of_nat (length rows))
  ∧ (∀ (startRange endRange : Z) (rows : list Row) (idx : Z) (w : World),
       worldOf (enrichLoop startRange endRange rows idx w)
       = processEach (rowsInRange startRange endRange (idx + 1) rows) w)
  ∧ (∀ (startRange endRange : Z) (rows : list Row),
       1 ≤ startRange →
       (rowsInRange startRange endRange 1 rows).*2
       = take (Z.to_nat (endRange - startRange + 1))
              (drop (Z.to_nat (startRange - 1)) rows))
  ∧ (∀ (endRange : Z) (rows : list Row),
       Z.of_nat (length rows) ≤ endRange →
       (rowsInRange 1 endRange 1 rows).*2 = rows).
Proof.
  split; [|split; [|split; [|split]]].
  - apply enrichRow_outside.
  - apply processEmails_completes.
  - apply enrichLoop_world.
  - intros startRange endRange rows H. by apply rowsInRange_slice.
  - apply rowsInRange_all.
Qed.

(** The scenario of the spec: [processEmails(1, 400)] on ten rows. *)
Lemma processEmails_range_witness :
  let out := runProcessEmails 1 400 tenWorld in
  lookupsOf (newEvents tenWorld (worldOf out)) = omap rowLookup tenRows
  ∧ List.filter isFatal (newEvents tenWorld (worldOf out)) = []
  ∧ localsOf out = 10
  ∧ enrichRow 1 5 (csvRow "f@x.com" "" "") 5 tenWorld = (Ok tt, 6, tenWorld).
Proof.
  destruct processEmails_range as (Hout & Hrun & _ & _ & Hall).
  destruct (Hrun 1 400 tenWorld tenRows) as (Hlk & Hf & Hl); [reflexivity..|].
  cbn zeta. rewrite Hlk, Hf, Hl, (Hall 400 tenRows) by (vm_compute; discriminate).
  rewrite (Hout 1 5) by reflexivity. repeat split.
Defined.

(** ** A row without [customer_email] *)

(** C10. In the enrichment-variant, for every row in range whose
    [customer_email] is absent: lower-casing it throws, the handler of the
    row catches the error, the iteration only prints the error line (no
    lookup, no call to the match API, no insert: the rest of the world is
    as it was) and the loop goes on with the next row. *)
Theorem enrichRow_without_email
    (startRange endRange : Z) (row : Row) (rest : list Row) (idx : Z) (w : World) :
  row !! "customer_email" = None →
  inRange startRange endRange (idx + 1) = true →
  let w' := noted (ELog (LEmailError (row !! "email") (Js.message undefinedEmail))) w in
  enrichRowBody row (idx + 1) w = (Throw undefinedEmail, idx + 1, w)
  ∧ enrichRow startRange endRange row idx w = (Ok tt, idx + 1, w')
  ∧ enrichLoop startRange endRange (row :: rest) idx w
    = enrichLoop startRange endRange rest (idx + 1) w'.
Proof.
  intros Hraw Hin. cbn zeta.
  assert (Hbody : enrichRowBody row (idx + 1) w = (Throw undefinedEmail, idx + 1, w)).
  { unfold enrichRowBody. by rewrite Hraw. }
  assert (Hrow : enrichRow startRange endRange row idx w
                 = (Ok tt, idx + 1,
                    noted (ELog (LEmailError (row !! "email") (Js.message undefinedEmail))) w)).
  { unfold enrichRow. js_open. cbn. rewrite Hin. cbn. rewrite Hbody.
    unfold enrichRowCatch. by rewrite log_eq. }
  split; [done|]. split; [done|].
  cbn [enrichLoop]. unfold bind. by rewrite Hrow.
Qed.

Lemma enrichRow_without_email_witness :
  enrichRow 1 400 noEmailRow 0 tenWorld
  = (Ok tt, 1,
     noted (ELog (LEmailError None (Js.message undefinedEmail))) tenWorld).
Proof.
  apply (enrichRow_without_email 1 400 noEmailRow [] 0 tenWorld); reflexivity.
Defined.

(** * Errors *)

Lemma forEach_log {L A} (f : nat → A → Line) i xs (l : L) w :
  forEach (λ i x, log (f i x)) i xs l w
  = (Ok tt, l, withTrace (trace w ++ logLines f i xs) w).
Proof.
  revert i w. induction xs as [|x xs IH]; intros i w; cbn.
  - unfold ret. rewrite app_nil_r. by destruct w.
  - unfold bind. rewrite log_eq, IH. cbn. by rewrite <- app_assoc.
Qed.

(** The summary is printed before the sample is fetched; the counters are
    not touched. *)
Lemma updateSummary_eq s w :
  ∃ evs, localsOf (updateSummary s w) = s
         ∧ trace (worldOf (updateSummary s w)) = trace w ++ summaryLine s :: evs.
Proof.
  unfold updateSummary, summaryLine. js_open. cbn. rewrite log_eq. cbn.
  rewrite findLimit_eq. destruct (nextFault _); cbn.
  - eexists. split; [done|]. by rewrite <- app_assoc.
  - rewrite forEach_log. cbn. eexists. split; [done|].
    by rewrite <- !app_assoc.
Qed.

Lemma updateRow_ok len row s w :
  let out := updateRow len row s w in
  resultOf out = Ok tt ∧ totalProcessed (localsOf out) = S (totalProcessed s).
Proof.
  cbn zeta. destruct (Js.truthy (normalizedEmail row)) as [email|] eqn:He.
  - destruct (updateRow_cases len row s w _ He) as [Hr H]. cbn zeta in H.
    split; [done|].
    repeat case_match; destruct H as (Ha & Hb & _); rewrite ?Ha, ?Hb; done.
  - by rewrite (updateRow_missing _ _ _ _ He).
Qed.

Lemma updateLoop_ok len rows s w :
  let out := updateLoop len rows s w in
  resultOf out = Ok tt
  ∧ totalProcessed (localsOf out) = (totalProcessed s + length rows)%nat.
Proof.
  cbn zeta. revert s w. induction rows as [|row rows IH]; intros s w.
  - cbn. split; [done|lia].
  - cbn [updateLoop length]. unfold bind.
    destruct (updateRow_ok len row s w) as [Hr Ht]. cbn zeta in *.
    unfold resultOf, localsOf in Hr, Ht.
    destruct (updateRow len row s w) as [[r s'] w']. cbn in Hr, Ht. subst r.
    destruct (IH s' w') as [Hr' Ht']. split; [done|]. rewrite Ht'. lia.
Qed.

(** When the body of a row throws, the counters are as the body found
    them. *)
Lemma updateRowBody_throws len row s w e s' w' :
  updateRowBody len row s w = (Throw e, s', w') → s' = s.
Proof.
  unfold updateRowBody, progress.
  destruct (Js.truthy (normalizedEmail row)); js_run; intros [= ? ? ?]; by subst.
Qed.

Lemma updateRow_caught len row s w e s' w' :
  updateRowBody len row (bumpTotal s) w = (Throw e, s', w') →
  updateRow len row s w
  = (Ok tt, bumpErrors (bumpTotal s),
     noted (ELog (LRowError (S (totalProcessed s)) (Js.message e))) w').
Proof.
  intros Hbody. pose proof (updateRowBody_throws _ _ _ _ _ _ _ Hbody) as ->.
  unfold updateRow, updateRowCatch. js_open. cbn. rewrite Hbody.
  by rewrite log_eq.
Qed.

Lemma enrichRow_caught startRange endRange row idx w e idx' w' :
  inRange startRange endRange (idx + 1) = true →
  enrichRowBody row (idx + 1) w = (Throw e, idx', w') →
  enrichRow startRange endRange row idx w
  = (Ok tt, idx', noted (ELog (LEmailError (row !! "email") (Js.message e))) w').
Proof.
  intros Hin Hbody. unfold enrichRow, enrichRowCatch. js_open. cbn.
  rewrite Hin. cbn. rewrite Hbody. by rewrite log_eq.
Qed.

(** A run that cannot connect looks up nothing, reads nothing and reports
    the error from the outer [catch], before the [finally] block closes the
    client. *)
Lemma updateStoreInfo_aborted w msg :
  nextFault w = Some msg →
  let out := runUpdateStoreInfo w in
  localsOf out = zeroStats
  ∧ callsOf (newEvents w (worldOf out)) = [EConnect; EClose]
  ∧ ELog (LFatal (Js.DriverError msg)) ∈ newEvents w (worldOf out).
Proof.
  intros Hf. cbn zeta. unfold runUpdateStoreInfo. rewrite updateStoreInfo_unfold, Hf.
  unfold tryFinally, localsOf, worldOf. rewrite log_eq, closing_eq.
  js_split; cbn [fst snd];
    (split; [done|]);
    (erewrite newEvents_app; [|cbn; rewrite <- ?app_assoc; reflexivity]);
    (split; [done|]);
    repeat first [apply list_elem_of_here | apply list_elem_of_further].
Qed.

Lemma processEmails_aborted startRange endRange w msg :
  nextFault w = Some msg →
  let out := runProcessEmails startRange endRange w in
  localsOf out = 0
  ∧ callsOf (newEvents w (worldOf out)) = [EConnect; EClose]
  ∧ ELog (LFatal (Js.DriverError msg)) ∈ newEvents w (worldOf out).
Proof.
  intros Hf. cbn zeta. unfold runProcessEmails. rewrite processEmails_unfold, Hf.
  unfold tryFinally, localsOf, worldOf. rewrite log_eq, closing_eq.
  js_split; cbn [fst snd];
    (split; [done|]);
    (erewrite newEvents_app; [|cbn; rewrite <- ?app_assoc; reflexivity]);
    (split; [done|]);
    repeat first [apply list_elem_of_here | apply list_elem_of_further].
Qed.

(** A run that connects and cannot read the CSV ends there: the error of
    the read stream reaches no [catch], no row is processed, nothing is
    logged and the client is not closed. *)
Lemma updateStoreInfo_unreadable w :
  nextFault w = None →
  csvFile w = None →
  let out := runUpdateStoreInfo w in
  resultOf out = Uncaught csvMissing
  ∧ localsOf out = zeroStats
  ∧ newEvents w (worldOf out) = [EConnect; ELog LConnected; EReadCsv].
Proof.
  intros Hf Hcsv. cbn zeta. unfold runUpdateStoreInfo.
  rewrite updateStoreInfo_unfold, Hf, Hcsv. cbn zeta.
  split; [done|]. split; [done|].
  apply newEvents_app. cbn. by rewrite <- !app_assoc.
Qed.

Lemma processEmails_unreadable startRange endRange w :
  nextFault w = None →
  csvFile w = None →
  let out := runProcessEmails startRange endRange w in
  resultOf out = Uncaught csvMissing
  ∧ localsOf out = 0
  ∧ newEvents w (worldOf out) = [EConnect; ELog LConnected; EReadCsv].
Proof.
  intros Hf Hcsv. cbn zeta. unfold runProcessEmails.
  rewrite processEmails_unfold, Hf, Hcsv. cbn zeta.
  split; [done|]. split; [done|].
  apply newEvents_app. cbn. by rewrite <- !app_assoc.
Qed.

(** A run that connects and reads the CSV goes through every row and prints
    the summary, whatever happens to the rows. *)
Lemma updateStoreInfo_completes w rows :
  nextFault w = None →
  csvFile w = Some rows →
  let out := runUpdateStoreInfo w in
  totalProcessed (localsOf out) = length rows
  ∧ summaryLine (localsOf out) ∈ newEvents w (worldOf out).
Proof.
  intros Hf Hcsv. cbn zeta. unfold runUpdateStoreInfo.
  rewrite updateStoreInfo_unfold, Hf, Hcsv. cbn zeta.
  set (w3 := noted (ELog (LLoaded _)) _).
  destruct (updateLoop_ok (length rows) rows zeroStats w3) as [Hr Ht].
  destruct (updateLoop_balanced (length rows) rows zeroStats w3) as (evs & Htr & _).
  cbn zeta in *. unfold tryFinally, tryCatch, bind, resultOf, localsOf, worldOf in *.
  destruct (updateLoop (length rows) rows zeroStats w3) as [[r st] w'].
  cbn in Hr, Ht, Htr. subst r.
  destruct (updateSummary_eq st w') as (evs' & Hst & Htr').
  unfold localsOf, worldOf in Hst, Htr'.
  destruct (updateSummary st w') as [[r2 st2] w2]. cbn in Hst, Htr'. subst st2.
  assert (Hw2 : trace w2 = trace w ++ ([EConnect; ELog LConnected; EReadCsv;
                                        ELog (LLoaded (length rows))] ++ evs)
                                   ++ summaryLine st :: evs').
  { rewrite Htr', Htr. unfold w3. cbn. by rewrite <- !app_assoc. }
  destruct r2 as [[]|e|e]; rewrite ?log_eq, ?closing_eq; try js_split;
    cbn [fst snd]; (split; [done|]);
    (erewrite newEvents_app; [|cbn; rewrite Hw2, <- ?app_assoc; reflexivity]);
    repeat first [apply list_elem_of_here | apply list_elem_of_further
                 | rewrite elem_of_app; right].
Qed.

(** C7. In both variants every error raised while a row is processed is
    caught by the handler of the row.  The loops never throw and visit every
    row ([totalProcessed], respectively [currentIndex], advances by the
    number of rows); when the body of a row throws, the iteration returns
    normally, and in the update-variant [errorRecords] is incremented.  A
    run that connects and reads the CSV therefore goes through all the rows
    whatever the environment answers afterwards (the update-variant prints
    its summary, the enrichment-variant never reaches the outer [catch]).
    Only the errors of the connection and of the CSV abort the job: a run
    that cannot connect processes no row and reports the error from the
    outer [catch] before it closes the client; a run that cannot read the
    CSV processes no row either and ends with the error of the read
    stream, which no [catch] of the script sees (nothing is logged and the
    client is not closed). *)
Theorem row_errors_are_caught :
  (∀ (len : nat) (rows : list Row) (s : Stats) (w : World),
     let out := updateLoop len rows s w in
     resultOf out = Ok tt
     ∧ totalProcessed (localsOf out) = (totalProcessed s + length rows)%nat)
  ∧ (∀ (len : nat) (row : Row) (s : Stats) (w : World) (e : Js.Exn) (s' : Stats) (w' : World),
       updateRowBody len row (bumpTotal s) w = (Throw e, s', w') →
       let out := updateRow len row s w in
       resultOf out = Ok tt
       ∧ errorRecords (localsOf out) = S (errorRecords s)
       ∧ worldOf out = noted (ELog (LRowError (S (totalProcessed s)) (Js.message e))) w')
  ∧ (∀ (startRange endRange : Z) (rows : list Row) (idx : Z) (w : World),
       let out := enrichLoop startRange endRange rows idx w in
       resultOf out = Ok tt ∧ localsOf out = idx + Z.of_nat (length rows))
  ∧ (∀ (startRange endRange : Z) (row : Row) (idx : Z) (w : World)
       (e : Js.Exn) (idx' : Z) (w' : World),
       inRange startRange endRange (idx + 1) = true →
       enrichRowBody row (idx + 1) w = (Throw e, idx', w') →
       let out := enrichRow startRange endRange row idx w in
       resultOf out = Ok tt
       ∧ worldOf out = noted (ELog (LEmailError (row !! "email") (Js.message e))) w')
  ∧ (∀ (w : World) (rows : list Row),
       nextFault w = None →
       csvFile w = Some rows →
       let out := runUpdateStoreInfo w in
       totalProcessed (localsOf out) = length rows
       ∧ summaryLine (localsOf out) ∈ newEvents w (worldOf out))
  ∧ (∀ (startRange endRange : Z) (w : World) (rows : list Row),
       nextFault w = None →
       csvFile w = Some rows →
       let out := runProcessEmails startRange endRange w in
       localsOf out = Z.of_nat (length rows)
       ∧ List.filter isFatal (newEvents w (worldOf out)) = [])
  ∧ (∀ (startRange endRange : Z) (w : World) (msg : string),
       nextFault w = Some msg →
       let outU := runUpdateStoreInfo w in
       let outE := runProcessEmails startRange endRange w in
       (localsOf outU = zeroStats
        ∧ callsOf (newEvents w (worldOf outU)) = [EConnect; EClose]
        ∧ ELog (LFatal (Js.DriverError msg)) ∈ newEvents w (worldOf outU))
       ∧ (localsOf outE = 0
          ∧ callsOf (newEvents w (worldOf outE)) = [EConnect; EClose]
          ∧ ELog (LFatal (Js.DriverError msg)) ∈ newEvents w (worldOf outE)))
  ∧ (∀ (startRange endRange : Z) (w : World),
       nextFault w = None →
       csvFile w = None →
       let outU := runUpdateStoreInfo w in
       let outE := runProcessEmails startRange endRange w in
       (resultOf outU = Uncaught csvMissing
        ∧ localsOf outU = zeroStats
        ∧ newEvents w (worldOf outU) = [EConnect; ELog LConnected; EReadCsv])
       ∧ (resultOf outE = Uncaught csvMissing
          ∧ localsOf outE = 0
          ∧ newEvents w (worldOf outE) = [EConnect; ELog LConnected; EReadCsv])).
Proof.
  repeat apply conj.
  - apply updateLoop_ok.
  - intros len row s w e s' w' Hbody. cbn zeta.
    by rewrite (updateRow_caught _ _ _ _ _ _ _ Hbody).
  - intros startRange endRange rows idx w.
    destruct (enrichLoop_events startRange endRange rows idx w) as (? & ? & _).
    done.
  - intros startRange endRange row idx w e idx' w' Hin Hbody. cbn zeta.
    by rewrite (enrichRow_caught _ _ _ _ _ _ _ _ Hin Hbody).
  - apply updateStoreInfo_completes.
  - intros startRange endRange w rows Hf Hcsv.
    destruct (processEmails_completes startRange endRange w rows Hf Hcsv) as (_ & ? & ?).
    done.
  - intros startRange endRange w msg Hf. split.
    + by apply updateStoreInfo_aborted.
    + by apply processEmails_aborted.
  - intros startRange endRange w Hf Hcsv. split.
    + by apply updateStoreInfo_unreadable.
    + by apply processEmails_unreadable.
Qed.

Lemma row_errors_are_caught_witness :
  let out := runUpdateStoreInfo faultyWorld in
  localsOf out = mkStats 3 0 2 1
  ∧ errorRecords
      (localsOf (updateRow 3 (csvRow "b@x.com" "S1" "Acme") zeroStats
                   (withAnswers [failing "connection reset"] faultyWorld))) = 1%nat
  ∧ localsOf (runProcessEmails 1 400 faultyWorld) = 3
  ∧ resultOf (runUpdateStoreInfo emptyWorld) = Uncaught csvMissing
  ∧ newEvents emptyWorld (worldOf (runProcessEmails 1 400 emptyWorld))
    = [EConnect; ELog LConnected; EReadCsv].
Proof.
  destruct row_errors_are_caught as (_ & Hrow & _ & _ & HrunU & HrunE & _ & Hcsv).
  destruct (Hcsv 1 400 emptyWorld eq_refl eq_refl) as [(HresU & _) (_ & _ & HevsE)].
  destruct (HrunU faultyWorld _ eq_refl eq_refl) as [Htotal _].
  destruct (HrunE 1 400 faultyWorld _ eq_refl eq_refl) as [Hidx _].
  destruct (Hrow 3%nat (csvRow "b@x.com" "S1" "Acme") zeroStats
              (withAnswers [failing "connection reset"] faultyWorld)
              (Js.DriverError "connection reset") (bumpTotal zeroStats)
              (issued (EFindOne (byEmail "b@x.com"))
                      (withAnswers [failing "connection reset"] faultyWorld)))
    as (_ & Herr & _); [by vm_compute|].
  cbn zeta. rewrite Herr, Hidx, HresU, HevsE. split; [|done]. by vm_compute.
Defined.

(** * The delay between calls to the match API *)

(** The delay is the last statement of the [try]: it is reached when the
    call and the insert both succeed. *)
Lemma enrichRow_delay startRange endRange row idx w raw :
  let email := Js.toLowerCase raw in
  let w1 := issued (EFindOne (byEmail email)) w in
  let w2 := issued (EApiPost email) w1 in
  inRange startRange endRange (idx + 1) = true →
  row !! "customer_email" = Some raw →
  nextFault w = None →
  firstMatch (byEmail email) (store w) = None →
  nextFault w1 = None →
  nextFault w2 = None →
  let out := enrichRow startRange endRange row idx w in
  List.filter isSleep (newEvents w (worldOf out)) = [ESleep 1000]
  ∧ clock (worldOf out) = clock w2 + elapsed (hd quiet (answers w2)) + 1000.
Proof.
  cbn zeta. intros Hin Hraw Hf Hnone Hf1 Hf2.
  destruct (enrichRow_cases startRange endRange row idx w) as (_ & _ & H).
  cbn zeta in H. rewrite Hin, Hraw, Hf, Hnone, Hf1, Hf2 in H. rewrite H.
  split; [|done]. erewrite newEvents_app; [|cbn; rewrite <- !app_assoc; reflexivity].
  done.
Qed.

(** It is skipped when the call to the match API is rejected, and when the
    insert fails after the call: the next row starts at once. *)
Lemma enrichRow_no_delay startRange endRange row idx w raw :
  let email := Js.toLowerCase raw in
  let w1 := issued (EFindOne (byEmail email)) w in
  let w2 := issued (EApiPost email) w1 in
  inRange startRange endRange (idx + 1) = true →
  row !! "customer_email" = Some raw →
  nextFault w = None →
  firstMatch (byEmail email) (store w) = None →
  nextFault w1 ≠ None ∨ nextFault w2 ≠ None →
  let out := enrichRow startRange endRange row idx w in
  EApiPost email ∈ newEvents w (worldOf out)
  ∧ List.filter isSleep (newEvents w (worldOf out)) = [].
Proof.
  cbn zeta. intros Hin Hraw Hf Hnone Hfail.
  destruct (enrichRow_cases startRange endRange row idx w) as (_ & _ & H).
  cbn zeta in H. rewrite Hin, Hraw, Hf, Hnone in H.
  destruct (nextFault (issued (EFindOne _) w)) as [msg|].
  - rewrite H. erewrite newEvents_app; [|cbn; rewrite <- !app_assoc; reflexivity].
    split; [|done]. apply list_elem_of_further, list_elem_of_here.
  - destruct Hfail as [?|Hfail]; [done|].
    destruct (nextFault (issued (EApiPost _) _)) as [msg|]; [|done].
    rewrite H. erewrite newEvents_app; [|cbn; rewrite <- !app_assoc; reflexivity].
    split; [|done]. apply list_elem_of_further, list_elem_of_here.
Qed.

(** C8, at the failing input: the API call for the first row is rejected,
    the handler of the row prints the error, and the lookup and the call for
    the second row follow with no delay in between; the only delay of the
    run comes after the second call, and the clock has advanced by one
    second in all. *)
Theorem processEmails_no_delay_after_rejected_call :
  let out := runProcessEmails 1 400 rejectedWorld in
  callsOf (newEvents rejectedWorld (worldOf out))
  = [EConnect; EReadCsv;
     EFindOne (byEmail "a@x.com"); EApiPost "a@x.com";
     EFindOne (byEmail "b@x.com"); EApiPost "b@x.com";
     EInsertOne (newRecord "b@x.com" (VData "") (VDate 1700000000000));
     ESleep 1000; EClose]
  ∧ clock (worldOf out) = clock rejectedWorld + 1000.
Proof. by vm_compute. Qed.

(** * verifyStoreInfo *)

#[local] Instance reported_refl : Reflexive reported.
Proof. intros [u w]. split; [done|]. exists []. by rewrite app_nil_r. Qed.

#[local] Instance reported_trans : Transitive reported.
Proof.
  intros [u1 w1] [u2 w2] [u3 w3] (Hs & evs & Htr & H) (Hs' & evs' & Htr' & H').
  unfold reported. cbn [fst snd] in *. split; [by rewrite Hs', Hs|].
  exists (evs ++ evs'). rewrite Htr', Htr, app_assoc. split; [done|].
  apply Forall_app. split; [done|]. by rewrite <- Hs.
Qed.

Lemma coverageFor_other st e : notCoverage e → coverageFor st e.
Proof. unfold notCoverage. by destruct e as [| | | | | | | | | | |[]]. Qed.

Lemma reported_noted e (u u' : unit) w : notCoverage e → reported (u, w) (u', noted e w).
Proof.
  intros He. split; [done|]. exists [e]. split; [done|].
  constructor; [|done]. by apply coverageFor_other.
Qed.

Lemma reported_issued e (u u' : unit) w : notCoverage e → reported (u, w) (u', issued e w).
Proof.
  intros He. split; [done|]. exists [e]. split; [done|].
  constructor; [|done]. by apply coverageFor_other.
Qed.

Lemma filter_length_le {A} (f : A → bool) (l : list A) :
  (length (List.filter f l) ≤ length l)%nat.
Proof. induction l as [|x l IH]; cbn; [done|]. destruct (f x); cbn; lia. Qed.

(** The guard of line 132: a positive count of records with both fields
    makes the total positive, so the quotient is finite. *)
Lemma coverage_guarded st :
  (0 <? length (List.filter (matches hasBoth) st))%nat = true →
  coverageFor st
    (ELog (LCoverage (Js.times (Js.div (length (List.filter (matches hasBoth) st))
                                       (length (List.filter (matches FAll) st))) 100))).
Proof.
  intros H%Nat.ltb_lt.
  assert (Hall : List.filter (matches FAll) st = st).
  { clear H. induction st as [|d st IH]; [done|].
    change (List.filter (matches FAll) (d :: st))
      with (d :: List.filter (matches FAll) st). by rewrite IH. }
  rewrite Hall. pose proof (filter_length_le (matches hasBoth) st) as Hle.
  destruct st as [|d st]; [cbn in H; lia|]. split; [done|].
  eexists. reflexivity.
Qed.

Lemma reportCounts_reported : respects reported reportCounts.
Proof.
  intros [] w. unfold reportCounts, reported.
  js_run; (split; [done|]); rewrite <- ?app_assoc; cbn;
    eexists; (split; [reflexivity|]);
    repeat (constructor; [first [exact I | by apply coverage_guarded]|]);
    constructor.
Qed.

Lemma respects_reported_log x :
  notCoverage (ELog x) → respects reported (log (L:=unit) x).
Proof.
  intros H. apply (respects_log reported notCoverage); [|done].
  intros. by apply reported_noted.
Qed.

Lemma showWithInfo_reported i d : respects reported (showWithInfo i d).
Proof.
  unfold showWithInfo. apply respects_bind; [apply _| |].
  - by apply respects_reported_log.
  - intros _. destruct (d !! "store_info_updated_at") as [[]|];
      try destruct (truthyValue _);
      first [by apply respects_reported_log | apply respects_throw; apply _
            | apply respects_ret; apply _].
Qed.

Lemma reportSamples_reported withStoreId withBothStoreInfo :
  respects reported (reportSamples withStoreId withBothStoreInfo).
Proof.
  assert (Hissued : ∀ e (l : unit) w, notCoverage e → reported (l, w) (l, issued e w)).
  { intros. by apply reported_issued. }
  assert (Hnoted : ∀ e (l : unit) w, notCoverage e → reported (l, w) (l, noted e w)).
  { intros. by apply reported_noted. }
  unfold reportSamples, aggregateStores.
  apply respects_bind; [apply _| |intros _; apply respects_bind; [apply _| |]].
  - apply respects_if; [|apply respects_ret; apply _].
    apply respects_bind; [apply _| |].
    + by apply (respects_findLimit reported notCoverage).
    + intros docs. apply respects_forEach; [apply _..|]. apply showWithInfo_reported.
  - by apply (respects_findLimit reported notCoverage).
  - intros docs. apply respects_bind; [apply _| |intros _].
    + apply respects_if; [|apply respects_ret; apply _].
      apply respects_forEach; [apply _..|]. intros i d.
      by apply respects_reported_log.
    + apply respects_if; [|apply respects_ret; apply _].
      apply respects_bind; [apply _| |].
      * apply (respects_driver reported notCoverage); [done..|].
        apply respects_bind; [apply _|apply respects_getWorld; apply _|].
        intros w. apply respects_ret. apply _.
      * intros groups. apply respects_forEach; [apply _..|]. intros i g.
        by apply respects_reported_log.
Qed.

Lemma verifyStoreInfo_reported : respects reported verifyStoreInfo.
Proof.
  unfold verifyStoreInfo.
  apply respects_tryFinally; [apply _| |].
  - apply respects_tryCatch; [apply _| |intros e; by apply respects_reported_log].
    apply respects_bind; [apply _| |intros _].
    { apply (respects_connect reported notCoverage); [|done].
      intros. by apply reported_issued. }
    apply respects_bind; [apply _|by apply respects_reported_log|intros _].
    apply respects_bind; [apply _|apply reportCounts_reported|intros counts].
    apply reportSamples_reported.
  - apply (respects_closing reported notCoverage); try done.
    + intros. by apply reported_noted.
    + intros. by apply reported_issued.
Qed.

Lemma verifyStoreInfo_empty w :
  store w = [] → answers w = [] →
  resultOf (runVerifyStoreInfo w) = Ok tt
  ∧ newEvents w (worldOf (runVerifyStoreInfo w)) = emptyReport.
Proof.
  destruct w as [st ck csv ans tr]. cbn. intros -> ->.
  unfold runVerifyStoreInfo, verifyStoreInfo, reportCounts, reportSamples, emptyReport.
  js_open. cbn.
  repeat (js_call; cbn).
  split; [done|]. rewrite <- !app_assoc. apply drop_app_length.
Qed.

(** C9. The coverage percentage of the report is guarded against division
    by zero.  For every run, from every world: the report never changes the
    collection; every coverage line it prints is a finite quotient over the
    number of stored records, which is then not zero (never [NaN] nor
    [Infinity]); on an empty collection no coverage line is printed, and
    when the driver does not fail the report completes normally with the
    lines of [emptyReport]. *)
Theorem verifyStoreInfo_coverage_guarded (w : World) :
  let out := runVerifyStoreInfo w in
  store (worldOf out) = store w
  ∧ (∀ pct, ELog (LCoverage pct) ∈ newEvents w (worldOf out) →
       store w ≠ []
       ∧ ∃ n : nat, pct = Js.Fin (Z.of_nat n * 100) (Z.of_nat (length (store w))))
  ∧ (store w = [] → List.filter isCoverage (newEvents w (worldOf out)) = [])
  ∧ (store w = [] → answers w = [] →
       resultOf out = Ok tt ∧ newEvents w (worldOf out) = emptyReport).
Proof.
  cbn zeta. destruct (verifyStoreInfo_reported tt w) as (Hst & evs & Htr & Hev).
  cbn [fst snd] in *. fold (runVerifyStoreInfo w) in *.
  rewrite (newEvents_app _ _ _ Htr).
  assert (Hcov : ∀ pct, ELog (LCoverage pct) ∈ evs →
            store w ≠ []
            ∧ ∃ n : nat, pct = Js.Fin (Z.of_nat n * 100) (Z.of_nat (length (store w)))).
  { intros pct Hin. rewrite Forall_forall in Hev. exact (Hev _ Hin). }
  split; [done|]. split; [done|]. split.
  - intros Hempty. clear Htr Hev. induction evs as [|e evs IH]; [done|].
    cbn. destruct (isCoverage e) eqn:He.
    + destruct e as [| | | | | | | | | | |[]]; try discriminate.
      destruct (Hcov pct) as [Hne _]; [apply list_elem_of_here|]. done.
    + apply IH. intros pct Hin. apply Hcov. by apply list_elem_of_further.
  - intros Hempty Hans. rewrite <- (newEvents_app _ _ _ Htr).
    by apply verifyStoreInfo_empty.
Qed.

Lemma verifyStoreInfo_coverage_guarded_witness :
  ELog (LCoverage (Js.Fin 100 2))
    ∈ newEvents coveredWorld (worldOf (runVerifyStoreInfo coveredWorld))
  ∧ store coveredWorld ≠ []
  ∧ newEvents emptyWorld (worldOf (runVerifyStoreInfo emptyWorld)) = emptyReport.
Proof.
  assert (Hin : ELog (LCoverage (Js.Fin 100 2))
                  ∈ newEvents coveredWorld (worldOf (runVerifyStoreInfo coveredWorld))).
  { vm_compute. repeat first [apply list_elem_of_here | apply list_elem_of_further]. }
  destruct (verifyStoreInfo_coverage_guarded coveredWorld) as (_ & Hcov & _).
  destruct (verifyStoreInfo_coverage_guarded emptyWorld) as (_ & _ & _ & Hempty).
  destruct (Hcov _ Hin) as [Hne _].
  destruct (Hempty eq_refl eq_refl) as [_ Hreport].
  split; [exact Hin|]. split; [exact Hne|exact Hreport].
Defined.

(** * Further properties *)

(** ** Environments that make no call fail *)

Lemma faultless_next w : faultless w → nextFault w = None.
Proof.
  unfold faultless, nextFault. destruct (answers w) as [|t a]; [done|].
  by intros [H _]%Forall_cons.
Qed.

Lemma faultless_issued e w : faultless w → faultless (issued e w).
Proof.
  unfold faultless. cbn. destruct (answers w) as [|t a]; [done|].
  by intros [_ H]%Forall_cons.
Qed.

Lemma faultless_noted e w : faultless (noted e w) ↔ faultless w.
Proof. done. Qed.

Lemma faultless_withStore s w : faultless (withStore s w) ↔ faultless w.
Proof. done. Qed.

Lemma faultless_withClock t w : faultless (withClock t w) ↔ faultless w.
Proof. done. Qed.

(** ** updateStoreInfo: the shape of a run *)

Lemma updateSummary_run s w :
  updateSummary s w =
  let w1 := noted (summaryLine s) w in
  match nextFault w with
  | Some msg => (Throw (Js.DriverError msg), s, issued (EFind sampleUpdatedFilter 5) w1)
  | None =>
      (Ok tt, s,
       withTrace (trace (issued (EFind sampleUpdatedFilter 5) w1)
                  ++ logLines (λ i d, LSample (S i) d) 0
                       (take 5 (List.filter (matches sampleUpdatedFilter) (store w))))
                 (issued (EFind sampleUpdatedFilter 5) w1))
  end.
Proof.
  unfold updateSummary, summaryLine, sampleUpdatedFilter. js_open. cbn.
  rewrite log_eq. cbn. rewrite findLimit_eq.
  change (nextFault (noted _ w)) with (nextFault w).
  destruct (nextFault w); cbn; [done|]. by rewrite forEach_log.
Qed.

Lemma isEpilogue_logLines i (docs : list Doc) :
  forallb isEpilogue (logLines (λ i d, LSample (S i) d) i docs) = true.
Proof. revert i. induction docs as [|d docs IH]; intros i; cbn; [done|]. apply IH. Qed.

(** A run that connects and loads the rows ends in the state of the loop,
    followed by the summary and the epilogue. *)
Lemma updateStoreInfo_shape w rows :
  nextFault w = None →
  csvFile w = Some rows →
  let loop := updateLoop (length rows) rows zeroStats (loaded rows w) in
  let out := runUpdateStoreInfo w in
  localsOf out = localsOf loop
  ∧ store (worldOf out) = store (worldOf loop)
  ∧ ∃ evs, trace (worldOf out) = trace (worldOf loop) ++ summaryLine (localsOf loop) :: evs
           ∧ forallb isEpilogue evs = true.
Proof.
  intros Hf Hcsv. cbn zeta. unfold runUpdateStoreInfo, loaded.
  rewrite updateStoreInfo_unfold, Hf, Hcsv. cbn zeta.
  set (w3 := noted (ELog (LLoaded _)) _).
  destruct (updateLoop_ok (length rows) rows zeroStats w3) as [Hr _].
  cbn zeta in *. unfold tryFinally, tryCatch, bind, resultOf, localsOf, worldOf in *.
  destruct (updateLoop (length rows) rows zeroStats w3) as [[r st] w'].
  cbn in Hr. subst r. cbn [fst snd]. rewrite updateSummary_run. cbn zeta.
  destruct (nextFault w') as [msg|] eqn:Hf'.
  - rewrite log_eq, closing_eq. js_split; cbn [fst snd];
      (split; [done|]); (split; [done|]);
      eexists; (split; [cbn; rewrite <- ?app_assoc; reflexivity|]); done.
  - rewrite closing_eq. js_split; cbn [fst snd];
      (split; [done|]); (split; [done|]);
      eexists; (split; [cbn; rewrite <- ?app_assoc; reflexivity|]);
      rewrite !forallb_app, isEpilogue_logLines; done.
Qed.


Lemma trace_loaded rows w :
  trace (loaded rows w)
  = trace w ++ [EConnect; ELog LConnected; EReadCsv; ELog (LLoaded (length rows))].
Proof. unfold loaded. cbn. by rewrite <- !app_assoc. Qed.

(** ** updateStoreInfo: the lookups of a run *)





(** ** updateStoreInfo: what the counters count *)

Lemma Forall_tl {A} (P : A → Prop) (l : list A) : Forall P l → Forall P (tl l).
Proof. destruct l; [done|]. by intros [_ H]%Forall_cons. Qed.

Lemma updateRow_faultless len row s w :
  faultless w → faultless (worldOf (updateRow len row s w)).
Proof.
  intros H. unfold updateRow, updateRowBody, updateRowCatch, progress.
  destruct (Js.truthy (normalizedEmail row)); js_run;
    unfold faultless in *; cbn; repeat apply Forall_tl; done.
Qed.

(** Whether an email is stored depends on the emails of the collection
    only. *)
Lemma firstMatch_emails email s s' :
  docEmail <$> s = docEmail <$> s' →
  firstMatch (byEmail email) s = None ↔ firstMatch (byEmail email) s' = None.
Proof.
  unfold firstMatch. revert s'. induction s as [|d s IH]; intros [|d' s'] H; try done.
  injection H as Hd Hs. cbn. unfold docEmail in Hd. rewrite Hd.
  case_bool_decide; [done|]. by apply IH.
Qed.

Lemma isUnknown_emails s s' row :
  docEmail <$> s = docEmail <$> s' → isUnknown s row = isUnknown s' row.
Proof.
  intros H. unfold isUnknown. destruct (Js.truthy (normalizedEmail row)) as [e|]; [|done].
  pose proof (firstMatch_emails e s s' H) as Hiff.
  destruct (firstMatch (byEmail e) s), (firstMatch (byEmail e) s'); try done;
    destruct Hiff as [H1 H2];
    first [discriminate (H1 eq_refl) | discriminate (H2 eq_refl)].
Qed.

Lemma isKnown_emails s s' row :
  docEmail <$> s = docEmail <$> s' → isKnown s row = isKnown s' row.
Proof.
  intros H. unfold isKnown. destruct (Js.truthy (normalizedEmail row)) as [e|]; [|done].
  pose proof (firstMatch_emails e s s' H) as Hiff.
  destruct (firstMatch (byEmail e) s), (firstMatch (byEmail e) s'); try done;
    destruct Hiff as [H1 H2];
    first [discriminate (H1 eq_refl) | discriminate (H2 eq_refl)].
Qed.

Lemma updateRow_classified len row s w :
  faultless w →
  let out := updateRow len row s w in
  errorRecords (localsOf out) = (errorRecords s + one (isMissing row))%nat
  ∧ notFoundRecords (localsOf out)
    = (notFoundRecords s + one (isUnknown (store w) row))%nat
  ∧ ∃ evs, trace (worldOf out) = trace w ++ evs
           ∧ (updatedRecords (localsOf out) + unchangedRows evs
              = updatedRecords s + one (isKnown (store w) row))%nat.
Proof.
  intros Hw. cbn zeta. unfold isMissing, isUnknown, isKnown.
  destruct (Js.truthy (normalizedEmail row)) as [email|] eqn:He.
  - destruct (updateRow_cases len row s w _ He) as [_ H]. cbn zeta in H.
    rewrite (faultless_next w Hw) in H.
    destruct (firstMatch (byEmail email) (store w)).
    + rewrite (faultless_next _ (faultless_issued _ w Hw)) in H.
      destruct H as (_ & Hl & Htr). rewrite Hl.
      destruct (0 <? _)%nat; cbn; (split; [lia|]); (split; [lia|]);
        eexists; (split; [exact Htr|]);
        change (?a :: ?b :: ?c :: ?l) with ([a; b; c] ++ l);
        rewrite unchangedRows_app, unchangedRows_progressLines;
        unfold unchangedRows; cbn; lia.
    + destruct H as (Hl & _ & Htr). rewrite Hl. cbn.
      split; [lia|]. split; [lia|]. eexists. split; [exact Htr|].
      change (?a :: ?b :: ?l) with ([a; b] ++ l).
      rewrite unchangedRows_app, unchangedRows_progressLines.
      unfold unchangedRows. cbn. lia.
  - rewrite (updateRow_missing _ _ _ _ He). cbn. split; [lia|]. split; [lia|].
    eexists. split; [done|]. unfold unchangedRows. cbn. lia.
Qed.

Lemma updateLoop_classified len rows s w :
  faultless w →
  let out := updateLoop len rows s w in
  errorRecords (localsOf out)
  = (errorRecords s + length (List.filter isMissing rows))%nat
  ∧ notFoundRecords (localsOf out)
    = (notFoundRecords s + length (List.filter (isUnknown (store w)) rows))%nat
  ∧ ∃ evs, trace (worldOf out) = trace w ++ evs
           ∧ (updatedRecords (localsOf out) + unchangedRows evs
              = updatedRecords s + length (List.filter (isKnown (store w)) rows))%nat.
Proof.
  cbn zeta. revert s w. induction rows as [|row rows IH]; intros s w Hw.
  - cbn. split; [lia|]. split; [lia|]. exists []. rewrite app_nil_r.
    split; [done|]. unfold unchangedRows. cbn. lia.
  - cbn [updateLoop]. unfold bind.
    destruct (updateRow_ok len row s w) as [Hr _].
    destruct (updateRow_classified len row s w Hw) as (He & Hn & evs & Htr & Hu).
    pose proof (updateRow_faultless len row s w Hw) as Hw'.
    destruct (updateRow_untouched len row s w) as [Hemails _].
    cbn zeta in *. unfold resultOf, localsOf, worldOf in *.
    destruct (updateRow len row s w) as [[r s'] w']. cbn [fst snd] in *. subst r.
    destruct (IH s' w' Hw') as (He' & Hn' & evs' & Htr' & Hu').
    rewrite (List.filter_ext _ _ (λ row, isUnknown_emails _ _ row Hemails)) in Hn'.
    rewrite (List.filter_ext _ _ (λ row, isKnown_emails _ _ row Hemails)) in Hu'.
    cbn [List.filter].
    split; [|split].
    + rewrite He', He. unfold one. destruct (isMissing row); cbn; lia.
    + rewrite Hn', Hn. unfold one. destruct (isUnknown (store w) row); cbn; lia.
    + exists (evs ++ evs'). rewrite Htr', Htr, app_assoc. split; [done|].
      rewrite unchangedRows_app. unfold one in Hu.
      destruct (isKnown (store w) row); cbn; lia.
Qed.

Lemma unchangedRows_epilogue evs : forallb isEpilogue evs = true → unchangedRows evs = O.
Proof.
  unfold unchangedRows. induction evs as [|e evs IH]; [done|]. cbn.
  intros [He H]%andb_prop. destruct e as [| | | | | | | | | | |[]]; try discriminate;
    cbn; by apply IH.
Qed.

(** X2. When no call fails, the counters of the update-variant classify the
    rows of the CSV against the collection as it was when the run started:
    [errors] counts the rows without a usable email, [notFound] the rows
    whose normalized email is not stored, and the rows whose email is
    stored are counted in [updated] or, when the update changed nothing,
    reported as unchanged. *)
Theorem updateStoreInfo_classifies (w : World) (rows : list Row) :
  faultless w →
  csvFile w = Some rows →
  let out := runUpdateStoreInfo w in
  let st := localsOf out in
  totalProcessed st = length rows
  ∧ errorRecords st = length (List.filter isMissing rows)
  ∧ notFoundRecords st = length (List.filter (isUnknown (store w)) rows)
  ∧ (updatedRecords st + unchangedRows (newEvents w (worldOf out)))%nat
    = length (List.filter (isKnown (store w)) rows).
Proof.
  intros Hw Hcsv. cbn zeta.
  destruct (updateStoreInfo_shape w rows (faultless_next w Hw) Hcsv)
    as (Hl & _ & evs & Htr & Hev).
  assert (Hloaded : faultless (loaded rows w)).
  { unfold loaded. by apply faultless_issued. }
  destruct (updateLoop_ok (length rows) rows zeroStats (loaded rows w)) as [_ Ht].
  destruct (updateLoop_classified (length rows) rows zeroStats (loaded rows w) Hloaded)
    as (He & Hn & evs' & Htr' & Hu).
  cbn zeta in *. rewrite Hl, Ht, He, Hn.
  split; [done|]. split; [done|]. split; [done|].
  rewrite Htr', trace_loaded in Htr.
  erewrite newEvents_app; [|rewrite Htr, <- !app_assoc; reflexivity].
  change (summaryLine ?st :: evs) with ([summaryLine st] ++ evs).
  rewrite !unchangedRows_app, (unchangedRows_epilogue _ Hev).
  change (store (loaded rows w)) with (store w) in Hu.
  unfold unchangedRows at 1 3. cbn. cbn in Hu. lia.
Qed.

Lemma updateStoreInfo_classifies_witness :
  let st := localsOf (runUpdateStoreInfo calmWorld) in
  totalProcessed st = 3%nat ∧ errorRecords st = 1%nat ∧ notFoundRecords st = 1%nat.
Proof.
  assert (Hcalm : faultless calmWorld) by (repeat constructor).
  destruct (updateStoreInfo_classifies calmWorld mixedRows Hcalm eq_refl)
    as (Ht & He & Hn & _).
  cbn zeta. rewrite Ht, He, Hn. vm_compute. repeat split; reflexivity.
Defined.

(** ** updateStoreInfo: the fields a run may change *)

Lemma sameBut_refl d : sameBut d d.
Proof. by split. Qed.

Lemma sameBut_trans d1 d2 d3 : sameBut d1 d2 → sameBut d2 d3 → sameBut d1 d3.
Proof.
  intros [H1 K1] [H2 K2]. split.
  - intros k Hk. by rewrite H2, H1.
  - intros k Hk. by apply K2, K1.
Qed.

#[local] Instance framed_refl : Reflexive framed.
Proof. intros [s w]. apply Forall2_same_length_lookup_2; [done|].
  intros i d d' H1 H2. cbn in *. rewrite H1 in H2. injection H2 as <-.
  apply sameBut_refl.
Qed.

#[local] Instance framed_trans : Transitive framed.
Proof.
  intros [s1 w1] [s2 w2] [s3 w3]. unfold framed. cbn [fst snd].
  generalize (store w1) (store w2) (store w3). clear.
  intros l1 l2 l3 H12. revert l3. induction H12 as [|d1 d2 l1 l2 Hd H12 IH];
    intros l3 H23; inversion H23; subst; constructor.
  - by eapply sameBut_trans.
  - by apply IH.
Qed.

Lemma framed_same (s s' : Stats) w w' : store w' = store w → framed (s, w) (s', w').
Proof.
  intros H. unfold framed. cbn [fst snd]. rewrite H.
  clear. induction (store w); constructor; [apply sameBut_refl|done].
Qed.

Lemma isStoreField_false k :
  isStoreField k = false →
  k ≠ "external_store_id" ∧ k ≠ "store_name" ∧ k ≠ "store_info_updated_at".
Proof.
  unfold isStoreField. intros H.
  apply orb_false_elim in H as [H H3]. apply orb_false_elim in H as [H1 H2].
  by repeat case_bool_decide.
Qed.

Lemma updateData_other sid name now k :
  isStoreField k = false → updateData sid name now !! k = None.
Proof.
  intros (H1 & H2 & H3)%isStoreField_false. rewrite updateData_lookup.
  by repeat case_decide.
Qed.

Lemma sameBut_setFields upd d :
  (∀ k, isStoreField k = false → upd !! k = None) → sameBut d (setFields upd d).
Proof.
  intros Hupd. split.
  - intros k Hk. apply setFields_keep. by apply Hupd.
  - intros k Hk. unfold setFields. rewrite lookup_union_is_Some. by right.
Qed.

Lemma applyUpdate_sameBut f upd s :
  (∀ k, isStoreField k = false → upd !! k = None) →
  Forall2 sameBut s (applyUpdate f upd s).1.
Proof.
  intros Hupd. induction s as [|d s IH]; cbn; [constructor|].
  destruct (matches f d); cbn.
  - constructor; [by apply sameBut_setFields|].
    clear. induction s; constructor; [apply sameBut_refl|done].
  - destruct (applyUpdate f upd s) as [s' n]. cbn in *.
    constructor; [apply sameBut_refl|done].
Qed.

Lemma updateRow_framed len row : respects framed (updateRow len row).
Proof.
  intros s w. destruct (Js.truthy (normalizedEmail row)) as [email|] eqn:He.
  - destruct (updateRow_cases len row s w _ He) as [_ H]. cbn zeta in H.
    repeat case_match; destruct H as (Ha & Hb & _);
      try (apply framed_same; first [exact Ha | exact Hb]).
    all: unfold framed; cbn [fst snd]; rewrite Ha;
      apply applyUpdate_sameBut; intros k Hk; by apply updateData_other.
  - rewrite (updateRow_missing _ _ _ _ He). by apply framed_same.
Qed.

Lemma updateLoop_framed len rows : respects framed (updateLoop len rows).
Proof.
  induction rows as [|row rows IH]; cbn.
  - apply respects_ret. apply _.
  - apply respects_bind; [apply _| |done]. apply updateRow_framed.
Qed.

(** X3. A run of the update-variant, from every world and whatever fails,
    leaves the collection with the same records in the same order; a record
    can differ from what it was only in [external_store_id], [store_name]
    and [store_info_updated_at], and no field of a record is removed. *)
Theorem updateStoreInfo_frame (w : World) :
  Forall2 sameBut (store w) (store (worldOf (runUpdateStoreInfo w))).
Proof.
  apply (respects_updateStoreInfo framed (λ _, True)); auto using updateLoop_framed.
  - intros e l w' _. by apply framed_same.
  - intros e l w' _. by apply framed_same.
Qed.

(** ** updateStoreInfo: reading back what an update wrote *)

Lemma firstMatch_replace f pre d post :
  Forall (λ x, matches f x = false) pre →
  matches f d = true →
  firstMatch f (pre ++ d :: post) = Some d.
Proof.
  unfold firstMatch. intros Hpre Hd. induction Hpre as [|x pre Hx _ IH]; cbn.
  - by rewrite Hd.
  - by rewrite Hx.
Qed.

Lemma firstMatch_matches f s d : firstMatch f s = Some d → matches f d = true.
Proof. unfold firstMatch. intros H. by apply find_some in H as [_ ?]. Qed.

(** X4. In the update-variant, when the lookup of a row finds a record and
    the update goes through, looking the email up again returns that record
    with the time stamp of the update, with [external_store_id] and
    [store_name] set to the trimmed columns of the row where these are
    non-empty and as they were where the columns are empty or missing, and
    with all its other fields as they were. *)
Theorem updateRow_then_lookup
    (len : nat) (row : Row) (s : Stats) (w : World) (email : string) (d : Doc) :
  let w1 := issued (EFindOne (byEmail email)) w in
  Js.truthy (normalizedEmail row) = Some email →
  nextFault w = None →
  firstMatch (byEmail email) (store w) = Some d →
  nextFault w1 = None →
  ∃ d' : Doc,
    firstMatch (byEmail email) (store (worldOf (updateRow len row s w))) = Some d'
    ∧ d' !! "store_info_updated_at" = Some (VDate (clock w1))
    ∧ d' !! "external_store_id"
      = match Js.truthy (trimmedField "external_store_id" row) with
        | Some v => Some (VStr v)
        | None => d !! "external_store_id"
        end
    ∧ d' !! "store_name"
      = match Js.truthy (trimmedField "name" row) with
        | Some v => Some (VStr v)
        | None => d !! "store_name"
        end
    ∧ ∀ k, isStoreField k = false → d' !! k = d !! k.
Proof.
  cbn zeta. intros He Hf Hfound Hf1.
  destruct (updateRow_cases len row s w _ He) as [_ H]. cbn zeta in H.
  rewrite Hf, Hfound, Hf1 in H. destruct H as (Hst & _ & _).
  set (upd := updateData _ _ _) in *.
  destruct (applyUpdate_found (byEmail email) upd _ _ Hfound)
    as (pre & post & Hs & Hpre & Hres & _).
  exists (setFields upd d). rewrite Hst, Hres.
  assert (Hk : ∀ k, setFields upd d !! k
                    = match upd !! k with Some v => Some v | None => d !! k end).
  { intros k. destruct (upd !! k) eqn:E;
      [by apply setFields_set | by apply setFields_keep]. }
  split; [|split; [|split; [|split]]].
  - apply firstMatch_replace; [done|].
    pose proof (firstMatch_matches _ _ _ Hfound) as Hd. cbn in Hd |- *.
    rewrite Hk. unfold upd. by rewrite updateData_no_email.
  - rewrite Hk. unfold upd. by rewrite updateData_lookup.
  - rewrite Hk. unfold upd. rewrite updateData_lookup. cbn.
    by destruct (Js.truthy (trimmedField "external_store_id" row)).
  - rewrite Hk. unfold upd. rewrite updateData_lookup. cbn.
    by destruct (Js.truthy (trimmedField "name" row)).
  - intros k Hk'. rewrite Hk. unfold upd. by rewrite updateData_other.
Qed.

Lemma updateRow_then_lookup_witness :
  ∃ d' : Doc,
    firstMatch (byEmail "a@x.com")
      (store (worldOf (updateRow 1 partialUpdateRow zeroStats sampleWorld))) = Some d'
    ∧ d' !! "external_store_id" = Some (VStr "S1")
    ∧ d' !! "store_name" = None
    ∧ d' !! "email" = Some (VStr "a@x.com").
Proof.
  destruct (updateRow_then_lookup 1 partialUpdateRow zeroStats sampleWorld "a@x.com"
              (emailOnly "a@x.com") eq_refl eq_refl eq_refl eq_refl)
    as (d' & Hfound & _ & Hid & Hname & Hother).
  exists d'. split; [exact Hfound|]. split; [exact Hid|]. split; [exact Hname|].
  exact (Hother "email" eq_refl).
Defined.

(** ** updateStoreInfo: the summary *)

(** X5. A run of the update-variant that connects and loads the CSV always
    prints its summary, whatever happens to the rows: the total is the
    number of rows, the three other counters never add up to more than it,
    and the success rate is the quotient [updated / total] times 100, which
    is [NaN] exactly when the CSV has no row (the division is not
    guarded). *)
Theorem updateStoreInfo_summary (w : World) (rows : list Row) :
  nextFault w = None →
  csvFile w = Some rows →
  let out := runUpdateStoreInfo w in
  let st := localsOf out in
  (updatedRecords st + notFoundRecords st + errorRecords st ≤ length rows)%nat
  ∧ ELog (LSummary (length rows) (updatedRecords st) (notFoundRecords st)
                   (errorRecords st)
                   (if decide (rows = []) then Js.NaN
                    else Js.Fin (Z.of_nat (updatedRecords st) * 100)
                                (Z.of_nat (length rows))))
    ∈ newEvents w (worldOf out).
Proof.
  intros Hf Hcsv. cbn zeta.
  destruct (updateStoreInfo_completes w rows Hf Hcsv) as [Ht Hin]. cbn zeta in *.
  destruct (respects_updateStoreInfo balanced notNoChanges) with (w := w)
    as (evs & _ & Hb); auto using balanced_noted, balanced_issued, updateLoop_balanced.
  unfold accounted in Hb. cbn in Hb.
  split; [lia|]. unfold summaryLine in Hin. rewrite Ht in Hin.
  destruct rows as [|row rows].
  - cbn in Ht, Hin |- *.
    assert (Hu : updatedRecords (localsOf (runUpdateStoreInfo w)) = O) by lia.
    by rewrite Hu in Hin |- *.
  - rewrite decide_False by done. exact Hin.
Qed.

Lemma updateStoreInfo_summary_witness :
  ELog (LSummary 0 0 0 0 Js.NaN)
    ∈ newEvents noRowsWorld (worldOf (runUpdateStoreInfo noRowsWorld)).
Proof.
  destruct (updateStoreInfo_summary noRowsWorld [] eq_refl eq_refl) as [_ H].
  exact H.
Defined.

(** * processEmails: further properties *)

(** ** A row that is enriched *)

Lemma firstMatch_fresh email s data processedAt :
  firstMatch (byEmail email) s = None →
  firstMatch (byEmail email) (s ++ [newRecord email data processedAt])
  = Some (newRecord email data processedAt).
Proof.
  intros Hnone. apply firstMatch_replace.
  - unfold firstMatch in Hnone. apply Forall_forall. intros x Hx.
    apply (find_none _ _ Hnone). by apply list_elem_of_In.
  - cbn. unfold newRecord. rewrite lookup_insert_eq. by rewrite bool_decide_eq_true.
Qed.



(** X7. In the enrichment-variant, the same row processed again after it
    was enriched is skipped: the second iteration, at any position of any
    range and whatever the environment answers, calls neither the match API
    nor [insertOne] and leaves the collection as the first one left it. *)
Theorem enrichRow_twice
    (startRange endRange : Z) (row : Row) (idx : Z) (w : World) (raw : string)
    (startRange' endRange' idx' : Z) :
  let email := Js.toLowerCase raw in
  let w1 := issued (EFindOne (byEmail email)) w in
  let w2 := issued (EApiPost email) w1 in
  inRange startRange endRange (idx + 1) = true →
  row !! "customer_email" = Some raw →
  nextFault w = None →
  firstMatch (byEmail email) (store w) = None →
  nextFault w1 = None →
  nextFault w2 = None →
  let once := worldOf (enrichRow startRange endRange row idx w) in
  let twice := worldOf (enrichRow startRange' endRange' row idx' once) in
  store twice = store once
  ∧ List.filter (λ e, isApiPost e || isInsert e) (newEvents once twice) = [].
Proof.
  cbn zeta. intros Hin Hraw Hf Hnone Hf1 Hf2.
  destruct (enrichRow_cases startRange endRange row idx w) as (_ & _ & H).
  cbn zeta in H. rewrite Hin, Hraw, Hf, Hnone, Hf1, Hf2 in H.
  set (once := worldOf (enrichRow startRange endRange row idx w)) in *.
  assert (Hfound : ∃ d, firstMatch (byEmail (Js.toLowerCase raw)) (store once) = Some d).
  { eexists. rewrite H. cbn [store withClock noted withTrace withStore].
    by apply firstMatch_fresh. }
  destruct Hfound as [d Hfound]. clear H.
  destruct (enrichRow_cases startRange' endRange' row idx' once) as (_ & _ & H).
  cbn zeta in H. rewrite Hraw, Hfound in H.
  destruct (inRange startRange' endRange' (idx' + 1)).
  - destruct (nextFault once); rewrite H; (split; [done|]);
      (erewrite newEvents_app; [|cbn; rewrite <- ?app_assoc; reflexivity]); done.
  - rewrite H. split; [done|]. by rewrite (newEvents_app _ _ []) by (by rewrite app_nil_r).
Qed.

Lemma enrichRow_twice_witness :
  let once := worldOf (enrichRow 1 400 (csvRow "New@X.com" "" "") 0 freshWorld) in
  let twice := worldOf (enrichRow 1 400 (csvRow "New@X.com" "" "") 1 once) in
  store twice = store once.
Proof.
  destruct (enrichRow_twice 1 400 (csvRow "New@X.com" "" "") 0 freshWorld "New@X.com"
              1 400 1) as [H _]; [reflexivity..|].
  exact H.
Defined.

(** ** What a run adds to the collection *)

#[local] Instance grown_refl : Reflexive grown.
Proof.
  intros [i w]. exists [], []. rewrite !app_nil_r. repeat split; try done; cbn; lia.
Qed.

Lemma posts_app evs evs' : posts (evs ++ evs') = (posts evs + posts evs')%nat.
Proof. unfold posts. by rewrite List.filter_app, length_app. Qed.

Lemma inserts_app evs evs' : inserts (evs ++ evs') = (inserts evs + inserts evs')%nat.
Proof. unfold inserts. by rewrite List.filter_app, length_app. Qed.

Lemma lookups_app evs evs' : lookups (evs ++ evs') = (lookups evs + lookups evs')%nat.
Proof. unfold lookups. by rewrite lookupsOf_app, length_app. Qed.

#[local] Instance grown_trans : Transitive grown.
Proof.
  intros [i1 w1] [i2 w2] [i3 w3] (docs & evs & Hs & Hd & Htr & Hc & Hp)
    (docs' & evs' & Hs' & Hd' & Htr' & Hc' & Hp').
  cbn [fst snd] in *. exists (docs ++ docs'), (evs ++ evs'). cbn [fst snd].
  rewrite Hs', Hs, Htr', Htr, !app_assoc.
  rewrite length_app, inserts_app, posts_app, lookups_app.
  repeat split; try done; [by apply Forall_app|lia..].
Qed.


Lemma enrichRow_grown startRange endRange row : respects grown (enrichRow startRange endRange row).
Proof.
  intros idx w.
  destruct (enrichRow_cases startRange endRange row idx w) as (_ & _ & H).
  cbn zeta in H. unfold grown. cbn [fst snd].
  destruct (inRange _ _ _).
  2:{ rewrite H. exists [], []. rewrite !app_nil_r. repeat split; try done; cbn; lia. }
  destruct (row !! "customer_email") as [raw|];
    repeat case_match; rewrite H; cbn [store trace withClock noted withTrace withStore issued];
    rewrite <- ?app_assoc;
    (first [ eexists [], _; rewrite app_nil_r; split; [reflexivity|]
           | eexists [_], _; split; [reflexivity|] ]);
    (split; [repeat constructor; by eexists _, _, _|]);
    (split; [reflexivity|]); cbn; lia.
Qed.

Lemma enrichLoop_grown startRange endRange rows :
  respects grown (enrichLoop startRange endRange rows).
Proof.
  induction rows as [|row rows IH]; cbn.
  - apply respects_ret. apply _.
  - apply respects_bind; [apply _| |done]. apply enrichRow_grown.
Qed.


(** ** The shape of a run *)

Lemma processEmails_shape startRange endRange w rows :
  nextFault w = None →
  csvFile w = Some rows →
  let loop := enrichLoop startRange endRange rows 0 (opened w) in
  let out := runProcessEmails startRange endRange w in
  store (worldOf out) = store (worldOf loop)
  ∧ ∃ evs, trace (worldOf out) = trace (worldOf loop) ++ evs
           ∧ (evs = [EClose] ∨ evs = [EClose; ELog LClosed]).
Proof.
  intros Hf Hcsv. cbn zeta. unfold runProcessEmails, opened.
  rewrite processEmails_unfold, Hf, Hcsv. cbn zeta.
  set (w2 := noted EReadCsv _).
  destruct (enrichLoop_events startRange endRange rows 0 w2) as (Hr & _).
  cbn zeta in *. unfold tryFinally, tryCatch, resultOf, localsOf, worldOf in *.
  destruct (enrichLoop startRange endRange rows 0 w2) as [[r l'] w'].
  cbn in Hr. subst r. rewrite closing_eq.
  destruct (nextFault w'); cbn [fst snd]; (split; [done|]); eexists;
    (split; [cbn; rewrite <- ?app_assoc; reflexivity|]); auto.
Qed.

(** ** A run in which no call fails *)

Lemma enrichRow_faultless startRange endRange row idx w :
  faultless w → faultless (worldOf (enrichRow startRange endRange row idx w)).
Proof.
  intros Hw.
  destruct (enrichRow_cases startRange endRange row idx w) as (_ & _ & H).
  cbn zeta in H. destruct (inRange _ _ _); [|by rewrite H].
  destruct (row !! "customer_email") as [raw|]; repeat case_match; rewrite H;
    unfold faultless in *; cbn; repeat apply Forall_tl; done.
Qed.

(** After its iteration, the email of a row in range is stored. *)
Lemma enrichRow_stores startRange endRange row idx w raw :
  faultless w →
  inRange startRange endRange (idx + 1) = true →
  row !! "customer_email" = Some raw →
  is_Some (firstMatch (byEmail (Js.toLowerCase raw))
             (store (worldOf (enrichRow startRange endRange row idx w)))).
Proof.
  intros Hw Hin Hraw.
  destruct (enrichRow_cases startRange endRange row idx w) as (_ & _ & H).
  cbn zeta in H. rewrite Hin, Hraw, (faultless_next w Hw) in H.
  destruct (firstMatch (byEmail (Js.toLowerCase raw)) (store w)) as [d|] eqn:Hfound.
  - rewrite H. cbn [store noted withTrace issued]. by rewrite Hfound.
  - rewrite (faultless_next _ (faultless_issued _ w Hw)) in H.
    rewrite (faultless_next _ (faultless_issued _ _ (faultless_issued _ w Hw))) in H.
    rewrite H. cbn [store withClock noted withTrace withStore].
    by rewrite firstMatch_fresh.
Qed.

Lemma enrichLoop_stores startRange endRange rows idx w :
  faultless w →
  ∀ at_row raw,
    at_row ∈ rowsInRange startRange endRange (idx + 1) rows →
    at_row.2 !! "customer_email" = Some raw →
    is_Some (firstMatch (byEmail (Js.toLowerCase raw))
               (store (worldOf (enrichLoop startRange endRange rows idx w)))).
Proof.
  revert idx w. induction rows as [|row rows IH]; intros idx w Hw at_row raw Hin Hraw.
  - by apply elem_of_nil in Hin.
  - cbn [enrichLoop rowsInRange] in *. unfold bind.
    destruct (enrichRow_cases startRange endRange row idx w) as (Hr & Hl & _).
    pose proof (enrichRow_faultless startRange endRange row idx w Hw) as Hw'.
    cbn zeta in *. apply elem_of_app in Hin as [Hin|Hin].
    + destruct (inRange startRange endRange (idx + 1)) eqn:Hrange;
        [|by apply elem_of_nil in Hin].
      apply list_elem_of_singleton in Hin as ->. cbn in Hraw.
      pose proof (enrichRow_stores startRange endRange row idx w raw Hw Hrange Hraw)
        as Hstored.
      unfold resultOf, localsOf, worldOf in *.
      destruct (enrichRow startRange endRange row idx w) as [[r l'] w'].
      cbn [fst snd] in *. subst r l'.
      destruct (enrichLoop_grown startRange endRange rows (idx + 1) w')
        as (docs & _ & Hs & _). cbn [fst snd] in Hs.
      unfold worldOf in Hs. rewrite Hs. by apply firstMatch_app.
    + unfold resultOf, localsOf, worldOf in *.
      destruct (enrichRow startRange endRange row idx w) as [[r l'] w'].
      cbn [fst snd] in *. subst r l'. by apply (IH (idx + 1) w' Hw' at_row raw).
Qed.

Lemma processEmails_stores startRange endRange w rows at_row raw :
  faultless w →
  csvFile w = Some rows →
  at_row ∈ rowsInRange startRange endRange 1 rows →
  at_row.2 !! "customer_email" = Some raw →
  is_Some (firstMatch (byEmail (Js.toLowerCase raw))
             (store (worldOf (runProcessEmails startRange endRange w)))).
Proof.
  intros Hw Hcsv Hin Hraw.
  destruct (processEmails_shape startRange endRange w rows (faultless_next w Hw) Hcsv)
    as (Hs & _). cbn zeta in Hs. rewrite Hs.
  apply (enrichLoop_stores startRange endRange rows 0 (opened w)) with (at_row := at_row);
    try done.
  unfold opened. by apply faultless_issued.
Qed.

(** X9. When no call fails, a run of the enrichment-variant leaves the
    lower-cased email of every row of the range in the collection: it was
    stored already, or the run enriched and inserted it. *)
Theorem processEmails_stores_range
    (startRange endRange : Z) (w : World) (rows : list Row) (at_row : Z * Row)
    (raw : string) :
  faultless w →
  csvFile w = Some rows →
  at_row ∈ rowsInRange startRange endRange 1 rows →
  at_row.2 !! "customer_email" = Some raw →
  is_Some (firstMatch (byEmail (Js.toLowerCase raw))
             (store (worldOf (runProcessEmails startRange endRange w)))).
Proof. apply processEmails_stores. Qed.

Lemma processEmails_stores_range_witness :
  is_Some (firstMatch (byEmail "new@x.com")
             (store (worldOf (runProcessEmails 1 400 oneNewWorld)))).
Proof.
  apply (processEmails_stores_range 1 400 oneNewWorld [csvRow "New@X.com" "" ""]
           (1, csvRow "New@X.com" "" "") "New@X.com");
    [by constructor | reflexivity | apply list_elem_of_here | reflexivity].
Defined.

(** ** Running again *)

Lemma enrichRow_idle startRange endRange row idx w :
  allStored (store w) (rowsInRange startRange endRange (idx + 1) [row]) →
  let out := worldOf (enrichRow startRange endRange row idx w) in
  store out = store w
  ∧ ∃ evs, trace out = trace w ++ evs ∧ posts evs = O ∧ inserts evs = O.
Proof.
  intros Hall. cbn zeta.
  destruct (enrichRow_cases startRange endRange row idx w) as (_ & _ & H).
  cbn zeta in H. cbn in Hall.
  destruct (inRange _ _ _).
  2:{ rewrite H. split; [done|]. exists []. by rewrite app_nil_r. }
  destruct (row !! "customer_email") as [raw|] eqn:Hraw.
  - destruct (Hall (idx + 1, row) raw) as [d Hd]; [apply list_elem_of_here|done|].
    rewrite Hd in H. destruct (nextFault w); rewrite H; (split; [done|]);
      eexists; (split; [cbn; rewrite <- ?app_assoc; reflexivity|]); done.
  - rewrite H. split; [done|]. by eexists.
Qed.

Lemma enrichLoop_idle startRange endRange rows idx w :
  allStored (store w) (rowsInRange startRange endRange (idx + 1) rows) →
  let out := worldOf (enrichLoop startRange endRange rows idx w) in
  store out = store w
  ∧ ∃ evs, trace out = trace w ++ evs ∧ posts evs = O ∧ inserts evs = O.
Proof.
  cbn zeta. revert idx w. induction rows as [|row rows IH]; intros idx w Hall.
  - split; [done|]. exists []. by rewrite app_nil_r.
  - cbn [enrichLoop rowsInRange] in *. unfold bind.
    destruct (enrichRow_cases startRange endRange row idx w) as (Hr & Hl & _).
    destruct (enrichRow_idle startRange endRange row idx w) as (Hs & evs & Htr & Hp & Hi).
    { intros at_row raw Hin. apply Hall. cbn in Hin. rewrite app_nil_r in Hin.
      apply elem_of_app. by left. }
    cbn zeta in *. unfold resultOf, localsOf, worldOf in *.
    destruct (enrichRow startRange endRange row idx w) as [[r l'] w'].
    cbn [fst snd] in *. subst r l'.
    destruct (IH (idx + 1) w') as (Hs' & evs' & Htr' & Hp' & Hi').
    { rewrite Hs. intros at_row raw Hin. apply Hall. apply elem_of_app. by right. }
    split; [by rewrite Hs', Hs|]. exists (evs ++ evs').
    rewrite Htr', Htr, app_assoc, posts_app, inserts_app, Hp, Hp', Hi, Hi'. done.
Qed.

Lemma processEmails_idle startRange endRange w rows :
  nextFault w = None →
  csvFile w = Some rows →
  allStored (store w) (rowsInRange startRange endRange 1 rows) →
  let out := worldOf (runProcessEmails startRange endRange w) in
  store out = store w ∧ posts (newEvents w out) = O ∧ inserts (newEvents w out) = O.
Proof.
  intros Hf Hcsv Hall. cbn zeta.
  destruct (processEmails_shape startRange endRange w rows Hf Hcsv)
    as (Hs & evs & Htr & Hev). cbn zeta in *.
  destruct (enrichLoop_idle startRange endRange rows 0 (opened w) Hall)
    as (Hs' & evs' & Htr' & Hp & Hi). cbn zeta in *.
  split; [by rewrite Hs, Hs'|].
  erewrite newEvents_app;
    [|rewrite Htr, Htr'; unfold opened; cbn; rewrite <- !app_assoc; reflexivity].
  change (?a :: ?b :: ?c :: evs' ++ evs) with ([a; b; c] ++ evs' ++ evs).
  rewrite !posts_app, !inserts_app, Hp, Hi.
  by destruct Hev as [-> | ->].
Qed.

(** X10. A run of the enrichment-variant over rows whose emails are all
    stored already makes no call to the match API and no insert, and leaves
    the collection as it is, whatever the environment answers to its
    lookups. *)
Theorem processEmails_nothing_to_do
    (startRange endRange : Z) (w : World) (rows : list Row) :
  nextFault w = None →
  csvFile w = Some rows →
  allStored (store w) (rowsInRange startRange endRange 1 rows) →
  let out := worldOf (runProcessEmails startRange endRange w) in
  store out = store w ∧ posts (newEvents w out) = O ∧ inserts (newEvents w out) = O.
Proof. apply processEmails_idle. Qed.

Lemma processEmails_nothing_to_do_witness :
  posts (newEvents knownWorld (worldOf (runProcessEmails 1 400 knownWorld))) = O.
Proof.
  apply (processEmails_nothing_to_do 1 400 knownWorld [csvRow "A@X.com" "" ""]);
    [reflexivity..|].
  intros at_row raw Hin Hraw. apply list_elem_of_singleton in Hin as ->.
  injection Hraw as <-. by eexists.
Defined.

(** X11. Running the enrichment-variant twice: after a first run in which
    no call failed, a second run over the same CSV and the same range, in
    any environment that lets it connect, makes no call to the match API
    and no insert, and leaves the collection as the first run left it. *)
Theorem processEmails_rerun
    (startRange endRange : Z) (w w' : World) (rows : list Row) :
  faultless w →
  csvFile w = Some rows →
  let first := worldOf (runProcessEmails startRange endRange w) in
  store w' = store first →
  csvFile w' = Some rows →
  nextFault w' = None →
  let second := worldOf (runProcessEmails startRange endRange w') in
  store second = store first
  ∧ posts (newEvents w' second) = O ∧ inserts (newEvents w' second) = O.
Proof.
  intros Hw Hcsv first Hs Hcsv' Hf' second. subst first second.
  rewrite <- Hs. apply (processEmails_idle startRange endRange w' rows); [done..|].
  intros at_row raw Hin Hraw. rewrite Hs.
  by apply (processEmails_stores startRange endRange w rows at_row raw).
Qed.

Lemma processEmails_rerun_witness :
  let second := worldOf (runProcessEmails 1 400 enrichedWorld) in
  store second = store (worldOf (runProcessEmails 1 400 oneNewWorld))
  ∧ posts (newEvents enrichedWorld second) = O.
Proof.
  destruct (processEmails_rerun 1 400 oneNewWorld enrichedWorld [csvRow "New@X.com" "" ""])
    as (Hs & Hp & _);
    [by constructor | reflexivity | vm_compute; reflexivity | reflexivity | reflexivity |].
  split; [exact Hs|exact Hp].
Defined.

(** * The connection *)

#[local] Instance sessionFree_refl {L} : Reflexive (@sessionFree L).
Proof. intros [l w]. exists []. by rewrite app_nil_r. Qed.

#[local] Instance sessionFree_trans {L} : Transitive (@sessionFree L).
Proof.
  intros [l1 w1] [l2 w2] [l3 w3] (evs & Htr & H) (evs' & Htr' & H').
  cbn [fst snd] in *. exists (evs ++ evs'). cbn [fst snd].
  by rewrite Htr', Htr, app_assoc, List.filter_app, H, H'.
Qed.

Lemma sessionFree_noted {L} e (l l' : L) w :
  isSession e = false → sessionFree (l, w) (l', noted e w).
Proof. intros He. exists [e]. cbn. by rewrite He. Qed.

Lemma sessionFree_issued {L} e (l l' : L) w :
  isSession e = false → sessionFree (l, w) (l', issued e w).
Proof. intros He. exists [e]. cbn. by rewrite He. Qed.

Lemma sessionFree_log {L} x : respects (@sessionFree L) (log x).
Proof. intros l w. rewrite log_eq. by apply sessionFree_noted. Qed.

(** ** Computations that do not end the process *)

Section Settles.
Context {L : Type}.

Lemma settles_ret {A} (a : A) : settles (L:=L) (ret a).
Proof. by intros l w e. Qed.

Lemma settles_throw {A} e : settles (L:=L) (throw (A:=A) e).
Proof. by intros l w e'. Qed.

Lemma settles_bind {A B} (m : M L A) (k : A → M L B) :
  settles m → (∀ a, settles (k a)) → settles (bind m k).
Proof.
  intros Hm Hk l w e. specialize (Hm l w). unfold bind, resultOf in *.
  destruct (m l w) as [[[a|e'|e'] l'] w']; cbn in *; [apply Hk|done|].
  intros [= <-]. by apply (Hm e').
Qed.

Lemma settles_if {A} (b : bool) (m1 m2 : M L A) :
  settles m1 → settles m2 → settles (if b then m1 else m2).
Proof. by destruct b. Qed.

Lemma settles_log x : settles (L:=L) (log x).
Proof. intros l w e. by rewrite log_eq. Qed.

Lemma settles_driver {A} ev (k : M L A) : settles k → settles (driver ev k).
Proof.
  intros Hk l w e. rewrite driver_eq. destruct (nextFault w); [done|]. apply Hk.
Qed.

Lemma settles_countDocuments f : settles (L:=L) (countDocuments f).
Proof. intros l w e. rewrite countDocuments_eq. by destruct (nextFault w). Qed.

Lemma settles_findLimit f n : settles (L:=L) (findLimit f n).
Proof. intros l w e. rewrite findLimit_eq. by destruct (nextFault w). Qed.

Lemma settles_forEach {A} (body : nat → A → M L unit) xs :
  (∀ i x, settles (body i x)) → ∀ i, settles (forEach body i xs).
Proof.
  intros Hb. induction xs as [|x xs IH]; intros i; cbn.
  - apply settles_ret.
  - apply settles_bind; [apply Hb | intros _; apply IH].
Qed.

Lemma settles_tryCatch {A} (m : M L A) (h : Js.Exn → M L A) :
  settles m → (∀ e, settles (h e)) → settles (tryCatch m h).
Proof.
  intros Hm Hh l w e. specialize (Hm l w). unfold tryCatch, resultOf in *.
  destruct (m l w) as [[[a|e'|e'] l'] w']; cbn in *; [done|apply Hh|].
  intros [= <-]. by apply (Hm e').
Qed.
End Settles.

Lemma updateLoop_settles len rows : settles (updateLoop len rows).
Proof.
  intros s w e. destruct (updateLoop_ok len rows s w) as [Hr _]. cbn zeta in Hr.
  by rewrite Hr.
Qed.

Lemma updateSummary_settles : settles updateSummary.
Proof.
  intros s w e. rewrite updateSummary_run. cbn zeta. by destruct (nextFault w).
Qed.

Lemma enrichLoop_settles startRange endRange rows :
  settles (enrichLoop startRange endRange rows).
Proof.
  intros idx w e.
  destruct (enrichLoop_events startRange endRange rows idx w) as (Hr & _).
  cbn zeta in Hr. by rewrite Hr.
Qed.

Lemma reportCounts_settles : settles reportCounts.
Proof.
  unfold reportCounts.
  repeat first
    [ apply settles_bind; [|intros ?]
    | apply settles_countDocuments
    | apply settles_log
    | apply settles_if
    | apply settles_ret ].
Qed.

Lemma reportSamples_settles a b : settles (reportSamples a b).
Proof.
  assert (Hshow : ∀ i d, settles (showWithInfo i d)).
  { intros i d. unfold showWithInfo. apply settles_bind; [apply settles_log|].
    intros _. destruct (d !! "store_info_updated_at") as [[]|];
      try destruct (truthyValue _);
      first [apply settles_log | apply settles_throw | apply settles_ret]. }
  unfold reportSamples, aggregateStores.
  apply settles_bind; [|intros _; apply settles_bind; [|intros docs]].
  - apply settles_if; [|apply settles_ret].
    apply settles_bind; [apply settles_findLimit|].
    intros docs. by apply settles_forEach.
  - apply settles_findLimit.
  - apply settles_bind; [|intros _].
    + apply settles_if; [|apply settles_ret].
      apply settles_forEach. intros i d. apply settles_log.
    + apply settles_if; [|apply settles_ret].
      apply settles_bind.
      * apply settles_driver. apply settles_bind; [by intros ? ? ?|].
        intros w. apply settles_ret.
      * intros groups. apply settles_forEach. intros i g. apply settles_log.
Qed.

(** What [finally] adds to a computation that leaves the connection
    alone. *)
Lemma session_finally {L A} (body : M L A) l w w0 pre :
  trace w0 = trace w ++ EConnect :: pre →
  List.filter isSession pre = [] →
  respects sessionFree body →
  settles body →
  oneSession (newEvents w (worldOf (tryFinally body closing l w0))).
Proof.
  intros Htr Hpre Hbody Hsettles. destruct (Hbody l w0) as (evs & Hevs & Hfree).
  specialize (Hsettles l w0).
  unfold tryFinally, resultOf, localsOf, worldOf in *.
  destruct (body l w0) as [[r l'] w']. cbn [fst snd] in *.
  assert (Hclosing :
    oneSession (newEvents w (match closing l' w' with
                             | (Ok _, l'', w'') => (r, l'', w'')
                             | (Throw e, l'', w'') => (Throw e, l'', w'')
                             | (Uncaught e, l'', w'') => (Uncaught e, l'', w'')
                             end).2)).
  { rewrite closing_eq. exists (pre ++ evs). rewrite List.filter_app, Hpre, Hfree.
    split; [done|].
    destruct (nextFault w'); cbn [fst snd]; [left|right];
      (erewrite newEvents_app; [|cbn; rewrite Hevs, Htr, <- !app_assoc; cbn; reflexivity]);
      by rewrite <- app_assoc. }
  destruct r as [a|e|e]; [done|done|]. by destruct (Hsettles e).
Qed.

Lemma filter_isSession_progressLines len s : List.filter isSession (progressLines len s) = [].
Proof. unfold progressLines. by case_match. Qed.

Lemma updateRow_sessionFree len row : respects sessionFree (updateRow len row).
Proof.
  intros s w. destruct (Js.truthy (normalizedEmail row)) as [email|] eqn:He.
  - destruct (updateRow_cases len row s w _ He) as [_ H]. cbn zeta in H.
    repeat case_match; destruct H as (_ & _ & Htr);
      eexists; (split; [exact Htr|]); cbn;
      by rewrite ?filter_isSession_progressLines.
  - rewrite (updateRow_missing _ _ _ _ He). by apply sessionFree_noted.
Qed.

Lemma updateLoop_sessionFree len rows : respects sessionFree (updateLoop len rows).
Proof.
  induction rows as [|row rows IH]; cbn.
  - apply respects_ret. apply _.
  - apply respects_bind; [apply _| |done]. apply updateRow_sessionFree.
Qed.

Lemma filter_isSession_logLines {A} (f : nat → A → Line) i xs :
  List.filter isSession (logLines f i xs) = [].
Proof. revert i. induction xs as [|x xs IH]; intros i; cbn; [done|apply IH]. Qed.

Lemma updateSummary_sessionFree : respects sessionFree updateSummary.
Proof.
  intros s w. rewrite updateSummary_run. cbn zeta.
  destruct (nextFault w); eexists;
    (split; [cbn; rewrite <- ?app_assoc; reflexivity|]); cbn;
    by rewrite ?filter_isSession_logLines.
Qed.

Lemma enrichRow_sessionFree startRange endRange row :
  respects sessionFree (enrichRow startRange endRange row).
Proof.
  intros idx w.
  destruct (enrichRow_cases startRange endRange row idx w) as (_ & _ & H).
  cbn zeta in H. unfold sessionFree. cbn [fst snd].
  destruct (inRange _ _ _); [|rewrite H; exists []; by rewrite app_nil_r].
  destruct (row !! "customer_email") as [raw|]; repeat case_match; rewrite H;
    eexists; (split; [cbn; rewrite <- ?app_assoc; reflexivity|]); done.
Qed.

Lemma enrichLoop_sessionFree startRange endRange rows :
  respects sessionFree (enrichLoop startRange endRange rows).
Proof.
  induction rows as [|row rows IH]; cbn.
  - apply respects_ret. apply _.
  - apply respects_bind; [apply _| |done]. apply enrichRow_sessionFree.
Qed.

(** A relation that lets the events of the samples be added to the trace is
    respected by the second half of the report. *)
Section ReportSamples.
Context (R : unit * World → unit * World → Prop) (allowed : Event → Prop).
Context {R_refl : Reflexive R} {R_trans : Transitive R}.
Hypothesis R_noted : ∀ e l w, allowed e → R (l, w) (l, noted e w).
Hypothesis R_issued : ∀ e l w, allowed e → R (l, w) (l, issued e w).
Hypothesis allowed_sample : ∀ e, isSampleEvent e = true → allowed e.

Lemma respects_showWithInfo i d : respects R (showWithInfo i d).
Proof.
  unfold showWithInfo. apply respects_bind; [done..| |].
  - apply (respects_log R allowed); auto.
  - intros _. destruct (d !! "store_info_updated_at") as [[]|];
      try destruct (truthyValue _);
      first [ apply (respects_log R allowed); by auto
            | by apply respects_throw | by apply respects_ret ].
Qed.

Lemma respects_reportSamples withStoreId withBothStoreInfo :
  respects R (reportSamples withStoreId withBothStoreInfo).
Proof.
  unfold reportSamples, aggregateStores.
  apply respects_bind; [done..| |intros _; apply respects_bind; [done..| |]].
  - apply respects_if; [|by apply respects_ret].
    apply respects_bind; [done..| |].
    + apply (respects_findLimit R allowed); auto.
    + intros docs. apply respects_forEach; [done..|]. apply respects_showWithInfo.
  - apply (respects_findLimit R allowed); auto.
  - intros docs. apply respects_bind; [done..| |intros _].
    + apply respects_if; [|by apply respects_ret].
      apply respects_forEach; [done..|]. intros i d.
      apply (respects_log R allowed); auto.
    + apply respects_if; [|by apply respects_ret].
      apply respects_bind; [done..| |].
      * apply (respects_driver R allowed); auto.
        apply respects_bind; [done..|by apply respects_getWorld|].
        intros w. by apply respects_ret.
      * intros groups. apply respects_forEach; [done..|]. intros i g.
        apply (respects_log R allowed); auto.
Qed.
End ReportSamples.

Lemma verifyStoreInfo_unfold u w :
  verifyStoreInfo u w =
  match nextFault w with
  | Some msg =>
      tryFinally (log (LFatal (Js.DriverError msg))) closing u (issued EConnect w)
  | None =>
      tryFinally
        (tryCatch (counts <- reportCounts;; reportSamples (fst counts) (snd counts))
                  (λ error, log (LFatal error)))
        closing u (noted (ELog LConnected) (issued EConnect w))
  end.
Proof.
  unfold verifyStoreInfo. js_open. rewrite connect_eq.
  destruct (nextFault w); cbn; [done|]. by rewrite log_eq.
Qed.

Lemma reportCounts_sessionFree : respects sessionFree reportCounts.
Proof.
  assert (Hcount : ∀ f, respects (@sessionFree unit) (countDocuments f)).
  { intros f. apply (respects_countDocuments sessionFree (λ e, isSession e = false)); [|done].
    intros. by apply sessionFree_issued. }
  unfold reportCounts.
  repeat first
    [ apply respects_bind; [apply _| |intros ?]
    | apply Hcount
    | apply sessionFree_log
    | apply respects_if
    | apply respects_ret; apply _ ].
Qed.

Lemma reportSamples_sessionFree a b : respects sessionFree (reportSamples a b).
Proof.
  apply (respects_reportSamples sessionFree (λ e, isSession e = false)).
  - intros. by apply sessionFree_noted.
  - intros. by apply sessionFree_issued.
  - by intros [].
Qed.

Lemma updateStoreInfo_session w :
  ¬ unreadable w → oneSession (newEvents w (worldOf (runUpdateStoreInfo w))).
Proof.
  intros Hw. unfold runUpdateStoreInfo. rewrite updateStoreInfo_unfold.
  destruct (nextFault w) eqn:Hf.
  { apply (session_finally _ _ _ _ []);
      [done|done|apply sessionFree_log|apply settles_log]. }
  cbn zeta. destruct (csvFile w) as [rows|] eqn:Hcsv; [|by destruct Hw].
  apply (session_finally _ _ _ _ [ELog LConnected; EReadCsv; ELog (LLoaded (length rows))]).
  - cbn. by rewrite <- !app_assoc.
  - done.
  - apply respects_tryCatch; [apply _| |intros e; apply sessionFree_log].
    apply respects_bind; [apply _|apply updateLoop_sessionFree|].
    intros _. apply updateSummary_sessionFree.
  - apply settles_tryCatch; [|intros e; apply settles_log].
    apply settles_bind; [apply updateLoop_settles|intros _; apply updateSummary_settles].
Qed.

Lemma processEmails_session startRange endRange w :
  ¬ unreadable w →
  oneSession (newEvents w (worldOf (runProcessEmails startRange endRange w))).
Proof.
  intros Hw. unfold runProcessEmails. rewrite processEmails_unfold.
  destruct (nextFault w) eqn:Hf.
  { apply (session_finally _ _ _ _ []);
      [done|done|apply sessionFree_log|apply settles_log]. }
  cbn zeta. destruct (csvFile w) as [rows|] eqn:Hcsv; [|by destruct Hw].
  apply (session_finally _ _ _ _ [ELog LConnected; EReadCsv]);
    [cbn; by rewrite <- !app_assoc|done| |].
  - apply respects_tryCatch; [apply _| |intros e; apply sessionFree_log].
    apply enrichLoop_sessionFree.
  - apply settles_tryCatch; [apply enrichLoop_settles|intros e; apply settles_log].
Qed.

Lemma verifyStoreInfo_session w :
  oneSession (newEvents w (worldOf (runVerifyStoreInfo w))).
Proof.
  unfold runVerifyStoreInfo. rewrite verifyStoreInfo_unfold.
  destruct (nextFault w).
  { apply (session_finally _ _ _ _ []);
      [done|done|apply sessionFree_log|apply settles_log]. }
  apply (session_finally _ _ _ _ [ELog LConnected]);
    [cbn; by rewrite <- !app_assoc|done| |].
  - apply respects_tryCatch; [apply _| |intros e; apply sessionFree_log].
    apply respects_bind; [apply _|apply reportCounts_sessionFree|].
    intros counts. apply reportSamples_sessionFree.
  - apply settles_tryCatch; [|intros e; apply settles_log].
    apply settles_bind; [apply reportCounts_settles|intros counts; apply reportSamples_settles].
Qed.

Lemma updateStoreInfo_leftOpen w :
  unreadable w → newEvents w (worldOf (runUpdateStoreInfo w)) = leftOpen.
Proof. intros [Hf Hcsv]. by destruct (updateStoreInfo_unreadable w Hf Hcsv) as (_ & _ & ?). Qed.

Lemma processEmails_leftOpen startRange endRange w :
  unreadable w → newEvents w (worldOf (runProcessEmails startRange endRange w)) = leftOpen.
Proof.
  intros [Hf Hcsv].
  by destruct (processEmails_unreadable startRange endRange w Hf Hcsv) as (_ & _ & ?).
Qed.

(** X12. The connection of a run.  Every run of the report, and every run
    of the two CSV scripts but those that connect and cannot read the CSV,
    opens the connection first and closes it last, once each, whatever
    fails: no call to storage or to the match API comes before the
    [connect] or after the [close], and the [close] of the [finally] block
    is issued also when the connection or a later call fails.  A run of a
    CSV script that connects and cannot read the CSV ends with the
    connection open: it connects, logs that, opens the file, and [close]
    is never issued. *)
Theorem one_session_per_run :
  (∀ w : World,
     let evs := newEvents w (worldOf (runUpdateStoreInfo w)) in
     (¬ unreadable w → oneSession evs) ∧ (unreadable w → evs = leftOpen))
  ∧ (∀ (startRange endRange : Z) (w : World),
       let evs := newEvents w (worldOf (runProcessEmails startRange endRange w)) in
       (¬ unreadable w → oneSession evs) ∧ (unreadable w → evs = leftOpen))
  ∧ (∀ w : World, oneSession (newEvents w (worldOf (runVerifyStoreInfo w)))).
Proof.
  split; [|split].
  - intros w. split; [apply updateStoreInfo_session|apply updateStoreInfo_leftOpen].
  - intros startRange endRange w.
    split; [apply processEmails_session|apply processEmails_leftOpen].
  - apply verifyStoreInfo_session.
Qed.

Lemma one_session_per_run_witness :
  oneSession (newEvents sampleWorld (worldOf (runUpdateStoreInfo sampleWorld)))
  ∧ newEvents emptyWorld (worldOf (runProcessEmails 1 400 emptyWorld))
    = [EConnect; ELog LConnected; EReadCsv].
Proof.
  destruct one_session_per_run as (HU & HE & _).
  destruct (HU sampleWorld) as [Hclosed _].
  destruct (HE 1 400 emptyWorld) as [_ Hopen].
  split.
  - apply Hclosed. intros [_ Hcsv]. discriminate Hcsv.
  - apply Hopen. split; reflexivity.
Defined.

(** * What escapes a script *)









(** * The report *)

(** ** A logic for computations that only read the collection *)

Section Reports.
Context (P : list Doc → Event → Prop) (st : list Doc).

Lemma reports_ret {A} (a : A) (Q : A → Prop) : Q a → reports P st (ret a) Q.
Proof.
  intros HQ l w Hst. cbn. split; [done|]. split.
  - exists []. by rewrite app_nil_r.
  - by intros a' [= <-].
Qed.

Lemma reports_throw {A} e (Q : A → Prop) : reports P st (throw e) Q.
Proof.
  intros l w Hst. cbn. split; [done|]. split; [|done].
  exists []. by rewrite app_nil_r.
Qed.

Lemma reports_weaken {A} (m : M unit A) (Q Q' : A → Prop) :
  reports P st m Q → (∀ a, Q a → Q' a) → reports P st m Q'.
Proof.
  intros Hm HQ l w Hst. destruct (Hm l w Hst) as (H1 & H2 & H3).
  split; [done|]. split; [done|]. intros a Ha. by apply HQ, H3.
Qed.

Lemma reports_bind {A B} (m : M unit A) (f : A → M unit B) Q Q' :
  reports P st m Q → (∀ a, Q a → reports P st (f a) Q') → reports P st (bind m f) Q'.
Proof.
  intros Hm Hf l w Hst. destruct (Hm l w Hst) as (H1 & (evs & Htr & Hevs) & H3).
  unfold bind, resultOf, worldOf in *. destruct (m l w) as [[[a|e|e] l'] w']; cbn in *.
  - destruct (Hf a (H3 a eq_refl) l' w' H1) as (H1' & (evs' & Htr' & Hevs') & H3').
    unfold resultOf, worldOf in *. split; [done|]. split; [|done].
    exists (evs ++ evs'). rewrite Htr', Htr, app_assoc. split; [done|].
    by apply Forall_app.
  - split; [done|]. split; [|done]. by exists evs.
  - split; [done|]. split; [|done]. by exists evs.
Qed.

Lemma reports_if {A} (b : bool) (m1 m2 : M unit A) Q :
  reports P st m1 Q → reports P st m2 Q → reports P st (if b then m1 else m2) Q.
Proof. by destruct b. Qed.

Lemma reports_log x : P st (ELog x) → reports P st (log x) (λ _, True).
Proof.
  intros HP l w Hst. rewrite log_eq. cbn. split; [done|]. split; [|done].
  exists [ELog x]. split; [done|]. by constructor.
Qed.

Lemma reports_driver {A} e (k : M unit A) Q :
  P st e → reports P st k Q → reports P st (driver e k) Q.
Proof.
  intros HP Hk l w Hst. rewrite driver_eq. destruct (nextFault w).
  - cbn. split; [done|]. split; [|done]. exists [e]. split; [done|]. by constructor.
  - destruct (Hk l (issued e w) Hst) as (H1 & (evs & Htr & Hevs) & H3).
    split; [done|]. split; [|done].
    exists (e :: evs). rewrite Htr. cbn. rewrite <- app_assoc. split; [done|].
    by constructor.
Qed.

Lemma reports_countDocuments f :
  P st (ECountDocuments f) → reports P st (countDocuments f) (λ n, n = count f st).
Proof.
  intros HP l w Hst. rewrite countDocuments_eq. destruct (nextFault w); cbn;
    (split; [done|]); (split; [exists [ECountDocuments f]; split; [done|by constructor]|]);
    [done|].
  intros a [= <-]. by rewrite Hst.
Qed.

Lemma reports_findLimit f n :
  P st (EFind f n) →
  reports P st (findLimit f n) (λ docs, docs = take n (List.filter (matches f) st)).
Proof.
  intros HP l w Hst. rewrite findLimit_eq. destruct (nextFault w); cbn;
    (split; [done|]); (split; [exists [EFind f n]; split; [done|by constructor]|]);
    [done|].
  intros a [= <-]. by rewrite Hst.
Qed.

Lemma reports_aggregateStores :
  P st EAggregate → reports P st aggregateStores (λ gs, gs = topStores st).
Proof.
  intros HP l w Hst. unfold aggregateStores. rewrite driver_eq.
  destruct (nextFault w); cbn;
    (split; [done|]); (split; [exists [EAggregate]; split; [done|by constructor]|]);
    [done|].
  intros a [= <-]. by rewrite Hst.
Qed.

(** The callback of a [forEach] is run on each element with its index. *)
Lemma reports_forEach {A} (body : nat → A → M unit unit) xs i :
  (∀ k x, xs !! k = Some x → reports P st (body (i + k)%nat x) (λ _, True)) →
  reports P st (forEach body i xs) (λ _, True).
Proof.
  revert i. induction xs as [|x xs IH]; intros i Hb; cbn.
  - by apply reports_ret.
  - eapply reports_bind.
    + specialize (Hb O x eq_refl). by rewrite Nat.add_0_r in Hb.
    + intros _ _. apply IH. intros k y Hk.
      replace (S i + k)%nat with (i + S k)%nat by lia. by apply Hb.
Qed.

Lemma reports_tryCatch {A} (body : M unit A) handler Q :
  reports P st body Q → (∀ e, reports P st (handler e) Q) →
  reports P st (tryCatch body handler) Q.
Proof.
  intros Hm Hh l w Hst. destruct (Hm l w Hst) as (H1 & (evs & Htr & Hevs) & H3).
  unfold tryCatch, resultOf, worldOf in *. destruct (body l w) as [[[a|e|e] l'] w']; cbn in *.
  - split; [done|]. split; [|done]. by exists evs.
  - destruct (Hh e l' w' H1) as (H1' & (evs' & Htr' & Hevs') & H3').
    unfold resultOf, worldOf in *. split; [done|]. split; [|done].
    exists (evs ++ evs'). rewrite Htr', Htr, app_assoc. split; [done|].
    by apply Forall_app.
  - split; [done|]. split; [|done]. by exists evs.
Qed.

Lemma reports_tryFinally {A} (body : M unit A) final Q :
  reports P st body Q → reports P st final (λ _, True) →
  reports P st (tryFinally body final) Q.
Proof.
  intros Hm Hf l w Hst. destruct (Hm l w Hst) as (H1 & (evs & Htr & Hevs) & H3).
  unfold tryFinally, resultOf, worldOf in *. destruct (body l w) as [[r l'] w']; cbn in *.
  destruct (Hf l' w' H1) as (H1' & (evs' & Htr' & Hevs') & _).
  unfold resultOf, worldOf in *.
  destruct r as [a|e|e];
    [| |split; [done|]; split; [|done]; by exists evs];
    destruct (final l' w') as [[[[]|e'|e'] l''] w'']; cbn in *;
    (split; [done|]); (split; [|done]);
    exists (evs ++ evs'); rewrite Htr', Htr, app_assoc; (split; [done|]);
    by apply Forall_app.
Qed.

Lemma reports_closing :
  P st EClose → P st (ELog LClosed) → reports P st closing (λ _, True).
Proof.
  intros H1 H2 l w Hst. rewrite closing_eq. destruct (nextFault w); cbn;
    (split; [done|]); (split; [|done]).
  - exists [EClose]. split; [done|]. by constructor.
  - exists [EClose; ELog LClosed]. rewrite <- app_assoc. split; [done|].
    by repeat constructor.
Qed.

Lemma reports_connect : P st EConnect → reports P st connect (λ _, True).
Proof.
  intros HP l w Hst. rewrite connect_eq. destruct (nextFault w); cbn;
    (split; [done|]); (split; [|done]); exists [EConnect]; (split; [done|]);
    by constructor.
Qed.
End Reports.

(** ** The lines of the report *)

Lemma count_all st : count FAll st = length st.
Proof.
  unfold count. induction st as [|d st IH]; [done|].
  change (List.filter (matches FAll) (d :: st))
    with (d :: List.filter (matches FAll) st). cbn [length]. by f_equal.
Qed.

Lemma reportCounts_describes st :
  reports describes st reportCounts
    (λ counts, counts = (count (FExists "external_store_id" true) st, count hasBoth st)).
Proof.
  unfold reportCounts.
  eapply reports_bind; [by apply reports_countDocuments|intros ? ->].
  eapply reports_bind; [apply reports_log; unfold describes; apply count_all|intros _ _].
  eapply reports_bind; [by apply reports_countDocuments|intros ? ->].
  eapply reports_bind; [by apply reports_countDocuments|intros ? ->].
  eapply reports_bind; [by apply reports_countDocuments|intros ? ->].
  eapply reports_bind; [apply reports_log; unfold describes; by rewrite count_all|intros _ _].
  eapply reports_bind; [|intros _ _; by apply reports_ret].
  apply reports_if; [by apply reports_log|by apply reports_ret].
Qed.

Lemma showWithInfo_describes st k d :
  take 5 (List.filter (matches hasBoth) st) !! k = Some d →
  reports describes st (showWithInfo (0 + k) d) (λ _, True).
Proof.
  intros Hk. unfold showWithInfo.
  eapply reports_bind.
  - apply reports_log. cbn. split; [lia|]. by rewrite Nat.sub_0_r.
  - intros _ _. destruct (d !! "store_info_updated_at") as [[]|];
      try destruct (truthyValue _);
      first [by apply reports_log | by apply reports_throw | by apply reports_ret].
Qed.

Lemma reportSamples_describes st withStoreId withBothStoreInfo :
  reports describes st (reportSamples withStoreId withBothStoreInfo) (λ _, True).
Proof.
  unfold reportSamples.
  eapply reports_bind with (Q := λ _, True).
  { apply reports_if; [|by apply reports_ret].
    eapply reports_bind; [by apply reports_findLimit|intros ? ->].
    apply reports_forEach. intros k d Hk. by apply showWithInfo_describes. }
  intros _ _.
  eapply reports_bind; [by apply reports_findLimit|intros ? ->].
  eapply reports_bind with (Q := λ _, True).
  { apply reports_if; [|by apply reports_ret].
    apply reports_forEach. intros k d Hk. apply reports_log. cbn.
    split; [lia|]. by rewrite Nat.sub_0_r. }
  intros _ _.
  apply reports_if; [|by apply reports_ret].
  eapply reports_bind; [by apply reports_aggregateStores|intros ? ->].
  apply reports_forEach. intros k [[name id] n] Hk. apply reports_log. cbn.
  split; [lia|]. exists name. by rewrite Nat.sub_0_r.
Qed.

Lemma verifyStoreInfo_reports st :
  reports describes st verifyStoreInfo (λ _, True).
Proof.
  unfold verifyStoreInfo.
  apply reports_tryFinally; [|by apply reports_closing].
  apply reports_tryCatch; [|intros e; by apply reports_log].
  eapply reports_bind; [by apply reports_connect|intros _ _].
  eapply reports_bind; [by apply reports_log|intros _ _].
  eapply reports_bind; [apply reportCounts_describes|intros counts _].
  apply reportSamples_describes.
Qed.

(** Every event of a report comes from the collection the report was
    started on. *)
Lemma verifyStoreInfo_describes w e :
  e ∈ newEvents w (worldOf (runVerifyStoreInfo w)) → describes (store w) e.
Proof.
  destruct (verifyStoreInfo_reports (store w) tt w eq_refl) as (_ & (evs & Htr & Hevs) & _).
  unfold runVerifyStoreInfo. rewrite (newEvents_app _ _ _ Htr).
  rewrite Forall_forall in Hevs. apply Hevs.
Qed.

(** ** Counting *)

Lemma counts_consistent st :
  (count hasBoth st ≤ count (FExists "external_store_id" true) st ≤ length st)%nat
  ∧ (count hasBoth st ≤ count (FExists "store_name" true) st ≤ length st)%nat
  ∧ (count (FExists "external_store_id" true) st + count (FExists "store_name" true) st
     ≤ count hasBoth st + length st)%nat
  ∧ (count hasBoth st + count lacksOne st = length st)%nat.
Proof.
  unfold count. induction st as [|d st IH]; [cbn; lia|].
  cbn [List.filter matches hasBoth lacksOne].
  destruct (d !! "external_store_id"), (d !! "store_name"); cbn in *; lia.
Qed.


(** ** Grouping and sorting *)

Lemma tally_addToGroup k k' gs :
  tally k (addToGroup k' gs) = if decide (k = k') then S (tally k gs) else tally k gs.
Proof.
  induction gs as [|[k'' n] gs IH]; cbn.
  - by destruct (decide (k = k')).
  - destruct (decide (k' = k'')) as [->|Hne]; cbn.
    + by destruct (decide (k = k'')).
    + rewrite IH. destruct (decide (k = k'')) as [->|]; [|done].
      by rewrite decide_False.
Qed.

Lemma tally_groups k docs acc :
  tally k (foldl (λ gs (d : Doc), match d !! "store_name" with
                          | Some name => addToGroup (name, d !! "external_store_id") gs
                          | None => gs
                          end) acc docs)
  = (tally k acc + length (List.filter (ofStore k) docs))%nat.
Proof.
  revert acc. induction docs as [|d docs IH]; intros acc; cbn [foldl List.filter].
  - cbn. lia.
  - rewrite IH. unfold ofStore at 2. destruct k as [name id]. cbn [fst snd].
    destruct (d !! "store_name") as [name'|] eqn:Hname.
    + rewrite tally_addToGroup. destruct (decide _) as [[= -> ->]|Hne].
      * rewrite bool_decide_true by done. cbn. lia.
      * rewrite bool_decide_false; [done|]. intros [[= ->] <-]. done.
    + rewrite bool_decide_false; [done|]. by intros [? _].
Qed.

Lemma tally_groupStores k st : tally k (groupStores st) = length (List.filter (ofStore k) st).
Proof. unfold groupStores. by rewrite tally_groups. Qed.

Lemma keys_addToGroup k gs :
  (addToGroup k gs).*1 = if decide (k ∈ gs.*1) then gs.*1 else gs.*1 ++ [k].
Proof.
  induction gs as [|[k' n] gs IH]; cbn.
  - rewrite decide_False; [done|]. apply not_elem_of_nil.
  - destruct (decide (k = k')) as [->|Hne]; cbn.
    + rewrite decide_True; [done|]. apply list_elem_of_here.
    + rewrite IH. destruct (decide (k ∈ gs.*1)) as [Hin|Hout].
      * rewrite decide_True; [done|]. by apply list_elem_of_further.
      * rewrite decide_False; [done|]. by intros [|]%elem_of_cons.
Qed.

Lemma keys_groups_NoDup docs acc :
  NoDup acc.*1 →
  NoDup (foldl (λ gs (d : Doc), match d !! "store_name" with
                        | Some name => addToGroup (name, d !! "external_store_id") gs
                        | None => gs
                        end) acc docs).*1.
Proof.
  revert acc. induction docs as [|d docs IH]; intros acc Hacc; cbn [foldl]; [done|].
  apply IH. destruct (d !! "store_name"); [|done].
  rewrite keys_addToGroup. destruct (decide _) as [|Hout]; [done|].
  apply NoDup_app. split; [done|]. split; [|apply NoDup_singleton].
  intros x Hx ->%list_elem_of_singleton. done.
Qed.

Lemma positive_addToGroup k gs :
  Forall (λ g, (1 ≤ g.2)%nat) gs → Forall (λ g, (1 ≤ g.2)%nat) (addToGroup k gs).
Proof.
  induction 1 as [|[k' n] gs Hn Hgs IH]; cbn.
  - by repeat constructor.
  - destruct (decide (k = k')); constructor; cbn in *; first [lia | done].
Qed.

Lemma positive_groups docs acc :
  Forall (λ g, (1 ≤ g.2)%nat) acc →
  Forall (λ g, (1 ≤ g.2)%nat)
    (foldl (λ gs (d : Doc), match d !! "store_name" with
                    | Some name => addToGroup (name, d !! "external_store_id") gs
                    | None => gs
                    end) acc docs).
Proof.
  revert acc. induction docs as [|d docs IH]; intros acc Hacc; cbn [foldl]; [done|].
  apply IH. destruct (d !! "store_name"); [|done]. by apply positive_addToGroup.
Qed.

Lemma tally_elem k n gs : NoDup gs.*1 → (k, n) ∈ gs → tally k gs = n.
Proof.
  induction gs as [|[k' n'] gs IH]; cbn; intros Hnd Hin.
  - by apply elem_of_nil in Hin.
  - apply NoDup_cons in Hnd as [Hout Hnd].
    apply elem_of_cons in Hin as [[= <- <-]|Hin].
    + by rewrite decide_True.
    + rewrite decide_False; [by apply IH|]. intros <-. apply Hout.
      apply list_elem_of_fmap. by exists (k, n).
Qed.

Lemma insertByCount_perm g gs : insertByCount g gs ≡ₚ g :: gs.
Proof.
  induction gs as [|h gs IH]; cbn [insertByCount]; [reflexivity|].
  destruct (h.2 <? g.2)%nat; [reflexivity|]. rewrite IH. apply Permutation_swap.
Qed.

Lemma sortByCount_perm_acc gs acc : foldl (λ acc g, insertByCount g acc) acc gs ≡ₚ acc ++ gs.
Proof.
  revert acc. induction gs as [|g gs IH]; intros acc; cbn.
  - by rewrite app_nil_r.
  - rewrite IH, insertByCount_perm. by rewrite <- Permutation_middle.
Qed.

Lemma sortByCount_perm gs : sortByCount gs ≡ₚ gs.
Proof. unfold sortByCount. by rewrite sortByCount_perm_acc. Qed.

Lemma insertByCount_descending g gs : descending gs → descending (insertByCount g gs).
Proof.
  induction gs as [|h gs IH]; cbn [insertByCount]; [done|]. intros [Hh Hgs].
  destruct (h.2 <? g.2)%nat eqn:Hlt.
  - apply Nat.ltb_lt in Hlt. cbn. split; [|done].
    constructor; [lia|]. eapply Forall_impl; [exact Hh|]. cbn. intros; lia.
  - apply Nat.ltb_ge in Hlt. cbn. split; [|by apply IH].
    rewrite insertByCount_perm. by constructor.
Qed.

Lemma sortByCount_descending gs : descending (sortByCount gs).
Proof.
  unfold sortByCount. assert (H : descending []) by done. revert H.
  generalize (@nil (GroupKey * nat)). induction gs as [|g gs IH]; intros acc Hacc; cbn; [done|].
  by apply IH, insertByCount_descending.
Qed.

Lemma descending_lookup gs i j g h :
  descending gs → (i ≤ j)%nat → gs !! i = Some g → gs !! j = Some h → (h.2 ≤ g.2)%nat.
Proof.
  revert i j. induction gs as [|x gs IH]; intros i j Hd Hij Hi Hj; [done|].
  destruct Hd as [Hx Hd]. destruct i as [|i], j as [|j]; cbn in *; simplify_eq.
  - done.
  - rewrite Forall_lookup in Hx. by eapply Hx.
  - lia.
  - eapply (IH i j); [done|lia|done..].
Qed.

(** The list of stores of the report: at most ten, the customers of each
    counted from the collection, no store twice, in descending order. *)
Lemma topStores_lookup st i k n :
  topStores st !! i = Some (k, n) →
  (i < 10)%nat ∧ (1 ≤ n)%nat ∧ n = length (List.filter (ofStore k) st).
Proof.
  unfold topStores. intros [Hi Hlt]%lookup_take_Some. split; [done|].
  apply list_elem_of_lookup_2 in Hi. rewrite sortByCount_perm in Hi.
  split.
  - assert (H : Forall (λ g, (1 ≤ g.2)%nat) (groupStores st))
      by (by apply positive_groups).
    rewrite Forall_forall in H. exact (H _ Hi).
  - rewrite <- tally_groupStores. symmetry. apply tally_elem; [|done].
    apply keys_groups_NoDup, NoDup_nil_2.
Qed.

Lemma topStores_descending st i j g h :
  (i ≤ j)%nat → topStores st !! i = Some g → topStores st !! j = Some h → (h.2 ≤ g.2)%nat.
Proof.
  unfold topStores. intros Hij [Hi _]%lookup_take_Some [Hj _]%lookup_take_Some.
  eapply descending_lookup; [apply sortByCount_descending|done..].
Qed.

Lemma topStores_distinct st i j k n n' :
  topStores st !! i = Some (k, n) → topStores st !! j = Some (k, n') → i = j.
Proof.
  intros Hi Hj.
  assert (Hnd : NoDup (topStores st).*1).
  { unfold topStores.
    apply (sublist_NoDup _ (sortByCount (groupStores st)).*1).
    - rewrite sortByCount_perm. apply keys_groups_NoDup, NoDup_nil_2.
    - apply fmap_sublist, sublist_take. }
  eapply NoDup_lookup; [exact Hnd|..]; rewrite list_lookup_fmap.
  - by rewrite Hi.
  - by rewrite Hj.
Qed.

(** X14. The numbers of the report agree with each other and with the
    collection.  In every run, from every world: a total that is printed is
    the number of stored records; in a status line, the records with both
    store fields are at most those with a store id and at most those with a
    store name, which are at most the total; those with a store id and
    those with a store name together are at most the total plus those with
    both; and the number printed for the records without store information
    is not negative and is the number of records that the query of the
    sample WITHOUT store information matches. *)
Theorem verifyStoreInfo_status (w : World) :
  let evs := newEvents w (worldOf (runVerifyStoreInfo w)) in
  let total := length (store w) in
  (∀ n, ELog (LTotal n) ∈ evs → n = total)
  ∧ (∀ withId withName withBoth without,
       ELog (LStatus withId withName withBoth without) ∈ evs →
       (withBoth ≤ withId ≤ total)%nat
       ∧ (withBoth ≤ withName ≤ total)%nat
       ∧ (withId + withName ≤ withBoth + total)%nat
       ∧ 0 ≤ without
       ∧ without = Z.of_nat (count lacksOne (store w))).
Proof.
  cbn zeta. split.
  - intros n Hin. exact (verifyStoreInfo_describes _ _ Hin).
  - intros withId withName withBoth without Hin.
    destruct (verifyStoreInfo_describes _ _ Hin) as (-> & -> & -> & ->).
    pose proof (counts_consistent (store w)). lia.
Qed.

Lemma verifyStoreInfo_status_witness :
  ELog (LStatus 3 3 3 1) ∈ newEvents storesWorld (worldOf (runVerifyStoreInfo storesWorld))
  ∧ 1 = Z.of_nat (count lacksOne (store storesWorld)).
Proof.
  assert (Hin : ELog (LStatus 3 3 3 1)
                  ∈ newEvents storesWorld (worldOf (runVerifyStoreInfo storesWorld))).
  { vm_compute. repeat first [apply list_elem_of_here | apply list_elem_of_further]. }
  split; [exact Hin|].
  destruct (verifyStoreInfo_status storesWorld) as [_ H].
  destruct (H _ _ _ _ Hin) as (_ & _ & _ & _ & Hwithout). exact Hwithout.
Defined.



(** X16. The list of stores of the report.  In every run, from every world,
    a line of the list has a position from 1 to 10 and names a store with
    its number of customers, which is the number of stored records with
    this store name and this store id (or with this name and no store id)
    and is at least one; no later line has more customers, and no other
    line is about the same store. *)
Theorem verifyStoreInfo_stores (w : World) idx name id customers :
  let evs := newEvents w (worldOf (runVerifyStoreInfo w)) in
  ELog (LStore idx name id customers) ∈ evs →
  (1 ≤ idx ≤ 10)%nat
  ∧ (1 ≤ customers)%nat
  ∧ (∃ storeName, name = Some storeName
       ∧ customers = length (List.filter (ofStore (storeName, id)) (store w)))
  ∧ (∀ idx' name' id' customers',
       ELog (LStore idx' name' id' customers') ∈ evs →
       ((idx ≤ idx')%nat → (customers' ≤ customers)%nat)
       ∧ (name' = name → id' = id → idx' = idx)).
Proof.
  cbn zeta. intros Hin.
  destruct (verifyStoreInfo_describes _ _ Hin) as (Hidx & storeName & -> & Hk).
  destruct (topStores_lookup _ _ _ _ Hk) as (Hlt & Hn & Hcount).
  split; [lia|]. split; [done|]. split; [by exists storeName|].
  intros idx' name' id' customers' Hin'.
  destruct (verifyStoreInfo_describes _ _ Hin') as (Hidx' & storeName' & -> & Hk').
  split.
  - intros Hle.
    apply (topStores_descending (store w) (idx - 1) (idx' - 1) _ _ ltac:(lia) Hk Hk').
  - intros [= ->] ->.
    pose proof (topStores_distinct _ _ _ _ _ _ Hk Hk'). lia.
Qed.

Lemma verifyStoreInfo_stores_witness :
  ELog (LStore 1 (Some (VStr "Bolt")) (Some (VStr "S2")) 2)
    ∈ newEvents storesWorld (worldOf (runVerifyStoreInfo storesWorld))
  ∧ (1 ≤ 1 ≤ 10)%nat ∧ (1 ≤ 2)%nat.
Proof.
  assert (Hin : ELog (LStore 1 (Some (VStr "Bolt")) (Some (VStr "S2")) 2)
                  ∈ newEvents storesWorld (worldOf (runVerifyStoreInfo storesWorld))).
  { vm_compute. repeat first [apply list_elem_of_here | apply list_elem_of_further]. }
  split; [exact Hin|].
  destruct (verifyStoreInfo_stores storesWorld _ _ _ _ Hin) as (H1 & H2 & _).
  exact (conj H1 H2).
Defined.

(** * From one script to the next *)

(** ** Lower case and white space *)

Lemma isSpace_lowerChar c : Js.isSpace (Js.lowerChar c) = Js.isSpace c.
Proof. by destruct c as [[] [] [] [] [] [] [] []]. Qed.

Lemma trimStart_toLowerCase s :
  Js.trimStart (Js.toLowerCase s) = Js.toLowerCase (Js.trimStart s).
Proof.
  induction s as [|c s IH]; [done|].
  cbn [Js.toLowerCase Js.trimStart]. rewrite isSpace_lowerChar.
  by destruct (Js.isSpace c).
Qed.

Lemma trimEnd_toLowerCase s :
  Js.trimEnd (Js.toLowerCase s) = Js.toLowerCase (Js.trimEnd s).
Proof.
  induction s as [|c s IH]; [done|].
  cbn [Js.toLowerCase Js.trimEnd]. rewrite IH, isSpace_lowerChar.
  destruct (Js.trimEnd s); cbn [Js.toLowerCase]; [|done].
  by destruct (Js.isSpace c).
Qed.

Lemma trim_toLowerCase s : Js.trim (Js.toLowerCase s) = Js.toLowerCase (Js.trim s).
Proof. unfold Js.trim. by rewrite trimStart_toLowerCase, trimEnd_toLowerCase. Qed.

(** ** Enrichment, then update *)

Lemma filter_none {A} (f : A → bool) (xs : list A) :
  (∀ x, x ∈ xs → f x = false) → List.filter f xs = [].
Proof.
  induction xs as [|x xs IH]; intros H; [done|]. cbn.
  rewrite (H x) by apply list_elem_of_here. apply IH.
  intros y Hy. by apply H, list_elem_of_further.
Qed.

Lemma classes_partition st rows :
  (length (List.filter isMissing rows) + length (List.filter (isUnknown st) rows)
   + length (List.filter (isKnown st) rows) = length rows)%nat.
Proof.
  induction rows as [|row rows IH]; [done|]. cbn.
  unfold isMissing, isUnknown, isKnown in *.
  destruct (Js.truthy (normalizedEmail row)) as [email|];
    [destruct (firstMatch (byEmail email) st)|]; cbn; lia.
Qed.

Lemma rowsInRange_covers startRange endRange rows row :
  startRange ≤ 1 → Z.of_nat (length rows) ≤ endRange → row ∈ rows →
  ∃ at_row, at_row ∈ rowsInRange startRange endRange 1 rows ∧ at_row.2 = row.
Proof.
  intros Hs He Hin.
  assert (H : row ∈ (rowsInRange startRange endRange 1 rows).*2).
  { rewrite rowsInRange_from by done. rewrite take_ge by lia. done. }
  apply list_elem_of_fmap in H as (at_row & -> & H). by exists at_row.
Qed.

(** X17. Enrichment, then update, over the same CSV.  When the range of the
    enrichment-variant covers the rows, no email of the CSV has white space
    around it and no call fails in either run, the update-variant finds the
    record of every row that has an email: its [notFound] counter stays at
    zero, and every row is counted in [updated], reported as unchanged, or
    counted in [errors] for want of an email. *)
Theorem enrich_then_update
    (startRange endRange : Z) (w w' : World) (rows : list Row) :
  faultless w →
  csvFile w = Some rows →
  startRange ≤ 1 →
  Z.of_nat (length rows) ≤ endRange →
  forallb cleanEmail rows = true →
  store w' = store (worldOf (runProcessEmails startRange endRange w)) →
  csvFile w' = Some rows →
  faultless w' →
  let out := runUpdateStoreInfo w' in
  notFoundRecords (localsOf out) = O
  ∧ (updatedRecords (localsOf out) + unchangedRows (newEvents w' (worldOf out))
     + errorRecords (localsOf out) = length rows)%nat.
Proof.
  intros Hw Hcsv Hs He Hclean Hst Hcsv' Hw'. cbn zeta.
  assert (Hnone : List.filter (isUnknown (store w')) rows = []).
  { apply filter_none. intros row Hin. unfold isUnknown.
    destruct (Js.truthy (normalizedEmail row)) as [email|] eqn:Hemail; [|done].
    apply truthy_normalizedEmail in Hemail as (raw & Hraw & -> & _).
    rewrite forallb_forall in Hclean.
    specialize (Hclean row (proj1 (list_elem_of_In _ _) Hin)).
    unfold cleanEmail in Hclean. rewrite Hraw in Hclean.
    apply bool_decide_eq_true in Hclean.
    rewrite trim_toLowerCase, Hclean, Hst.
    destruct (rowsInRange_covers startRange endRange rows row Hs He Hin)
      as (at_row & Hat & <-).
    destruct (processEmails_stores startRange endRange w rows at_row raw Hw Hcsv Hat Hraw)
      as [d ->]. done. }
  destruct (updateStoreInfo_shape w' rows (faultless_next w' Hw') Hcsv')
    as (Hl & _ & evs & Htr & Hev).
  assert (Hloaded : faultless (loaded rows w')).
  { unfold loaded. by apply faultless_issued. }
  destruct (updateLoop_classified (length rows) rows zeroStats (loaded rows w') Hloaded)
    as (Herr & Hn & evs' & Htr' & Hu).
  cbn zeta in *. change (store (loaded rows w')) with (store w') in *.
  rewrite Hl, Herr, Hn, Hnone. split; [done|].
  rewrite Htr', trace_loaded in Htr.
  erewrite newEvents_app; [|rewrite Htr, <- !app_assoc; reflexivity].
  change (summaryLine ?st :: evs) with ([summaryLine st] ++ evs).
  rewrite !unchangedRows_app, (unchangedRows_epilogue _ Hev).
  pose proof (classes_partition (store w') rows) as Hall. rewrite Hnone in Hall.
  unfold unchangedRows at 1 3. cbn. cbn in Hu, Hall. lia.
Qed.

Lemma enrich_then_update_witness :
  notFoundRecords (localsOf (runUpdateStoreInfo enrichedCalmWorld)) = O.
Proof.
  assert (Hst : store enrichedCalmWorld = store (worldOf (runProcessEmails 1 400 oneNewWorld)))
    by (vm_compute; reflexivity).
  apply (enrich_then_update 1 400 oneNewWorld enrichedCalmWorld [csvRow "New@X.com" "" ""]);
    [by constructor | reflexivity | lia | cbn; lia | reflexivity | exact Hst
    | reflexivity | by constructor].
Defined.

(** * The progress indicator *)

Lemma progressAt_progressLines rows row s :
  rows !! (totalProcessed s - 1)%nat = Some row →
  (1 ≤ totalProcessed s)%nat →
  isMissing row = false →
  (accounted s ≤ totalProcessed s)%nat →
  Forall (progressAt rows) (progressLines (length rows) s).
Proof.
  intros Hrow Hpos Hemail Hacc. unfold progressLines.
  destruct (_ =? _)%nat eqn:Hmod; [|done].
  apply Nat.eqb_eq in Hmod. constructor; [|done]. cbn.
  unfold accounted in Hacc. split; [done|]. split; [done|]. split; [done|].
  split; [done|]. by exists row.
Qed.

Lemma updateRow_progress rows row s w :
  rows !! totalProcessed s = Some row →
  (accounted s ≤ totalProcessed s)%nat →
  let out := updateRow (length rows) row s w in
  (accounted (localsOf out) ≤ totalProcessed (localsOf out))%nat
  ∧ ∃ evs, trace (worldOf out) = trace w ++ evs ∧ Forall (progressAt rows) evs.
Proof.
  intros Hrow Hacc. cbn zeta. unfold accounted in *.
  destruct (Js.truthy (normalizedEmail row)) as [email|] eqn:He.
  - assert (Hemail : isMissing row = false) by (unfold isMissing; by rewrite He).
    assert (Hlines : ∀ s', totalProcessed s' = S (totalProcessed s) →
              (accounted s' ≤ totalProcessed s')%nat →
              Forall (progressAt rows) (progressLines (length rows) s')).
    { intros s' Ht Hs'. apply (progressAt_progressLines rows row); [|lia|done|done].
      by replace (totalProcessed s' - 1)%nat with (totalProcessed s) by lia. }
    destruct (updateRow_cases (length rows) row s w _ He) as [_ H]. cbn zeta in H.
    unfold resultOf, localsOf, worldOf in *.
    destruct (updateRow (length rows) row s w) as [[r s'] w']. cbn [fst snd] in *.
    repeat case_match; destruct H as (Ha & Hb & Hc); subst; cbn [fst snd] in *;
      (split; [cbn; lia|]); eexists; (split; [exact Hc|]);
      repeat (constructor; [done|]);
      first [ by constructor
            | apply Hlines; unfold accounted; cbn; lia ].
  - rewrite (updateRow_missing _ _ _ _ He). cbn. split; [lia|].
    exists [ELog (LMissingEmail (S (totalProcessed s)))]. split; [done|].
    by repeat constructor.
Qed.

Lemma updateLoop_progress rows rest done s w :
  rows = done ++ rest →
  totalProcessed s = length done →
  (accounted s ≤ totalProcessed s)%nat →
  ∃ evs, trace (worldOf (updateLoop (length rows) rest s w)) = trace w ++ evs
         ∧ Forall (progressAt rows) evs.
Proof.
  revert done s w. induction rest as [|row rest IH]; intros done s w Hrows Ht Hacc.
  - exists []. cbn. by rewrite app_nil_r.
  - cbn [updateLoop]. unfold bind.
    assert (Hrow : rows !! totalProcessed s = Some row).
    { rewrite Hrows, Ht. by apply list_lookup_middle. }
    destruct (updateRow_ok (length rows) row s w) as [Hr Htotal].
    destruct (updateRow_progress rows row s w Hrow Hacc) as (Hacc' & evs & Htr & Hevs).
    cbn zeta in *. unfold resultOf, localsOf, worldOf in *.
    destruct (updateRow (length rows) row s w) as [[r s'] w']. cbn [fst snd] in *. subst r.
    destruct (IH (done ++ [row]) s' w') as (evs' & Htr' & Hevs'); [..|done|].
    { by rewrite <- app_assoc. }
    { rewrite Htotal, Ht, length_app. cbn. lia. }
    exists (evs ++ evs'). rewrite Htr', Htr, app_assoc. split; [done|].
    by apply Forall_app.
Qed.

Lemma progressAt_epilogue rows evs :
  forallb isEpilogue evs = true → Forall (progressAt rows) evs.
Proof.
  induction evs as [|e evs IH]; [done|]. cbn. intros [He H]%andb_prop.
  constructor; [|by apply IH].
  destruct e as [| | | | | | | | | | |[]]; try discriminate; done.
Qed.

(** The events of a run that fails before its loop. *)
Lemma finally_events {L} (P : Event → Prop) (x : Line) (s : L) w w0 pre :
  trace w0 = trace w ++ pre →
  Forall P pre →
  P (ELog x) → P EClose → P (ELog LClosed) →
  Forall P (newEvents w (worldOf (tryFinally (log x) closing s w0))).
Proof.
  intros Htr Hpre Hx Hclose Hclosed. unfold tryFinally, worldOf. rewrite log_eq, closing_eq.
  destruct (nextFault _); cbn [fst snd];
    (erewrite newEvents_app; [|cbn; rewrite Htr, <- !app_assoc; reflexivity]);
    (apply Forall_app; split; [done|]); by repeat constructor.
Qed.

(** X18. The progress indicator of the update-variant.  In every run, from
    every world: a progress line is printed only once the CSV is loaded; it
    gives the number of rows of the CSV, and is printed for a row whose
    position is a multiple of 100 and which has a usable email (the row at
    a multiple of 100 that has none is skipped before the indicator is
    reached); the three counters it shows add up to at most the
    position. *)
Theorem updateStoreInfo_progress (w : World) (total len updated notFound errors : nat) :
  ELog (LProgress total len updated notFound errors)
    ∈ newEvents w (worldOf (runUpdateStoreInfo w)) →
  ∃ rows row,
    csvFile w = Some rows
    ∧ len = length rows
    ∧ (1 ≤ total ≤ length rows)%nat
    ∧ (total mod 100 = 0)%nat
    ∧ (updated + notFound + errors ≤ total)%nat
    ∧ rows !! (total - 1)%nat = Some row
    ∧ isMissing row = false.
Proof.
  intros Hin.
  assert (Hnone : Forall (progressAt []) (newEvents w (worldOf (runUpdateStoreInfo w))) →
                  False).
  { intros H. rewrite Forall_forall in H. apply H in Hin.
    by destruct Hin as (_ & _ & _ & _ & row & Hrow & _). }
  unfold runUpdateStoreInfo in *.
  destruct (nextFault w) as [msg|] eqn:Hf.
  { exfalso. apply Hnone. rewrite updateStoreInfo_unfold, Hf.
    apply (finally_events _ _ _ _ _ [EConnect]); [done|by repeat constructor|done..]. }
  destruct (csvFile w) as [rows|] eqn:Hcsv.
  2:{ exfalso. apply Hnone.
      pose proof (updateStoreInfo_leftOpen w (conj Hf Hcsv)) as Hopen.
      unfold runUpdateStoreInfo in Hopen. rewrite Hopen. by repeat constructor. }
  clear Hnone.
  destruct (updateStoreInfo_shape w rows Hf Hcsv) as (_ & _ & evs & Htr & Hev).
  destruct (updateLoop_progress rows rows [] zeroStats (loaded rows w))
    as (evs' & Htr' & Hevs'); [done|done|cbn; lia|].
  cbn zeta in *. unfold runUpdateStoreInfo in *.
  rewrite Htr', trace_loaded in Htr.
  erewrite newEvents_app in Hin; [|rewrite Htr, <- !app_assoc; reflexivity].
  assert (Hall : Forall (progressAt rows)
            ([EConnect; ELog LConnected; EReadCsv; ELog (LLoaded (length rows))]
             ++ evs' ++ summaryLine (localsOf (updateLoop (length rows) rows zeroStats
                                                  (loaded rows w))) :: evs)).
  { apply Forall_app. split; [by repeat constructor|].
    apply Forall_app. split; [done|]. constructor; [done|].
    by apply progressAt_epilogue. }
  rewrite Forall_forall in Hall. apply Hall in Hin.
  destruct Hin as (-> & Hpos & Hmod & Hacc & row & Hrow & Hemail).
  exists rows, row. split; [done|]. split; [done|].
  pose proof (lookup_lt_Some _ _ _ Hrow). split; [lia|]. done.
Qed.

Lemma updateStoreInfo_progress_witness :
  ∃ rows row,
    csvFile hundredWorld = Some rows
    ∧ 100%nat = length rows
    ∧ (1 ≤ 100 ≤ length rows)%nat
    ∧ (100 mod 100 = 0)%nat
    ∧ (0 + 100 + 0 ≤ 100)%nat
    ∧ rows !! (100 - 1)%nat = Some row
    ∧ isMissing row = false.
Proof.
  apply (updateStoreInfo_progress hundredWorld 100 100 0 100 0).
  apply (list_elem_of_lookup_2 _ 204). vm_compute. reflexivity.
Defined.

(** * One record per email *)

#[local] Instance unique_refl email : Reflexive (unique email).
Proof. intros [l w]. by left. Qed.

#[local] Instance unique_trans email : Transitive (unique email).
Proof.
  intros [l1 w1] [l2 w2] [l3 w3]. unfold unique. cbn [fst snd]. lia.
Qed.

Lemma unique_same email (a b : Z * World) : store b.2 = store a.2 → unique email a b.
Proof. intros H. left. by rewrite H. Qed.

Lemma count_none f st : firstMatch f st = None → count f st = O.
Proof.
  unfold firstMatch, count. intros H. rewrite filter_none; [done|].
  intros x Hx. apply (find_none _ _ H). by apply list_elem_of_In.
Qed.

Lemma count_snoc f st d :
  count f (st ++ [d]) = (count f st + one (matches f d))%nat.
Proof.
  unfold count. rewrite List.filter_app, length_app. cbn [List.filter].
  by destruct (matches f d).
Qed.

Lemma matches_newRecord email email' data processedAt :
  matches (byEmail email) (newRecord email' data processedAt)
  = bool_decide (email' = email).
Proof.
  cbn. unfold newRecord. rewrite lookup_insert_eq. apply bool_decide_ext.
  split; [by intros [= ->]|by intros ->].
Qed.

Lemma enrichRow_unique email startRange endRange row :
  respects (unique email) (enrichRow startRange endRange row).
Proof.
  intros idx w.
  destruct (enrichRow_cases startRange endRange row idx w) as (_ & _ & H).
  cbn zeta in H.
  destruct (inRange _ _ _); [|apply unique_same; by rewrite H].
  destruct (row !! "customer_email") as [raw|];
    repeat case_match; try (apply unique_same; by rewrite H).
  unfold unique. cbn [fst snd]. rewrite H. cbn [store withClock noted withTrace withStore].
  rewrite count_snoc, matches_newRecord.
  destruct (decide (Js.toLowerCase raw = email)) as [<-|Hne].
  - right. rewrite bool_decide_true by done. rewrite count_none by done. done.
  - left. rewrite bool_decide_false by done. cbn. lia.
Qed.

Lemma enrichLoop_unique email startRange endRange rows :
  respects (unique email) (enrichLoop startRange endRange rows).
Proof.
  induction rows as [|row rows IH]; cbn.
  - apply respects_ret. apply _.
  - apply respects_bind; [apply _| |done]. apply enrichRow_unique.
Qed.

(** X19. The enrichment-variant never stores an email twice.  In every run,
    from every world and whatever fails: for every email, the collection
    ends with as many records for it as it started with, or with one where
    it had none. *)
Theorem processEmails_one_record_per_email
    (startRange endRange : Z) (w : World) (email : string) :
  let st := store (worldOf (runProcessEmails startRange endRange w)) in
  count (byEmail email) st = count (byEmail email) (store w)
  ∨ (count (byEmail email) (store w) = O ∧ count (byEmail email) st = 1%nat).
Proof.
  assert (Hsame : ∀ e (l l' : Z) w', True → unique email (l, w') (l', noted e w'))
    by (intros; by apply unique_same).
  assert (Hsame' : ∀ e (l l' : Z) w', True → unique email (l, w') (l', issued e w'))
    by (intros; by apply unique_same).
  apply (respects_processEmails (unique email) (λ _, True) Hsame Hsame'); [done|].
  intros. apply enrichLoop_unique.
Qed.

(** * The delay *)

#[local] Instance delayed_refl : Reflexive delayed.
Proof. intros [l w] H. cbn [fst snd]. split; [done|lia]. Qed.

#[local] Instance delayed_trans : Transitive delayed.
Proof.
  intros [l1 w1] [l2 w2] [l3 w3] H12 H23 H1. unfold delayed in *. cbn [fst snd] in *.
  destruct (H12 H1) as [H2 Hc]. destruct (H23 H2) as [H3 Hc']. split; [done|lia].
Qed.

Lemma forward_issued e w :
  forward w → forward (issued e w) ∧ clock w ≤ clock (issued e w).
Proof.
  unfold forward. cbn. destruct (answers w) as [|t a]; cbn.
  - intros _. split; [done|lia].
  - intros [Ht Ha]%Forall_cons. split; [done|lia].
Qed.

Lemma delayed_noted e (l l' : Z) w : delayed (l, w) (l', noted e w).
Proof. intros H. cbn. split; [done|lia]. Qed.

Lemma delayed_issued e (l l' : Z) w : delayed (l, w) (l', issued e w).
Proof.
  intros H. cbn [fst snd] in *. destruct (forward_issued e w H) as [H' Hc].
  split; [done|]. change (store (issued e w)) with (store w). lia.
Qed.

Lemma enrichRow_delayed startRange endRange row :
  respects delayed (enrichRow startRange endRange row).
Proof.
  intros idx w.
  cut (delayed (idx, w) (idx, worldOf (enrichRow startRange endRange row idx w)));
    [intros Hd; exact Hd|].
  destruct (enrichRow_cases startRange endRange row idx w) as (_ & _ & H).
  cbn zeta in H.
  destruct (inRange _ _ _); [|rewrite H; reflexivity].
  destruct (row !! "customer_email") as [raw|]; repeat case_match; rewrite H;
    try solve [ (etrans; [|apply (delayed_noted _ idx idx)]);
                repeat (etrans; [|apply (delayed_issued _ idx idx)]); reflexivity ].
  match goal with
  | |- delayed _ (_, withClock _ (noted _ (noted _ (withStore _ ?w3)))) => trans (idx, w3)
  end.
  - repeat (etrans; [|apply (delayed_issued _ idx idx)]); reflexivity.
  - intros Hw3. unfold forward in *. cbn in *. split; [done|].
    rewrite length_app. cbn [length]. lia.
Qed.

Lemma enrichLoop_delayed startRange endRange rows :
  respects delayed (enrichLoop startRange endRange rows).
Proof.
  induction rows as [|row rows IH]; cbn.
  - apply respects_ret. apply _.
  - apply respects_bind; [apply _| |done]. apply enrichRow_delayed.
Qed.

(** X20. The delay of the enrichment-variant.  In an environment in which
    no call takes a negative time, a run takes at least one second for
    every record it adds to the collection, whatever fails. *)
Theorem processEmails_delay (startRange endRange : Z) (w : World) :
  forward w →
  let out := worldOf (runProcessEmails startRange endRange w) in
  clock w + 1000 * (Z.of_nat (length (store out)) - Z.of_nat (length (store w)))
  ≤ clock out.
Proof.
  intros Hw. cbn zeta.
  assert (Hnoted : ∀ e (l l' : Z) w', True → delayed (l, w') (l', noted e w'))
    by (intros; apply delayed_noted).
  assert (Hissued : ∀ e (l l' : Z) w', True → delayed (l, w') (l', issued e w'))
    by (intros; apply delayed_issued).
  apply (respects_processEmails delayed (λ _, True) Hnoted Hissued); [done| |done].
  intros. apply enrichLoop_delayed.
Qed.

Lemma processEmails_delay_witness :
  clock twoNewWorld + 1000 * (2 - 0)
  ≤ clock (worldOf (runProcessEmails 1 400 twoNewWorld)).
Proof.
  assert (Hw : forward twoNewWorld) by (repeat constructor; cbn; lia).
  pose proof (processEmails_delay 1 400 twoNewWorld Hw) as H. cbn zeta in H.
  assert (Hlen : length (store (worldOf (runProcessEmails 1 400 twoNewWorld))) = 2%nat)
    by (vm_compute; reflexivity).
  rewrite Hlen in H. exact H.
Defined.

(** * The sample of updated records *)









